(** * Dijkstra shortest paths of [src/dijkstra/index.ts]

    A shallow embedding of the classes [Vertex], [Edge] and [Graph] and of the
    demo input of the module, followed by the properties of the
    construction-time algorithm and of the two queries.

    The classes [Edge] and [Graph] are embedded twice.
    - In the module [IEEE] a [number] is a double-precision value of IEEE 754
      ([spec_float] of the Standard Library with precision 53 and maximal
      exponent 1024): a sum is rounded and overflows to an infinity, and the
      weight of an [Edge] is any number.  The conversion of a number to a
      string is a parameter of [printPathTo].
    - Outside that module a [number] is an integer or [Infinity], the weight
      of an [Edge] is an integer (possibly negative: the code never inspects
      its sign), a best distance is an integer or [Infinity], and arithmetic
      on integers is exact.
    The two agree on integer weights whose absolute values sum up to less
    than 2^52 ([exact_run]): there no sum and no difference that the
    algorithm forms is rounded.  The properties that state the value of a
    sum of weights are theorems about [IEEE], for such weights; the
    properties of the predecessor map at the end are theorems about [IEEE]
    for every weight and every queue.

    Modelling conventions.
    - [Map<string, _>] is a [gmap string _], [Set<string>] a [gset string].
    - [throw new Error(msg)] is the outcome [Throw msg]; a non-null assertion
      [e!] on an undefined value is the outcome [Undefined_deref]; a [while]
      loop is unrolled [fuel] times and yields [Diverge] when the budget is
      used up before the loop condition fails.
    - [priorityqueuejs] is an external package: the queue is an interface
      ([PriorityQueue]) with the documented contract of the package
      ([PriorityQueueLaws]), and every result holds for every implementation
      that meets the contract. *)

From stdpp Require Import gmap strings list fin_maps pretty.
From Stdlib Require Import SpecFloat.

Local Open Scope Z_scope.

(** ** Outcomes of effectful code *)

Inductive outcome (A : Type) : Type :=
| Ret (a : A)
| Throw (msg : string)
| Undefined_deref
| Diverge.
Arguments Ret {A} a.
Arguments Throw {A} msg.
Arguments Undefined_deref {A}.
Arguments Diverge {A}.

Global Instance outcome_bind : MBind outcome := λ A B k m,
  match m with
  | Ret a => k a
  | Throw msg => Throw msg
  | Undefined_deref => Undefined_deref
  | Diverge => Diverge
  end.

(** The non-null assertion operator [e!]. *)
Definition nonnull {A} (o : option A) : outcome A :=
  match o with
  | Some a => Ret a
  | None => Undefined_deref
  end.

(** [for (const x of xs) body]: a left fold that stops at the first failure. *)
Fixpoint for_of {A S} (body : S → A → outcome S) (xs : list A) (s : S) : outcome S :=
  match xs with
  | [] => Ret s
  | x :: xs' => s' ← body s x; for_of body xs' s'
  end.

(** ** Numbers

    The numbers of the exact embedding: an integer or [Infinity].  The
    numbers of the language, which round, are those of the module [IEEE]
    below. *)

Inductive number : Type :=
| Num (z : Z)
| Infinity.

Global Instance number_eq_dec : EqDecision number.
Proof. solve_decision. Defined.

(** [a < b] on numbers. *)
Definition number_lt (a b : number) : bool :=
  match a, b with
  | Num x, Num y => bool_decide (x < y)
  | Num _, Infinity => true
  | Infinity, _ => false
  end.

(** Template-literal rendering [`${n}`] of a number and of a possibly
    undefined number. *)
Definition number_to_string (n : number) : string :=
  match n with
  | Num z => pretty z
  | Infinity => "Infinity"
  end.

Definition render_lookup (o : option number) : string :=
  match o with
  | Some n => number_to_string n
  | None => "undefined"
  end.

(** ** Vertices and edges *)

Record Vertex : Type := mkVertex { name : string }.

Record Edge : Type := mkEdge { from : Vertex; to : Vertex; distance : Z }.

Global Instance Vertex_eq_dec : EqDecision Vertex.
Proof. solve_decision. Defined.

Global Instance Edge_eq_dec : EqDecision Edge.
Proof. solve_decision. Defined.

(** ** The priority queue of [priorityqueuejs]

    The operations [new PriorityQueue(comparator)], [enq], [deq] and
    [isEmpty] that the module uses.  [deq] of the package throws on an empty
    queue: here it returns [None]. *)

Class PriorityQueue (A : Type) : Type := {
  pq : Type;
  pq_new : (A → A → Z) → pq;
  pq_enq : A → pq → pq;
  pq_deq : pq → option (A * pq);
  pq_isEmpty : pq → bool;
}.
Arguments pq {A} _.

(** ** The class [Graph] *)

Record Graph : Type := mkGraph {
  startV : Vertex;
  edges : list Edge;
  bestDistances : gmap string number;
  prevVertex : gmap string Vertex;
  neighbours : gmap string (list Edge);
}.

(** [comparator]: the queue holds pairs [[vertex, distance]]; the smaller
    distance has the higher priority. *)
Definition comparator (a b : Vertex * Z) : Z :=
  let '(v1, bestDist1) := a in
  let '(v2, bestDist2) := b in
  bestDist2 - bestDist1.

(** [validateInput]. *)
Definition validateInput (startV : Vertex) (edges : list Edge) : outcome unit :=
  if bool_decide (edges = []) then Throw "Edges should not be empty"
  else
    let fromVNames := map (λ e, name (from e)) edges in
    let toVNames := map (λ e, name (to e)) edges in
    if negb (bool_decide (name startV ∈ fromVNames))
       && negb (bool_decide (name startV ∈ toVNames))
    then Throw "Edges should include given start Vertex"
    else Ret tt.

(** The first loop of the constructor: one step groups the edge under the
    name of its [from] vertex and records both endpoint names. *)
Definition register_edge (acc : gmap string (list Edge) * gset string) (e : Edge)
  : gmap string (list Edge) * gset string :=
  let '(nbs, allVertices) := acc in
  let from_ := name (from e) in
  let nbs' :=
    match nbs !! from_ with
    | Some es => <[from_ := es ++ [e]]> nbs
    | None => <[from_ := [e]]> nbs
    end in
  (nbs', {[name (to e)]} ∪ ({[from_]} ∪ allVertices)).

(** The second loop of the constructor. *)
Definition init_distances (allVertices : gset string) : gmap string number :=
  set_fold (λ vName m, <[vName := Infinity]> m) ∅ allVertices.

Section Algorithm.
Context `{PQ : PriorityQueue (Vertex * Z)}.

(** The state of the [while] loop of [dijkstraShortPathAlgo]: the fields of
    [this] and the locals [q] and [visited]. *)
Record loop_state : Type := mkState {
  graph : Graph;
  queue : pq PQ;
  visited : gset string;
}.

(** The body of the [for] loop over the neighbours of [vertexToCheck]. *)
Definition relax (vertexToCheck : Vertex) (bestDistSoFar : Z) (visited : gset string)
    (acc : Graph * pq PQ) (neighbour : Edge) : outcome (Graph * pq PQ) :=
  let '(g, q) := acc in
  let distVertex := to neighbour in
  if bool_decide (name distVertex ∈ visited) then Ret (g, q)
  else
    let altDist := bestDistSoFar + distance neighbour in
    best ← nonnull (bestDistances g !! name distVertex);
    if number_lt (Num altDist) best then
      Ret (mkGraph (startV g) (edges g)
             (<[name distVertex := Num altDist]> (bestDistances g))
             (<[name distVertex := vertexToCheck]> (prevVertex g))
             (neighbours g),
           pq_enq (distVertex, altDist) q)
    else Ret (g, q).

(** One iteration of the [while] loop, entered with a non-empty queue. *)
Definition iteration (st : loop_state) : outcome loop_state :=
  match pq_deq (queue st) with
  | None => Throw "PriorityQueue is empty"
  | Some ((vertexToCheck, bestDistSoFar), q) =>
      match neighbours (graph st) !! name vertexToCheck with
      | None => Ret (mkState (graph st) q (visited st))
      | Some _ =>
          ns ← nonnull (neighbours (graph st) !! name vertexToCheck);
          '(g, q') ← for_of (relax vertexToCheck bestDistSoFar (visited st)) ns (graph st, q);
          Ret (mkState g q' ({[name vertexToCheck]} ∪ visited st))
      end
  end.

(** [while (!q.isEmpty()) { ... }], unrolled at most [fuel] times. *)
Fixpoint loop (fuel : nat) (st : loop_state) : outcome Graph :=
  if pq_isEmpty (queue st) then Ret (graph st)
  else
    match fuel with
    | O => Diverge
    | S fuel' => st' ← iteration st; loop fuel' st'
    end.

(** [dijkstraShortPathAlgo]. *)
Definition dijkstraShortPathAlgo (fuel : nat) (g : Graph) : outcome Graph :=
  let q := pq_new comparator in
  let visited : gset string := ∅ in
  let q := pq_enq (startV g, 0) q in
  loop fuel (mkState g q visited).

(** The constructor [new Graph(startV, edges)]. *)
Definition new_Graph (fuel : nat) (startV : Vertex) (edges : list Edge) : outcome Graph :=
  _ ← validateInput startV edges;
  let '(nbs, allVertices) := foldl register_edge (∅, ∅) edges in
  let best := init_distances allVertices in
  let best := <[name startV := Num 0]> best in
  dijkstraShortPathAlgo fuel (mkGraph startV edges best ∅ nbs).

End Algorithm.

(** ** Queries *)

(** [shortestPathTo]: [None] is [undefined]. *)
Definition shortestPathTo (g : Graph) (v : Vertex) : option number :=
  bestDistances g !! name v.

(** The [while (prevVertex)] loop of [printPathTo], unrolled at most [fuel]
    times. *)
Fixpoint print_walk (fuel : nat) (g : Graph) (prevVertex_ : option Vertex) (path : string)
  : outcome string :=
  match prevVertex_ with
  | None => Ret path
  | Some p =>
      match fuel with
      | O => Diverge
      | S fuel' =>
          print_walk fuel' g (prevVertex g !! name p)
            ("Vertex(" +:+ name p +:+ ") -> " +:+ path)
      end
  end.

(** [printPathTo]: [Ret None] is [undefined]. *)
Definition printPathTo (fuel : nat) (g : Graph) (v : Vertex) : outcome (option string) :=
  if bool_decide (name v = name (startV g)) then
    Ret (Some ("Vertex(" +:+ name v +:+ ") is a source"))
  else
    match prevVertex g !! name v with
    | None => Ret None
    | Some p =>
        let path := "Vertex(" +:+ name v +:+ ") - total "
                    +:+ render_lookup (bestDistances g !! name v)
                    +:+ " away from source" in
        s ← print_walk fuel g (Some p) path;
        Ret (Some s)
    end.

(** [pathTo] of the specification: the sequence of vertices that
    [printPathTo] lists, in the order in which they are printed.  It is the
    same walk with a list in place of the string ([printPathTo_pathTo]
    below relates the two). *)
Fixpoint walk (fuel : nat) (g : Graph) (prevVertex_ : option Vertex) (path : list Vertex)
  : outcome (list Vertex) :=
  match prevVertex_ with
  | None => Ret path
  | Some p =>
      match fuel with
      | O => Diverge
      | S fuel' => walk fuel' g (prevVertex g !! name p) (p :: path)
      end
  end.

Definition pathTo (fuel : nat) (g : Graph) (v : Vertex) : outcome (option (list Vertex)) :=
  if bool_decide (name v = name (startV g)) then Ret (Some [v])
  else
    match prevVertex g !! name v with
    | None => Ret None
    | Some p => l ← walk fuel g (Some p) [v]; Ret (Some l)
    end.

(** The text that [printPathTo] builds for the vertices [pre] that precede
    the queried vertex, and for the whole result. *)
Definition render_path (pre : list Vertex) (tail : string) : string :=
  foldr (λ p acc, "Vertex(" +:+ name p +:+ ") -> " +:+ acc) tail pre.

Definition render (g : Graph) (v : Vertex) (l : list Vertex) : string :=
  if bool_decide (name v = name (startV g)) then "Vertex(" +:+ name v +:+ ") is a source"
  else render_path (removelast l)
         ("Vertex(" +:+ name v +:+ ") - total "
          +:+ render_lookup (bestDistances g !! name v) +:+ " away from source").

(** ** A reference implementation of the queue

    The queue keeps its comparator and an unordered list; [deq] takes the
    first element of highest priority. *)

Fixpoint extract_top {A} (cmp : A → A → Z) (l : list A) : option (A * list A) :=
  match l with
  | [] => None
  | a :: l' =>
      match extract_top cmp l' with
      | None => Some (a, [])
      | Some (b, rest) =>
          if bool_decide (0 ≤ cmp a b) then Some (a, l') else Some (b, a :: rest)
      end
  end.

Global Instance list_queue {A : Type} : PriorityQueue A := {|
  pq := (A → A → Z) * list A;
  pq_new cmp := (cmp, []);
  pq_enq a q := (q.1, q.2 ++ [a]);
  pq_deq q :=
    match extract_top q.1 q.2 with
    | Some (a, rest) => Some (a, (q.1, rest))
    | None => None
    end;
  pq_isEmpty q := match q.2 with [] => true | _ => false end;
|}.

(** ** The demo input of the module, and further inputs *)

Definition vA : Vertex := mkVertex "A".
Definition vB : Vertex := mkVertex "B".
Definition vC : Vertex := mkVertex "C".
Definition vD : Vertex := mkVertex "D".
Definition vE : Vertex := mkVertex "E".

Definition demo_edges : list Edge :=
  [ mkEdge vA vB 1; mkEdge vA vC 3; mkEdge vA vE 10;
    mkEdge vB vC 1; mkEdge vC vD 5; mkEdge vD vE 4 ].

(** A second input: D occurs in an edge but cannot be reached from A, and Z
    occurs in no edge. *)
Definition island_edges : list Edge :=
  [ mkEdge vA vB 1; mkEdge vA vC 3; mkEdge vB vC 1; mkEdge vD vA 2 ].

Definition island_graph : Graph :=
  Eval vm_compute in
    match new_Graph (PQ := list_queue) 5 vA island_edges with
    | Ret g => g
    | _ => mkGraph vA [] ∅ ∅ ∅
    end.

(** An input with a negative weight on which the returned distance of C,
    2, exceeds the weight 1 of the path A, B, C. *)
Definition negative_edges : list Edge :=
  [ mkEdge vA vC 2; mkEdge vA vB 3; mkEdge vB vC (-2); mkEdge vC vD 0 ].

(** An input with a negative self-loop at the source. *)
Definition self_loop_edges : list Edge := [ mkEdge vA vA (-1); mkEdge vA vB 5 ].



(** * Specification *)

(** ** The contract of the priority queue

    The package documents that [deq] removes and returns the element with the
    highest priority, where [comparator a b > 0] means that [a] has the higher
    priority.  [pq_elems] is the multiset of queued elements (a list up to
    permutation) and [pq_wf] the representation invariant of the
    implementation, for queues created with the comparator [cmp]. *)

Class PriorityQueueLaws {A : Type} (PQ : PriorityQueue A) (cmp : A → A → Z) : Type := {
  pq_elems : pq PQ → list A;
  pq_wf : pq PQ → Prop;
  pq_new_wf : pq_wf (pq_new cmp);
  pq_new_elems : pq_elems (pq_new cmp) = [];
  pq_enq_wf : ∀ a q, pq_wf q → pq_wf (pq_enq a q);
  pq_enq_elems : ∀ a q, pq_wf q → pq_elems (pq_enq a q) ≡ₚ a :: pq_elems q;
  pq_isEmpty_spec : ∀ q, pq_wf q → (pq_isEmpty q = true ↔ pq_elems q = []);
  pq_deq_None : ∀ q, pq_wf q → pq_deq q = None → pq_elems q = [];
  pq_deq_Some : ∀ q a q', pq_wf q → pq_deq q = Some (a, q') →
    pq_wf q' ∧ pq_elems q ≡ₚ a :: pq_elems q' ∧ ∀ b, b ∈ pq_elems q → 0 ≤ cmp a b;
  pq_deq_nonempty : ∀ q, pq_wf q → pq_elems q ≠ [] → is_Some (pq_deq q);
}.

(** ** Specification vocabulary: paths of the input edge list *)

(** The edges that leave the vertex named [n], in input order. *)
Definition out_edges (es : list Edge) (n : string) : list Edge :=
  filter (λ e, name (from e) = n) es.

(** The names that occur as an endpoint of some edge. *)
Definition endpoints (es : list Edge) : gset string :=
  list_to_set (map (λ e, name (from e)) es) ∪ list_to_set (map (λ e, name (to e)) es).

(** [is_path es a p b]: [p] is a chain of edges of [es] that leads from the
    vertex named [a] to the vertex named [b]. *)
Fixpoint is_path (es : list Edge) (a : string) (p : list Edge) (b : string) : Prop :=
  match p with
  | [] => a = b
  | e :: p' => e ∈ es ∧ name (from e) = a ∧ is_path es (name (to e)) p' b
  end.

(** The summed edge weights of a path. *)
Definition weight (p : list Edge) : Z := foldr (λ e acc, distance e + acc) 0 p.

Definition reachable (es : list Edge) (a b : string) : Prop :=
  ∃ p, is_path es a p b.

(** [d] is the minimum of the weights of the paths from [a] to [b]. *)
Definition is_shortest (es : list Edge) (a b : string) (d : Z) : Prop :=
  (∃ p, is_path es a p b ∧ weight p = d) ∧ ∀ p, is_path es a p b → d ≤ weight p.

(** The vertices visited by a path that starts in [s]. *)
Definition vertices_of (s : Vertex) (p : list Edge) : list Vertex := s :: map to p.

Definition nonneg (es : list Edge) : Prop := Forall (λ e, 0 ≤ distance e) es.

(** [pred_path g v p]: following the predecessor map of [g] from [v] leads,
    along the edges [p] read backwards, to the source, which has no
    predecessor. *)
Inductive pred_path (g : Graph) : Vertex → list Edge → Prop :=
| pred_source :
    prevVertex g !! name (startV g) = None →
    pred_path g (startV g) []
| pred_link v u e p :
    prevVertex g !! name v = Some u →
    e ∈ edges g → from e = u → to e = v →
    pred_path g u p →
    pred_path g v (p ++ [e]).

(** Every two neighbours of the sequence are joined by an edge of [es]. *)
Definition consecutive (es : list Edge) (vs : list Vertex) : Prop :=
  ∀ i a b, vs !! i = Some a → vs !! S i = Some b →
    ∃ e, e ∈ es ∧ from e = a ∧ to e = b.

(** The constructor returns [g]. *)
Definition constructs `{PQ : PriorityQueue (Vertex * Z)}
    (s : Vertex) (es : list Edge) (g : Graph) : Prop :=
  ∃ fuel, new_Graph fuel s es = Ret g.

(** The errors of the constructor, by the names the specification gives them. *)
Definition EmptyGraphError : string := "Edges should not be empty".
Definition DisconnectedSourceError : string := "Edges should include given start Vertex".

(** [a ≤ b] on numbers. *)
Definition number_le (a b : number) : Prop :=
  match a, b with
  | Num x, Num y => x ≤ y
  | _, Infinity => True
  | Infinity, Num _ => False
  end.

(** ** Invariants of the loops *)

Section Vocabulary.
Context `{PQ : PriorityQueue (Vertex * Z)} {PQL : PriorityQueueLaws PQ comparator}.

(** The assignment of a better distance and predecessor to the target of [e]. *)
Definition improve (u : Vertex) (alt : Z) (e : Edge) (g : Graph) : Graph :=
  mkGraph (startV g) (edges g)
    (<[name (to e) := Num alt]> (bestDistances g))
    (<[name (to e) := u]> (prevVertex g))
    (neighbours g).

(** The three ways through the body of the [for] loop. *)
Inductive relaxed (u : Vertex) (d : Z) (vis : gset string) (e : Edge)
  : Graph * pq PQ → Graph * pq PQ → Prop :=
| relaxed_skip g q :
    name (to e) ∈ vis →
    relaxed u d vis e (g, q) (g, q)
| relaxed_keep g q b :
    name (to e) ∉ vis →
    bestDistances g !! name (to e) = Some (Num b) →
    b ≤ d + distance e →
    relaxed u d vis e (g, q) (g, q)
| relaxed_improve g q b :
    name (to e) ∉ vis →
    bestDistances g !! name (to e) = Some b →
    number_lt (Num (d + distance e)) b = true →
    relaxed u d vis e (g, q)
      (improve u (d + distance e) e g, pq_enq (to e, d + distance e) q).

(** Facts about best distances. *)
Definition fin_le (B : gmap string number) (v : string) (d : Z) : Prop :=
  ∃ b, B !! v = Some (Num b) ∧ b ≤ d.

Definition has_path (es : list Edge) (s : Vertex) (v : string) (d : Z) : Prop :=
  ∃ p, is_path es (name s) p v ∧ weight p = d.

Definition link_ok (es : list Edge) (B : gmap string number) (v : string) (u : Vertex) : Prop :=
  ∃ e d, e ∈ es ∧ from e = u ∧ name (to e) = v ∧
         B !! v = Some (Num (d + distance e)) ∧ fin_le B (name u) d.

(** The invariant of the [while] loop that holds for arbitrary weights. *)
Record Inv (s : Vertex) (es : list Edge) (st : loop_state) : Prop := {
  inv_start : startV (graph st) = s;
  inv_edges : edges (graph st) = es;
  inv_nbs : ∀ n, neighbours (graph st) !! n =
                 if decide (out_edges es n = []) then None else Some (out_edges es n);
  inv_wf : pq_wf (queue st);
  inv_dom : ∀ v, is_Some (bestDistances (graph st) !! v) ↔ v ∈ endpoints es;
  inv_vis : ∀ v, v ∈ visited st → out_edges es v ≠ [];
  inv_queue : ∀ x d, (x, d) ∈ pq_elems (queue st) →
                has_path es s (name x) d ∧ fin_le (bestDistances (graph st)) (name x) d;
  inv_best : ∀ v d, bestDistances (graph st) !! v = Some (Num d) → has_path es s v d;
  inv_prev : ∀ v u, prevVertex (graph st) !! v = Some u →
                link_ok es (bestDistances (graph st)) v u;
  inv_fin : ∀ v d, bestDistances (graph st) !! v = Some (Num d) →
                v = name s ∨ is_Some (prevVertex (graph st) !! v);
}.

(** The two ways through the body of the [while] loop. *)
Inductive step_of (es : list Edge) (st st' : loop_state) : Prop :=
| step_leaf u d q0 :
    pq_deq (queue st) = Some ((u, d), q0) →
    out_edges es (name u) = [] →
    st' = mkState (graph st) q0 (visited st) →
    step_of es st st'
| step_node u d q0 g' q' :
    pq_deq (queue st) = Some ((u, d), q0) →
    out_edges es (name u) ≠ [] →
    for_of (relax u d (visited st)) (out_edges es (name u)) (graph st, q0) = Ret (g', q') →
    st' = mkState g' q' ({[name u]} ∪ visited st) →
    step_of es st st'.

(** The termination measure: unvisited vertices with outgoing edges, queued
    entries of visited vertices, queued entries. *)
Definition sources (es : list Edge) : gset string :=
  list_to_set (map (λ e, name (from e)) es).

Definition in_set (X : gset string) (x : Vertex * Z) : Prop := name x.1 ∈ X.

Global Instance in_set_dec X x : Decision (in_set X x) := decide (name x.1 ∈ X).

Definition measure1 (es : list Edge) (st : loop_state) : nat :=
  size (sources es ∖ visited st).

Definition measure2 (st : loop_state) : nat :=
  length (filter (in_set (visited st)) (pq_elems (queue st))).

Definition measure3 (st : loop_state) : nat :=
  length (pq_elems (queue st)).

Definition decreases (es : list Edge) (st' st : loop_state) : Prop :=
  (measure1 es st' < measure1 es st)%nat ∨
  (measure1 es st' = measure1 es st ∧
   ((measure2 st' < measure2 st)%nat ∨
    (measure2 st' = measure2 st ∧ (measure3 st' < measure3 st)%nat))).

(** The state in which the constructor enters the [while] loop. *)
Definition init_graph (s : Vertex) (es : list Edge) : Graph :=
  let '(nbs, allVertices) := foldl register_edge (∅, ∅) es in
  mkGraph s es (<[name s := Num 0]> (init_distances allVertices)) ∅ nbs.

Definition init_state (s : Vertex) (es : list Edge) : loop_state :=
  mkState (init_graph s es) (pq_enq (s, 0) (pq_new comparator)) ∅.

(** Every edge that leaves [v] has been relaxed against the distance [d]. *)
Definition settled (es : list Edge) (B : gmap string number) (v : string) (d : Z) : Prop :=
  ∀ e, e ∈ es → name (from e) = v → fin_le B (name (to e)) (d + distance e).

(** [m] is the distance popped last, [rk] numbers the visited vertices in the
    order in which they were visited and [n] bounds the numbers in use. *)
Record InvN (s : Vertex) (es : list Edge) (m : Z) (rk : string → nat) (n : nat)
    (st : loop_state) : Prop := {
  invn_source : bestDistances (graph st) !! name s = Some (Num 0) ∧
                prevVertex (graph st) !! name s = None;
  invn_m : 0 ≤ m;
  invn_queue : ∀ x d, (x, d) ∈ pq_elems (queue st) → m ≤ d;
  invn_vis : ∀ v, v ∈ visited st → fin_le (bestDistances (graph st)) v m;
  invn_done : ∀ v d, bestDistances (graph st) !! v = Some (Num d) →
                (∃ x, name x = v ∧ (x, d) ∈ pq_elems (queue st)) ∨
                settled es (bestDistances (graph st)) v d;
  invn_vdone : ∀ v d, v ∈ visited st → bestDistances (graph st) !! v = Some (Num d) →
                settled es (bestDistances (graph st)) v d;
  invn_acy : ∀ v u, prevVertex (graph st) !! v = Some u →
                name u ∈ visited st ∧ (v ∈ visited st → (rk (name u) < rk v)%nat);
  invn_rk : ∀ v, v ∈ visited st → (rk v < n)%nat;
}.

(** The invariant of the [for] loop while the entry [(u, d)] is handled, for
    non-negative weights: [done] are the edges handled so far, [g0] and [q0]
    the graph and the queue before the loop. *)
Record JN (s : Vertex) (es : list Edge) (u : Vertex) (d m : Z) (vis : gset string)
    (rk : string → nat) (g0 : Graph) (q0 : pq PQ)
    (done : list Edge) (g : Graph) (q : pq PQ) : Prop := {
  jn_inv : Inv s es (mkState g q vis);
  jn_u : fin_le (bestDistances g) (name u) d;
  jn_source : bestDistances g !! name s = Some (Num 0) ∧ prevVertex g !! name s = None;
  jn_queue : ∀ x dx, (x, dx) ∈ pq_elems q → d ≤ dx;
  jn_vis : ∀ v, v ∈ vis → fin_le (bestDistances g) v m;
  jn_done : ∀ v dv, bestDistances g !! v = Some (Num dv) →
              (∃ x, name x = v ∧ (x, dv) ∈ pq_elems q) ∨
              settled es (bestDistances g) v dv ∨ (v = name u ∧ dv = d);
  jn_handled : ∀ e, e ∈ done → fin_le (bestDistances g) (name (to e)) (d + distance e);
  jn_vdone : ∀ v dv, v ∈ vis → bestDistances g !! v = Some (Num dv) →
              settled es (bestDistances g) v dv;
  jn_acy : ∀ v u', prevVertex g !! v = Some u' →
              (name u' ∈ vis ∧ (v ∈ vis → (rk (name u') < rk v)%nat)) ∨
              (u' = u ∧ (v ∉ vis) ∧ v ≠ name u);
  jn_stale : name u ∈ vis → g = g0 ∧ q = q0;
  jn_pushes : (length (pq_elems q) ≤ length (pq_elems q0) + length done)%nat;
}.

(** The number of queue entries plus the number of edges whose origin is
    not visited yet: it bounds the number of iterations still to come. *)
Definition potential (es : list Edge) (st : loop_state) : nat :=
  length (pq_elems (queue st)) +
  length (filter (λ e, name (from e) ∉ visited st) es).

(** The invariant of the [while] loop for non-negative weights. *)
Definition InvNN (s : Vertex) (es : list Edge) (st : loop_state) : Prop :=
  Inv s es st ∧ ∃ m rk n, InvN s es m rk n st.

(** Every edge target listed in the adjacency index has an entry in the
    best-distance map. *)
Definition targets_registered (g : Graph) : Prop :=
  ∀ n ns e, neighbours g !! n = Some ns → e ∈ ns →
    is_Some (bestDistances g !! name (to e)).

(** The states that the loop passes through. *)
Definition reaches (st st' : loop_state) : Prop :=
  rtc (λ a b, iteration a = Ret b) st st'.

End Vocabulary.

(** The state of the loop on [island_edges] after its first iteration, with
    the list queue: A is visited, B and C are queued. *)
Definition island_state1 : loop_state (PQ := list_queue) :=
  Eval vm_compute in
    match iteration (init_state vA island_edges) with
    | Ret st => st
    | _ => init_state vA island_edges
    end.

(** What the queries rely on once the loop has ended. *)
Record Final (s : Vertex) (es : list Edge) (g : Graph) : Prop := {
  final_start : startV g = s;
  final_edges : edges g = es;
  final_dom : ∀ v, is_Some (bestDistances g !! v) ↔ v ∈ endpoints es;
  final_dist : ∀ v d, bestDistances g !! v = Some (Num d) ↔ is_shortest es (name s) v d;
  final_reach : ∀ v p, is_path es (name s) p v → fin_le (bestDistances g) v (weight p);
  final_source : prevVertex g !! name s = None;
  final_prev : ∀ v u, prevVertex g !! v = Some u →
    ∃ e bu, e ∈ es ∧ from e = u ∧ name (to e) = v ∧
            bestDistances g !! name u = Some (Num bu) ∧
            bestDistances g !! v = Some (Num (bu + distance e));
  final_tree : ∀ v d, bestDistances g !! name v = Some (Num d) →
    ∃ p, pred_path g v p ∧ weight p = d;
}.

(** The distances of the demo input, as a potential. *)
Definition demo_distance (v : string) : Z :=
  if decide (v = "B") then 1
  else if decide (v = "C") then 2
  else if decide (v = "D") then 7
  else if decide (v = "E") then 10
  else 0.

(** * The classes with double-precision numbers

    The classes [Edge] and [Graph] once more, with the numbers of the
    language: a [number] is a double-precision value of IEEE 754, [+], [-]
    and [<] are the operations of the standard ([SpecFloat] of the Standard
    Library: round to nearest, ties to even, overflow to an infinity, every
    comparison with [NaN] false), and the weight of an [Edge] is any
    [number], also a fraction, an infinity or [NaN]. *)

Module IEEE.

(** ** Numbers *)

Definition number : Type := spec_float.

Definition prec : Z := 53.
Definition emax : Z := 1024.

Global Instance number_eq_dec : EqDecision number.
Proof. solve_decision. Defined.

(** The literals [Infinity] and [0]. *)
Definition Infinity : number := S754_infinity false.
Definition zero : number := S754_zero false.

(** [a + b], [a - b] and [a < b]. *)
Definition add (a b : number) : number := SFadd prec emax a b.
Definition sub (a b : number) : number := SFsub prec emax a b.
Definition lt (a b : number) : bool := SFltb a b.

(** [0 <= x], the test that a queue applies to the result of its
    comparator. *)
Definition ge0 (x : number) : bool := SFleb zero x.

(** The number that an integer literal denotes: the integer, rounded. *)
Definition of_Z (z : Z) : number := binary_normalize prec emax z 0 false.

(** The integer that a number is, when it is one. *)
Definition to_Z (x : number) : option Z :=
  match x with
  | S754_zero _ => Some 0
  | S754_finite s m e =>
      if bool_decide (0 ≤ e) then Some (cond_Zopp s (Z.pos m * 2 ^ e))
      else if bool_decide (Z.pos m mod 2 ^ (- e) = 0)
           then Some (cond_Zopp s (Z.pos m / 2 ^ (- e)))
           else None
  | _ => None
  end.

(** ** Edges, the queue and the class [Graph] *)

(** The class [Edge]: [distance] is a [number] that nothing validates. *)
Record Edge : Type := mkEdge { from : Vertex; to : Vertex; distance : number }.

Global Instance Edge_eq_dec : EqDecision Edge.
Proof. solve_decision. Defined.

(** The operations of [priorityqueuejs]; the comparator returns a
    [number]. *)
Class PriorityQueue (A : Type) : Type := {
  pq : Type;
  pq_new : (A → A → number) → pq;
  pq_enq : A → pq → pq;
  pq_deq : pq → option (A * pq);
  pq_isEmpty : pq → bool;
}.
Arguments pq {A} _.

Record Graph : Type := mkGraph {
  startV : Vertex;
  edges : list Edge;
  bestDistances : gmap string number;
  prevVertex : gmap string Vertex;
  neighbours : gmap string (list Edge);
}.

(** [comparator]: [bestDist2 - bestDist1]. *)
Definition comparator (a b : Vertex * number) : number :=
  let '(v1, bestDist1) := a in
  let '(v2, bestDist2) := b in
  sub bestDist2 bestDist1.

(** [validateInput]. *)
Definition validateInput (startV : Vertex) (edges : list Edge) : outcome unit :=
  if bool_decide (edges = []) then Throw "Edges should not be empty"
  else
    let fromVNames := map (λ e, name (from e)) edges in
    let toVNames := map (λ e, name (to e)) edges in
    if negb (bool_decide (name startV ∈ fromVNames))
       && negb (bool_decide (name startV ∈ toVNames))
    then Throw "Edges should include given start Vertex"
    else Ret tt.

(** The two loops of the constructor. *)
Definition register_edge (acc : gmap string (list Edge) * gset string) (e : Edge)
  : gmap string (list Edge) * gset string :=
  let '(nbs, allVertices) := acc in
  let from_ := name (from e) in
  let nbs' :=
    match nbs !! from_ with
    | Some es => <[from_ := es ++ [e]]> nbs
    | None => <[from_ := [e]]> nbs
    end in
  (nbs', {[name (to e)]} ∪ ({[from_]} ∪ allVertices)).

Definition init_distances (allVertices : gset string) : gmap string number :=
  set_fold (λ vName m, <[vName := Infinity]> m) ∅ allVertices.

Section Algorithm.
Context `{PQ : PriorityQueue (Vertex * number)}.

(** The state of the [while] loop of [dijkstraShortPathAlgo]. *)
Record loop_state : Type := mkState {
  graph : Graph;
  queue : pq PQ;
  visited : gset string;
}.

(** The body of the [for] loop: [altDist] is the rounded sum, and the test
    [altDist < bestDistances.get(...)] fails when either side is [NaN] and
    when both are [Infinity]. *)
Definition relax (vertexToCheck : Vertex) (bestDistSoFar : number) (visited : gset string)
    (acc : Graph * pq PQ) (neighbour : Edge) : outcome (Graph * pq PQ) :=
  let '(g, q) := acc in
  let distVertex := to neighbour in
  if bool_decide (name distVertex ∈ visited) then Ret (g, q)
  else
    let altDist := add bestDistSoFar (distance neighbour) in
    best ← nonnull (bestDistances g !! name distVertex);
    if lt altDist best then
      Ret (mkGraph (startV g) (edges g)
             (<[name distVertex := altDist]> (bestDistances g))
             (<[name distVertex := vertexToCheck]> (prevVertex g))
             (neighbours g),
           pq_enq (distVertex, altDist) q)
    else Ret (g, q).

(** One iteration of the [while] loop, entered with a non-empty queue. *)
Definition iteration (st : loop_state) : outcome loop_state :=
  match pq_deq (queue st) with
  | None => Throw "PriorityQueue is empty"
  | Some ((vertexToCheck, bestDistSoFar), q) =>
      match neighbours (graph st) !! name vertexToCheck with
      | None => Ret (mkState (graph st) q (visited st))
      | Some _ =>
          ns ← nonnull (neighbours (graph st) !! name vertexToCheck);
          '(g, q') ← for_of (relax vertexToCheck bestDistSoFar (visited st)) ns (graph st, q);
          Ret (mkState g q' ({[name vertexToCheck]} ∪ visited st))
      end
  end.

(** [while (!q.isEmpty()) { ... }], unrolled at most [fuel] times. *)
Fixpoint loop (fuel : nat) (st : loop_state) : outcome Graph :=
  if pq_isEmpty (queue st) then Ret (graph st)
  else
    match fuel with
    | O => Diverge
    | S fuel' => st' ← iteration st; loop fuel' st'
    end.

(** [dijkstraShortPathAlgo]. *)
Definition dijkstraShortPathAlgo (fuel : nat) (g : Graph) : outcome Graph :=
  let q := pq_new comparator in
  let visited : gset string := ∅ in
  let q := pq_enq (startV g, zero) q in
  loop fuel (mkState g q visited).

(** The constructor [new Graph(startV, edges)]. *)
Definition new_Graph (fuel : nat) (startV : Vertex) (edges : list Edge) : outcome Graph :=
  _ ← validateInput startV edges;
  let '(nbs, allVertices) := foldl register_edge (∅, ∅) edges in
  let best := init_distances allVertices in
  let best := <[name startV := zero]> best in
  dijkstraShortPathAlgo fuel (mkGraph startV edges best ∅ nbs).

(** The constructor returns [g]. *)
Definition constructs (s : Vertex) (es : list Edge) (g : Graph) : Prop :=
  ∃ fuel, new_Graph fuel s es = Ret g.

End Algorithm.

(** ** Queries *)

(** [shortestPathTo]: [None] is [undefined]. *)
Definition shortestPathTo (g : Graph) (v : Vertex) : option number :=
  bestDistances g !! name v.

Section Queries.

(** The conversion of a number to a string that a template literal applies.
    The queries are stated for every such function. *)
Variable toString : number → string.

Definition render_lookup (o : option number) : string :=
  match o with
  | Some n => toString n
  | None => "undefined"
  end.

(** The [while (prevVertex)] loop of [printPathTo]. *)
Fixpoint print_walk (fuel : nat) (g : Graph) (prevVertex_ : option Vertex) (path : string)
  : outcome string :=
  match prevVertex_ with
  | None => Ret path
  | Some p =>
      match fuel with
      | O => Diverge
      | S fuel' =>
          print_walk fuel' g (prevVertex g !! name p)
            ("Vertex(" +:+ name p +:+ ") -> " +:+ path)
      end
  end.

(** [printPathTo]: [Ret None] is [undefined]. *)
Definition printPathTo (fuel : nat) (g : Graph) (v : Vertex) : outcome (option string) :=
  if bool_decide (name v = name (startV g)) then
    Ret (Some ("Vertex(" +:+ name v +:+ ") is a source"))
  else
    match prevVertex g !! name v with
    | None => Ret None
    | Some p =>
        let path := "Vertex(" +:+ name v +:+ ") - total "
                    +:+ render_lookup (bestDistances g !! name v)
                    +:+ " away from source" in
        s ← print_walk fuel g (Some p) path;
        Ret (Some s)
    end.

(** The text that [printPathTo] builds for the vertex list [l]. *)
Definition render (g : Graph) (v : Vertex) (l : list Vertex) : string :=
  if bool_decide (name v = name (startV g)) then "Vertex(" +:+ name v +:+ ") is a source"
  else render_path (removelast l)
         ("Vertex(" +:+ name v +:+ ") - total "
          +:+ render_lookup (bestDistances g !! name v) +:+ " away from source").

End Queries.

(** [pathTo] of the specification: the vertices that [printPathTo] lists. *)
Fixpoint walk (fuel : nat) (g : Graph) (prevVertex_ : option Vertex) (path : list Vertex)
  : outcome (list Vertex) :=
  match prevVertex_ with
  | None => Ret path
  | Some p =>
      match fuel with
      | O => Diverge
      | S fuel' => walk fuel' g (prevVertex g !! name p) (p :: path)
      end
  end.

Definition pathTo (fuel : nat) (g : Graph) (v : Vertex) : outcome (option (list Vertex)) :=
  if bool_decide (name v = name (startV g)) then Ret (Some [v])
  else
    match prevVertex g !! name v with
    | None => Ret None
    | Some p => l ← walk fuel g (Some p) [v]; Ret (Some l)
    end.

(** ** A reference implementation of the queue *)

Fixpoint extract_top {A} (cmp : A → A → number) (l : list A) : option (A * list A) :=
  match l with
  | [] => None
  | a :: l' =>
      match extract_top cmp l' with
      | None => Some (a, [])
      | Some (b, rest) =>
          if ge0 (cmp a b) then Some (a, l') else Some (b, a :: rest)
      end
  end.

Global Instance list_queue {A : Type} : PriorityQueue A := {|
  pq := (A → A → number) * list A;
  pq_new cmp := (cmp, []);
  pq_enq a q := (q.1, q.2 ++ [a]);
  pq_deq q :=
    match extract_top q.1 q.2 with
    | Some (a, rest) => Some (a, (q.1, rest))
    | None => None
    end;
  pq_isEmpty q := match q.2 with [] => true | _ => false end;
|}.

(** ** The contract of the priority queue

    [deq] removes and returns an entry of the highest priority, provided
    that the results of the comparator order the queued entries:
    [consistent cmp l] says that [cmp] compares every two members of [l], in
    a transitive way.  An entry whose distance is [NaN] is compared with no
    entry, and for a queue that holds one the package promises nothing. *)

Definition consistent {A} (cmp : A → A → number) (l : list A) : Prop :=
  (∀ a b, a ∈ l → b ∈ l → ge0 (cmp a b) = true ∨ ge0 (cmp b a) = true) ∧
  (∀ a b c, a ∈ l → b ∈ l → c ∈ l →
     ge0 (cmp a b) = true → ge0 (cmp b c) = true → ge0 (cmp a c) = true).

Class PriorityQueueLaws {A : Type} (PQ : PriorityQueue A) (cmp : A → A → number) : Type := {
  pq_elems : pq PQ → list A;
  pq_wf : pq PQ → Prop;
  pq_new_wf : pq_wf (pq_new cmp);
  pq_new_elems : pq_elems (pq_new cmp) = [];
  pq_enq_wf : ∀ a q, pq_wf q → consistent cmp (a :: pq_elems q) → pq_wf (pq_enq a q);
  pq_enq_elems : ∀ a q, pq_wf q → pq_elems (pq_enq a q) ≡ₚ a :: pq_elems q;
  pq_isEmpty_spec : ∀ q, pq_wf q → (pq_isEmpty q = true ↔ pq_elems q = []);
  pq_deq_None : ∀ q, pq_wf q → pq_deq q = None → pq_elems q = [];
  pq_deq_Some : ∀ q a q', pq_wf q → consistent cmp (pq_elems q) →
    pq_deq q = Some (a, q') →
    pq_wf q' ∧ pq_elems q ≡ₚ a :: pq_elems q' ∧
    ∀ b, b ∈ pq_elems q → ge0 (cmp a b) = true;
  pq_deq_nonempty : ∀ q, pq_wf q → pq_elems q ≠ [] → is_Some (pq_deq q);
}.

(** [pred_path g v p]: following the predecessor map of [g] from [v] leads,
    along the edges [p] read backwards, to the source, which has no
    predecessor. *)
Inductive pred_path (g : Graph) : Vertex → list Edge → Prop :=
| pred_source :
    prevVertex g !! name (startV g) = None →
    pred_path g (startV g) []
| pred_link v u e p :
    prevVertex g !! name v = Some u →
    e ∈ edges g → from e = u → to e = v →
    pred_path g u p →
    pred_path g v (p ++ [e]).

End IEEE.

(** ** The integers among the numbers *)

(** The number of binary digits of a positive integer. *)
Definition digits (n : Z) : Z := Z.log2 n + 1.

(** [m] shifted left by [k] binary digits. *)
Definition shl (m : positive) (k : Z) : positive :=
  match k with
  | Z.pos d => Pos.iter xO m d
  | _ => m
  end.

(** The number that is the integer [z], for [z] below 2^53 in absolute
    value: its mantissa has 53 binary digits. *)
Definition canon (z : Z) : IEEE.number :=
  match z with
  | 0 => S754_zero false
  | _ => S754_finite (bool_decide (z < 0))
           (Z.to_pos (Z.abs z * 2 ^ (53 - digits (Z.abs z))))
           (digits (Z.abs z) - 53)
  end.

(** ** From integers to numbers

    An edge list with integer weights as the input of [IEEE.new_Graph], and
    the graph of numbers that a graph of integers stands for. *)

Definition of_number (n : number) : IEEE.number :=
  match n with
  | Num z => IEEE.of_Z z
  | Infinity => IEEE.Infinity
  end.

Definition of_edge (e : Edge) : IEEE.Edge :=
  IEEE.mkEdge (from e) (to e) (IEEE.of_Z (distance e)).

Definition of_graph (g : Graph) : IEEE.Graph :=
  IEEE.mkGraph (startV g) (of_edge <$> edges g) (of_number <$> bestDistances g)
    (prevVertex g) (fmap (M := list) of_edge <$> neighbours g).

(** The sum of the absolute values of the weights.  Below 2^52 every sum and
    every difference that the algorithm forms is an integer below 2^53, and
    is computed without rounding. *)
Definition total_weight (es : list Edge) : Z :=
  foldr (λ e acc, Z.abs (distance e) + acc) 0 es.

Definition exact_sums (es : list Edge) : Prop := total_weight es < 2 ^ 52.

(** ** A queue of integer entries in a queue of numbers

    The entries whose distance is below 2^52 are kept, as numbers, in a queue
    of the module [IEEE]; the others are kept in a list.  On an edge list
    with [exact_sums] the list stays empty, and the run of the algorithm on
    integers is, step by step, the run of the algorithm of the module
    [IEEE]. *)

Definition to_entry (a : Vertex * IEEE.number) : Vertex * Z :=
  (a.1, default 0 (IEEE.to_Z a.2)).

Definition exact_entry (a : Vertex * IEEE.number) : Prop :=
  ∃ z, Z.abs z < 2 ^ 52 ∧ a.2 = IEEE.of_Z z.

(** [d] is the weight of a path to [v] that uses no edge twice and leaves
    only vertices of [V]. *)
Definition backed (es : list Edge) (s : Vertex) (V : gset string) (v : string) (d : Z)
  : Prop :=
  ∃ p, is_path es (name s) p v ∧ weight p = d ∧ NoDup p ∧
       ∀ e, e ∈ p → name (from e) ∈ V.

Section ExactQueue.
Context `{PQ64 : IEEE.PriorityQueue (Vertex * IEEE.number)}.

Definition exact_queue : PriorityQueue (Vertex * Z) := {|
  pq := IEEE.pq PQ64 * list (Vertex * Z);
  pq_new cmp := (IEEE.pq_new IEEE.comparator, []);
  pq_enq a q :=
    if bool_decide (Z.abs a.2 < 2 ^ 52)
    then (IEEE.pq_enq (a.1, IEEE.of_Z a.2) q.1, q.2)
    else (q.1, q.2 ++ [a]);
  pq_deq q :=
    match IEEE.pq_deq q.1, extract_top comparator q.2 with
    | Some (a, q1), Some (b, rest) =>
        if bool_decide (0 ≤ comparator (to_entry a) b)
        then Some (to_entry a, (q1, q.2)) else Some (b, (q.1, rest))
    | Some (a, q1), None => Some (to_entry a, (q1, q.2))
    | None, Some (b, rest) => Some (b, (q.1, rest))
    | None, None => None
    end;
  pq_isEmpty q := IEEE.pq_isEmpty q.1 && bool_decide (q.2 = []);
|}.

(** The state of the loop on numbers for a state of the loop on integers. *)
Definition of_state (st : loop_state (PQ := exact_queue)) : IEEE.loop_state :=
  IEEE.mkState (of_graph (graph st)) (queue st).1 (visited st).

(** The entries of such a queue, and its representation invariant. *)
Context {PQL64 : IEEE.PriorityQueueLaws PQ64 IEEE.comparator}.

Definition exact_elems (q : IEEE.pq PQ64 * list (Vertex * Z)) : list (Vertex * Z) :=
  (to_entry <$> IEEE.pq_elems q.1) ++ q.2.

Definition exact_wf (q : IEEE.pq PQ64 * list (Vertex * Z)) : Prop :=
  IEEE.pq_wf q.1 ∧ Forall exact_entry (IEEE.pq_elems q.1).

(** What keeps the list empty: every queued distance is the weight of a
    path that uses no edge twice. *)
Record exact_state (s : Vertex) (es : list Edge) (st : loop_state (PQ := exact_queue))
    : Prop := {
  exact_side : (queue st).2 = [];
  exact_backed : ∀ x d, (x, d) ∈ exact_elems (queue st) →
                   backed es s (visited st) (name x) d;
  exact_best : ∀ v d, bestDistances (graph st) !! v = Some (Num d) →
                 Z.abs d ≤ total_weight es;
}.

(** The same for the graph and the queue inside the [for] loop that handles
    the entry of the vertex [u]. *)
Definition exact_inner (s : Vertex) (es : list Edge) (u : Vertex) (vis : gset string)
    (g : Graph) (q : IEEE.pq PQ64 * list (Vertex * Z)) : Prop :=
  q.2 = [] ∧
  (∀ x dx, (x, dx) ∈ exact_elems q → backed es s ({[name u]} ∪ vis) (name x) dx) ∧
  (∀ v b, bestDistances g !! v = Some (Num b) → Z.abs b ≤ total_weight es).

End ExactQueue.

(** The map [f] over an outcome. *)
Definition outcome_map {A B} (f : A → B) (o : outcome A) : outcome B :=
  match o with
  | Ret a => Ret (f a)
  | Throw msg => Throw msg
  | Undefined_deref => Undefined_deref
  | Diverge => Diverge
  end.

(** ** Inputs on which sums are rounded *)

(** 2^53 + 1 is not a number: the sum is rounded to 2^53. *)
Definition rounding_edges : list Edge := [ mkEdge vA vB (2 ^ 53); mkEdge vB vC 1 ].

(** 2^1023 + 2^1023 exceeds every finite number: the sum is [Infinity]. *)
Definition overflow_edges : list Edge := [ mkEdge vA vB (2 ^ 1023); mkEdge vB vC (2 ^ 1023) ].

(** The graph of numbers constructed from [island_edges]. *)
Definition island_graph64 : IEEE.Graph :=
  Eval vm_compute in
    match IEEE.new_Graph (PQ := IEEE.list_queue) 5 vA (of_edge <$> island_edges) with
    | Ret g => g
    | _ => IEEE.mkGraph vA [] ∅ ∅ ∅
    end.

(** * Properties *)

(** ** The list queue implements the interface *)

Section ExtractTop.
Context {A : Type} (cmp : A → A → Z).
Hypothesis cmp_total : ∀ a b, 0 ≤ cmp a b ∨ 0 ≤ cmp b a.
Hypothesis cmp_trans : ∀ a b c, 0 ≤ cmp a b → 0 ≤ cmp b c → 0 ≤ cmp a c.

Lemma extract_top_None (l : list A) : extract_top cmp l = None → l = [].
Proof.
  destruct l as [|a l]; [done|]. simpl.
  destruct (extract_top cmp l) as [[b rest]|]; [|done].
  by case_bool_decide.
Qed.

Lemma extract_top_Some (l : list A) a r :
  extract_top cmp l = Some (a, r) →
  l ≡ₚ a :: r ∧ ∀ b, b ∈ l → 0 ≤ cmp a b.
Proof.
  assert (Hrefl : ∀ c, 0 ≤ cmp c c) by (intros c; destruct (cmp_total c c); done).
  revert a r. induction l as [|x l IH]; intros a r; [done|]. simpl.
  destruct (extract_top cmp l) as [[b rest]|] eqn:E.
  - destruct (IH _ _ eq_refl) as [Hp Hb].
    case_bool_decide as Hc; intros [= <- <-].
    + split; [done|]. intros c Hin. apply elem_of_cons in Hin as [Heq|Hin].
      * subst c. apply Hrefl.
      * eapply cmp_trans; [exact Hc|]. by apply Hb.
    + split.
      * rewrite Hp. apply Permutation_swap.
      * intros c Hin. apply elem_of_cons in Hin as [Heq|Hin]; [|by apply Hb].
        subst c. destruct (cmp_total b x); [done|lia].
  - apply extract_top_None in E as ->. intros [= <- <-]. split; [done|].
    intros c Hin. apply list_elem_of_singleton in Hin. subst c. apply Hrefl.
Qed.

End ExtractTop.

Lemma comparator_total a b : 0 ≤ comparator a b ∨ 0 ≤ comparator b a.
Proof. destruct a, b; simpl; lia. Qed.

Lemma comparator_trans a b c :
  0 ≤ comparator a b → 0 ≤ comparator b c → 0 ≤ comparator a c.
Proof. destruct a, b, c; simpl; lia. Qed.

#[export, refine] Instance list_queue_laws :
  PriorityQueueLaws (list_queue (A := Vertex * Z)) comparator := {|
  pq_elems q := q.2;
  pq_wf q := q.1 = comparator;
|}.
Proof.
  - done.
  - done.
  - done.
  - intros a q _. simpl. by rewrite Permutation_app_comm.
  - intros [c l] _. simpl. by destruct l.
  - intros [c l] _. simpl. destruct (extract_top c l) as [[a r]|] eqn:E; [done|].
    intros _. by apply extract_top_None in E.
  - intros [c l] a [c' l'] Hc. simpl in *. subst c.
    destruct (extract_top comparator l) as [[a0 r]|] eqn:E; [|done].
    intros [= -> <- ->].
    destruct (extract_top_Some _ comparator_total comparator_trans _ _ _ E).
    done.
  - intros [c l] _ Hq. simpl in *.
    destruct (extract_top c l) as [[a r]|] eqn:E; [done|].
    by apply extract_top_None in E.
Defined.

(** ** Elementary facts *)

Lemma vertex_eq (a b : Vertex) : name a = name b → a = b.
Proof. destruct a, b; simpl; congruence. Qed.

Lemma number_lt_true a b :
  number_lt (Num a) b = true ↔ b = Infinity ∨ ∃ y, b = Num y ∧ a < y.
Proof.
  destruct b as [y|]; simpl.
  - rewrite bool_decide_eq_true. split; [eauto|].
    intros [?|(? & [= ->] & ?)]; done.
  - split; eauto.
Qed.

Lemma number_lt_false a b :
  number_lt (Num a) b = false ↔ ∃ y, b = Num y ∧ y ≤ a.
Proof.
  destruct b as [y|]; simpl.
  - rewrite bool_decide_eq_false. split.
    + intros. exists y. split; [done|lia].
    + intros (? & [= ->] & ?). lia.
  - split; [done|]. by intros (? & ? & ?).
Qed.

Lemma weight_app p1 p2 : weight (p1 ++ p2) = weight p1 + weight p2.
Proof. induction p1 as [|e p1 IH]; simpl; [done|]. unfold weight in *. simpl. lia. Qed.

Lemma weight_cons e p : weight (e :: p) = distance e + weight p.
Proof. done. Qed.

Lemma weight_snoc p e : weight (p ++ [e]) = weight p + distance e.
Proof. rewrite weight_app, weight_cons. change (weight []) with 0. lia. Qed.

Lemma is_path_app es a p1 b p2 c :
  is_path es a p1 b → is_path es b p2 c → is_path es a (p1 ++ p2) c.
Proof.
  revert a. induction p1 as [|e p1 IH]; simpl; intros a.
  - by intros ->.
  - intros (? & ? & ?) ?. split_and!; [done..|]. by apply IH.
Qed.

Lemma is_path_snoc es a p e :
  is_path es a p (name (from e)) → e ∈ es → is_path es a (p ++ [e]) (name (to e)).
Proof. intros Hp He. eapply is_path_app; [exact Hp|]. simpl. done. Qed.

Lemma is_path_endpoint es a p b : is_path es a p b → p ≠ [] → b ∈ endpoints es.
Proof.
  revert a. induction p as [|e p IH]; [done|]. intros a (He & _ & Hp) _.
  destruct p as [|e' p].
  - simpl in Hp. subst b. unfold endpoints. apply elem_of_union_r.
    apply elem_of_list_to_set, list_elem_of_fmap. eauto.
  - by eapply IH.
Qed.

Lemma weight_nonneg es p : nonneg es → (∀ e, e ∈ p → e ∈ es) → 0 ≤ weight p.
Proof.
  intros Hes. induction p as [|e p IH]; intros Hin; [done|].
  rewrite weight_cons.
  assert (0 ≤ distance e).
  { eapply (proj1 (Forall_forall _ _) Hes). apply Hin. left. }
  assert (0 ≤ weight p); [|lia].
  apply IH. intros. apply Hin. by right.
Qed.

Lemma is_path_edges es a p b : is_path es a p b → ∀ e, e ∈ p → e ∈ es.
Proof.
  revert a. induction p as [|e p IH]; intros a Hp e' Hin.
  - by apply elem_of_nil in Hin.
  - destruct Hp as (? & ? & ?). apply elem_of_cons in Hin as [->|Hin]; [done|].
    by eapply IH.
Qed.

Lemma out_edges_spec es n e : e ∈ out_edges es n ↔ name (from e) = n ∧ e ∈ es.
Proof. unfold out_edges. by rewrite list_elem_of_filter. Qed.

Lemma elem_of_endpoints es v :
  v ∈ endpoints es ↔ ∃ e, e ∈ es ∧ (name (from e) = v ∨ name (to e) = v).
Proof.
  unfold endpoints. rewrite elem_of_union, !elem_of_list_to_set, !list_elem_of_fmap.
  naive_solver.
Qed.

(** ** The constructor's tables *)

Lemma register_edges_spec es :
  (∀ n, (foldl register_edge (∅, ∅) es).1 !! n =
        if decide (out_edges es n = []) then None else Some (out_edges es n))
  ∧ (foldl register_edge (∅, ∅) es).2 = endpoints es.
Proof.
  induction es as [|e es [IH1 IH2]] using rev_ind.
  - split; [intros n; simpl; by rewrite lookup_empty|].
    unfold endpoints. simpl. set_solver.
  - rewrite foldl_snoc.
    destruct (foldl register_edge (∅, ∅) es) as [nbs allV] eqn:E. simpl in *.
    split.
    + intros n. unfold out_edges in *. rewrite filter_app.
      pose proof (IH1 (name (from e))) as He.
      destruct (decide (name (from e) = n)) as [<-|Hne].
      * rewrite filter_cons_True by done. rewrite filter_nil.
        destruct (decide (filter _ es = [])) as [Hf|Hf].
        -- rewrite He, Hf. simpl. by rewrite lookup_insert_eq.
        -- rewrite He. rewrite lookup_insert_eq.
           rewrite decide_False; [done|]. by intros [? _]%app_eq_nil.
      * rewrite filter_cons_False by done. rewrite filter_nil, app_nil_r.
        rewrite <- IH1.
        destruct (nbs !! name (from e)); by rewrite lookup_insert_ne.
    + rewrite IH2. unfold endpoints. rewrite !map_app. simpl.
      rewrite !list_to_set_app_L. simpl. set_solver.
Qed.

Lemma init_distances_lookup (X : gset string) v :
  init_distances X !! v = if decide (v ∈ X) then Some Infinity else None.
Proof.
  assert (init_distances X = gset_to_gmap Infinity X) as ->.
  { unfold init_distances.
    apply (set_fold_ind_L (λ m Y, m = gset_to_gmap Infinity Y)).
    - by rewrite gset_to_gmap_empty.
    - intros x Y m _ ->. by rewrite gset_to_gmap_union_singleton. }
  rewrite lookup_gset_to_gmap. unfold guard. by destruct (decide (v ∈ X)).
Qed.

Lemma validateInput_spec s es :
  validateInput s es =
    if decide (es = []) then Throw EmptyGraphError
    else if decide (name s ∈ endpoints es) then Ret tt
    else Throw DisconnectedSourceError.
Proof.
  unfold validateInput. case_bool_decide as He.
  - by rewrite decide_True.
  - rewrite decide_False by done.
    unfold endpoints. do 2 case_bool_decide; simpl.
    + rewrite decide_True; [done|]. apply elem_of_union_l. by apply elem_of_list_to_set.
    + rewrite decide_True; [done|]. apply elem_of_union_l. by apply elem_of_list_to_set.
    + rewrite decide_True; [done|]. apply elem_of_union_r. by apply elem_of_list_to_set.
    + rewrite decide_False; [done|].
      rewrite elem_of_union, !elem_of_list_to_set. tauto.
Qed.

(** ** The loops, step by step *)

Section Invariants.
Context `{PQ : PriorityQueue (Vertex * Z)} {PQL : PriorityQueueLaws PQ comparator}.

Lemma relax_relaxed u d vis g q e :
  (name (to e) ∉ vis → is_Some (bestDistances g !! name (to e))) →
  ∃ r, relax u d vis (g, q) e = Ret r ∧ relaxed u d vis e (g, q) r.
Proof.
  intros Hreg. unfold relax. case_bool_decide as Hv.
  - eexists. split; [done|]. by constructor.
  - destruct (Hreg Hv) as [b Hb]. rewrite Hb. cbn -[number_lt].
    destruct (number_lt (Num (d + distance e)) b) eqn:Hlt.
    + eexists. split; [done|]. by eapply relaxed_improve.
    + eexists. split; [done|].
      apply number_lt_false in Hlt as (y & -> & Hy). by eapply relaxed_keep.
Qed.

(** Induction over the [for] loop: [J done g q] holds when the edges [done]
    have been handled. *)
Lemma for_of_relax (J : list Edge → Graph → pq PQ → Prop) u d vis ns :
  (∀ done e g q, J done g q → e ∈ ns →
     (name (to e) ∉ vis → is_Some (bestDistances g !! name (to e))) ∧
     ∀ g' q', relaxed u d vis e (g, q) (g', q') → J (done ++ [e]) g' q') →
  ∀ g q, J [] g q →
  ∃ g' q', for_of (relax u d vis) ns (g, q) = Ret (g', q') ∧ J ns g' q'.
Proof.
  intros Hstep.
  assert (∀ rest done g q, ns = done ++ rest → J done g q →
    ∃ g' q', for_of (relax u d vis) rest (g, q) = Ret (g', q') ∧ J ns g' q') as H.
  { induction rest as [|e rest IH]; intros done g q Hns HJ.
    - rewrite app_nil_r in Hns. subst done. by exists g, q.
    - assert (e ∈ ns) as Hin.
      { rewrite Hns. apply elem_of_app. right. left. }
      destruct (Hstep done e g q HJ Hin) as [Hreg Hnext].
      destruct (relax_relaxed u d vis g q e Hreg) as ([g1 q1] & Hr & Hrel).
      cbn [for_of]. rewrite Hr. cbn [mbind outcome_bind].
      apply (IH (done ++ [e])); [by rewrite <- app_assoc|by apply Hnext]. }
  intros g q HJ. by apply (H ns []).
Qed.

Lemma fin_le_improve B t b alt v d :
  B !! t = Some b → number_lt (Num alt) b = true →
  fin_le B v d → fin_le (<[t := Num alt]> B) v d.
Proof.
  intros Ht Hlt (b0 & Hv & Hb0). destruct (decide (t = v)) as [->|Hne].
  - exists alt. rewrite lookup_insert_eq. split; [done|].
    apply number_lt_true in Hlt as [->|(y & -> & Hy)]; simplify_eq. lia.
  - exists b0. by rewrite lookup_insert_ne.
Qed.

Lemma relaxed_Inv s es u d vis e g q g' q' :
  Inv s es (mkState g q vis) →
  has_path es s (name u) d → fin_le (bestDistances g) (name u) d →
  e ∈ es → name (from e) = name u →
  relaxed u d vis e (g, q) (g', q') →
  Inv s es (mkState g' q' vis) ∧ fin_le (bestDistances g') (name u) d.
Proof.
  intros HI Hpath Hu He Hfrom Hrel.
  inversion Hrel as [? ? Hv|? ? b Hv Hb Hle|? ? b Hv Hb Hlt]; subst; [done..|].
  destruct HI as [H1 H2 H3 H4 H5 H6 H7 H8 H9 H10]; simpl in *.
  split; [|by eapply fin_le_improve].
  split; simpl; try done.
  - by apply pq_enq_wf.
  - intros v. rewrite <- H5. destruct (decide (name (to e) = v)) as [<-|Hne].
    + rewrite lookup_insert_eq, Hb. split; eauto.
    + by rewrite lookup_insert_ne.
  - intros x dx Hin. rewrite pq_enq_elems in Hin by done.
    apply elem_of_cons in Hin as [[= -> ->]|Hin].
    + split.
      * destruct Hpath as (p & Hp & Hw). exists (p ++ [e]). split.
        -- apply is_path_snoc; [by rewrite Hfrom|done].
        -- rewrite weight_snoc. lia.
      * exists (d + distance e). by rewrite lookup_insert_eq.
    + destruct (H7 _ _ Hin) as [? ?]. split; [done|]. by eapply fin_le_improve.
  - intros v dv. destruct (decide (name (to e) = v)) as [<-|Hne].
    + rewrite lookup_insert_eq. intros [= <-].
      destruct Hpath as (p & Hp & Hw). exists (p ++ [e]). split.
      * apply is_path_snoc; [by rewrite Hfrom|done].
      * rewrite weight_snoc. lia.
    + rewrite lookup_insert_ne by done. apply H8.
  - intros v u'. destruct (decide (name (to e) = v)) as [<-|Hne].
    + rewrite lookup_insert_eq. intros [= <-].
      exists e, d. split_and!; [done|by apply vertex_eq|done| |].
      * by rewrite lookup_insert_eq.
      * by eapply fin_le_improve.
    + rewrite lookup_insert_ne by done. intros Hp.
      destruct (H9 _ _ Hp) as (e0 & d0 & ? & ? & ? & ? & ?).
      exists e0, d0. split_and!; [done..| |].
      * by rewrite lookup_insert_ne.
      * by eapply fin_le_improve.
  - intros v dv. destruct (decide (name (to e) = v)) as [<-|Hne].
    + rewrite !lookup_insert_eq. eauto.
    + rewrite !lookup_insert_ne by done. apply H10.
Qed.

(** *** One iteration of the [while] loop *)

Lemma iteration_step_of s es st st' :
  Inv s es st → iteration st = Ret st' → step_of es st st'.
Proof.
  intros HI. unfold iteration.
  destruct (pq_deq (queue st)) as [[[u d] q0]|] eqn:Hdeq; [|done].
  rewrite (inv_nbs _ _ _ HI). destruct (decide (out_edges es (name u) = [])) as [Hn|Hn].
  - intros [= <-]. by eapply step_leaf.
  - cbn [nonnull mbind outcome_bind].
    destruct (for_of _ _ _) as [[g' q']| | |] eqn:Hfor; try done.
    intros [= <-]. by eapply step_node.
Qed.

Lemma elem_of_sources es v : v ∈ sources es ↔ out_edges es v ≠ [].
Proof.
  unfold sources. rewrite elem_of_list_to_set, list_elem_of_fmap. split.
  - intros (e & -> & He) Hnil.
    assert (e ∈ out_edges es (name (from e))) as Hin by by apply out_edges_spec.
    rewrite Hnil in Hin. by apply elem_of_nil in Hin.
  - destruct (out_edges es v) as [|e l] eqn:E; [done|]. intros _.
    assert (e ∈ out_edges es v) as Hin by (rewrite E; left).
    apply out_edges_spec in Hin as [? ?]. eauto.
Qed.

Lemma Inv_deq s es st u d q0 :
  Inv s es st → pq_deq (queue st) = Some ((u, d), q0) →
  Inv s es (mkState (graph st) q0 (visited st)) ∧
  pq_elems (queue st) ≡ₚ (u, d) :: pq_elems q0 ∧
  (∀ x dx, (x, dx) ∈ pq_elems (queue st) → d ≤ dx).
Proof.
  intros HI Hdeq.
  destruct (pq_deq_Some _ _ _ (inv_wf _ _ _ HI) Hdeq) as (Hwf & Hperm & Hmin).
  split_and!; [|done|].
  - destruct HI as [H1 H2 H3 H4 H5 H6 H7 H8 H9 H10]. split; simpl; try done.
    intros x dx Hin. apply H7. rewrite Hperm. by right.
  - intros x dx Hin. specialize (Hmin _ Hin). simpl in Hmin. lia.
Qed.

(** The inner loop under the general invariant. *)
Lemma for_of_Inv s es u d vis g q0 :
  Inv s es (mkState g q0 vis) →
  has_path es s (name u) d → fin_le (bestDistances g) (name u) d →
  ∃ g' q', for_of (relax u d vis) (out_edges es (name u)) (g, q0) = Ret (g', q') ∧
    Inv s es (mkState g' q' vis) ∧
    filter (in_set vis) (pq_elems q') ≡ₚ filter (in_set vis) (pq_elems q0).
Proof.
  intros HI Hpath Hu.
  destruct (for_of_relax
    (λ _ g q, Inv s es (mkState g q vis) ∧ fin_le (bestDistances g) (name u) d ∧
              filter (in_set vis) (pq_elems q) ≡ₚ filter (in_set vis) (pq_elems q0))
    u d vis (out_edges es (name u))) with (g := g) (q := q0)
    as (g' & q' & Hfor & HI' & _ & Hfil); [|done|by eauto].
  intros done e g1 q1 (HI1 & Hu1 & Hf1) [Hfrom He]%out_edges_spec. split.
  - intros _. apply (inv_dom _ _ _ HI1). apply elem_of_endpoints. eauto.
  - intros g' q' Hrel.
    destruct (relaxed_Inv _ _ _ _ _ _ _ _ _ _ HI1 Hpath Hu1 He Hfrom Hrel) as [? ?].
    split_and!; [done..|].
    inversion Hrel as [| |? ? b Hv Hb Hlt]; subst; [done..|].
    rewrite pq_enq_elems by apply (inv_wf _ _ _ HI1).
    rewrite filter_cons_False; [done|]. unfold in_set. simpl. done.
Qed.

Lemma iteration_Inv s es st :
  Inv s es st → pq_isEmpty (queue st) = false →
  ∃ st', iteration st = Ret st' ∧ Inv s es st' ∧ decreases es st' st.
Proof.
  intros HI Hne.
  assert (pq_elems (queue st) ≠ []) as Hne'.
  { intros Hnil. apply (pq_isEmpty_spec _ (inv_wf _ _ _ HI)) in Hnil. congruence. }
  destruct (pq_deq_nonempty _ (inv_wf _ _ _ HI) Hne') as [[[u d] q0] Hdeq].
  destruct (Inv_deq _ _ _ _ _ _ HI Hdeq) as (HI0 & Hperm & Hmin).
  assert ((u, d) ∈ pq_elems (queue st)) as Hud by (rewrite Hperm; left).
  destruct (inv_queue _ _ _ HI _ _ Hud) as [Hpath Hu].
  unfold iteration. rewrite Hdeq, (inv_nbs _ _ _ HI).
  destruct (decide (out_edges es (name u) = [])) as [Hn|Hn].
  - eexists. split_and!; [done|done|].
    right. split; [done|]. right. unfold measure2, measure3. simpl. rewrite Hperm.
    rewrite filter_cons_False; [simpl; lia|].
    unfold in_set. simpl. intros Hv. by apply (inv_vis _ _ _ HI) in Hv.
  - cbn [nonnull mbind outcome_bind].
    destruct (for_of_Inv _ _ _ _ _ _ _ HI0 Hpath Hu) as (g' & q' & Hfor & HI' & Hfil).
    simpl in Hfor. rewrite Hfor. cbn [mbind outcome_bind].
    eexists. split_and!; [done| |].
    + destruct HI' as [H1 H2 H3 H4 H5 H6 H7 H8 H9 H10]. split; simpl in *; try done.
      intros v [->%elem_of_singleton|Hv]%elem_of_union; [done|by apply H6].
    + unfold decreases, measure1, measure2, measure3. simpl.
      destruct (decide (name u ∈ visited st)) as [Hv|Hv].
      * assert ({[name u]} ∪ visited st = visited st) as -> by set_solver.
        right. split; [done|]. left. rewrite Hfil, Hperm.
        rewrite filter_cons_True by done. simpl. lia.
      * left. apply subset_size. apply elem_of_sources in Hn. set_solver.
Qed.

(** *** The [while] loop *)

Lemma loop_fuel_mono fuel fuel' st g :
  loop fuel st = Ret g → (fuel ≤ fuel')%nat → loop fuel' st = Ret g.
Proof.
  revert fuel' st. induction fuel as [|fuel IH]; intros fuel' st; simpl.
  - destruct (pq_isEmpty (queue st)) eqn:E; [|done].
    intros ? _. destruct fuel'; simpl; by rewrite E.
  - destruct (pq_isEmpty (queue st)) eqn:E.
    + intros ? _. destruct fuel'; simpl; by rewrite E.
    + destruct fuel' as [|fuel']; [lia|]. simpl. rewrite E.
      destruct (iteration st) as [st'| | |]; try done. cbn [mbind outcome_bind].
      intros ? ?. apply IH; [done|lia].
Qed.

(** A property preserved by every iteration holds when the loop ends, and
    the loop fails in no other way than by using up its budget. *)
Lemma loop_invariant (I : loop_state → Prop) :
  (∀ st, I st → pq_isEmpty (queue st) = false → ∃ st', iteration st = Ret st' ∧ I st') →
  ∀ fuel st, I st →
    loop fuel st = Diverge ∨
    ∃ st', loop fuel st = Ret (graph st') ∧ I st' ∧ pq_isEmpty (queue st') = true.
Proof.
  intros Hstep. induction fuel as [|fuel IH]; intros st HI; simpl.
  - destruct (pq_isEmpty (queue st)) eqn:E; [|by left]. right. by exists st.
  - destruct (pq_isEmpty (queue st)) eqn:E; [right; by exists st|].
    destruct (Hstep st HI E) as (st' & -> & HI'). cbn [mbind outcome_bind].
    by apply IH.
Qed.

Lemma loop_terminates s es st :
  Inv s es st → ∃ fuel g, loop fuel st = Ret g.
Proof.
  assert (∀ a b c st0, Inv s es st0 →
    measure1 es st0 = a → measure2 st0 = b → measure3 st0 = c →
    ∃ fuel g, loop fuel st0 = Ret g) as H.
  { clear st. induction a as [a IHa] using lt_wf_ind.
    induction b as [b IHb] using lt_wf_ind.
    induction c as [c IHc] using lt_wf_ind.
    intros st HI Ha Hb Hc.
    destruct (pq_isEmpty (queue st)) eqn:E.
    - exists O, (graph st). simpl. by rewrite E.
    - destruct (iteration_Inv _ _ _ HI E) as (st' & Hit & HI' & Hdec).
      assert (∃ fuel g, loop fuel st' = Ret g) as (fuel & g & Hl).
      { destruct Hdec as [H1|[H1 [H2|[H2 H3]]]].
        - eapply IHa; [|done..]. lia.
        - eapply IHb; [|done| |done..]; lia.
        - eapply IHc; [|done| | |done]; lia. }
      exists (S fuel), g. simpl. rewrite E, Hit. done. }
  intros HI. by eapply H.
Qed.

(** *** The constructor *)

Lemma new_Graph_unfold fuel s es :
  new_Graph fuel s es =
    if decide (es = []) then Throw EmptyGraphError
    else if decide (name s ∈ endpoints es) then loop fuel (init_state s es)
    else Throw DisconnectedSourceError.
Proof.
  unfold new_Graph. rewrite validateInput_spec.
  destruct (decide (es = [])); [done|].
  destruct (decide (name s ∈ endpoints es)); [|done].
  cbn [mbind outcome_bind]. unfold init_state, init_graph, dijkstraShortPathAlgo.
  by destruct (foldl register_edge (∅, ∅) es).
Qed.

Lemma init_graph_fields s es :
  startV (init_graph s es) = s ∧ edges (init_graph s es) = es ∧
  prevVertex (init_graph s es) = ∅ ∧
  (∀ n, neighbours (init_graph s es) !! n =
        if decide (out_edges es n = []) then None else Some (out_edges es n)) ∧
  (∀ v, bestDistances (init_graph s es) !! v =
        if decide (v = name s) then Some (Num 0)
        else if decide (v ∈ endpoints es) then Some Infinity else None).
Proof.
  unfold init_graph. destruct (register_edges_spec es) as [H1 H2].
  destruct (foldl register_edge (∅, ∅) es) as [nbs allV]. simpl in *. subst allV.
  split_and!; try done. intros v. destruct (decide (v = name s)) as [->|Hne].
  - by rewrite lookup_insert_eq.
  - rewrite lookup_insert_ne by done. apply init_distances_lookup.
Qed.

Lemma init_queue_elems (s : Vertex) :
  pq_wf (pq_enq (s, 0) (pq_new comparator)) ∧
  pq_elems (pq_enq (s, 0) (pq_new comparator)) = [(s, 0)].
Proof.
  split; [apply pq_enq_wf, pq_new_wf|].
  pose proof (pq_enq_elems (s, 0) (pq_new comparator) pq_new_wf) as Hp.
  rewrite pq_new_elems in Hp. symmetry in Hp. by apply Permutation_singleton_l in Hp.
Qed.

Lemma init_Inv s es : name s ∈ endpoints es → Inv s es (init_state s es).
Proof.
  intros Hs. destruct (init_graph_fields s es) as (H1 & H2 & H3 & H4 & H5).
  destruct (init_queue_elems s) as [Hwf Hel].
  split; unfold init_state; simpl; try done.
  - intros v. rewrite H5. destruct (decide (v = name s)) as [->|?].
    + split; eauto.
    + destruct (decide (v ∈ endpoints es)); split; try done; eauto.
  - intros x d. rewrite Hel. intros [= -> ->]%list_elem_of_singleton. split.
    + by exists [].
    + exists 0. by rewrite H5, decide_True.
  - intros v d. rewrite H5. destruct (decide (v = name s)) as [->|?].
    + intros [= <-]. by exists [].
    + by destruct (decide (v ∈ endpoints es)).
  - intros v u. by rewrite H3, lookup_empty.
  - intros v d. rewrite H5. destruct (decide (v = name s)) as [->|?]; [by left|].
    by destruct (decide (v ∈ endpoints es)).
Qed.

(** Construction succeeds on every non-empty edge list that mentions the
    source, whatever the weights are. *)
Lemma new_Graph_total s es :
  es ≠ [] → name s ∈ endpoints es →
  ∃ fuel g, ∀ fuel', (fuel ≤ fuel')%nat → new_Graph fuel' s es = Ret g.
Proof.
  intros Hes Hs. destruct (loop_terminates _ _ _ (init_Inv s es Hs)) as (fuel & g & Hl).
  exists fuel, g. intros fuel' Hle. rewrite new_Graph_unfold.
  rewrite decide_False, decide_True by done. by eapply loop_fuel_mono.
Qed.

(** What holds of every constructed graph, whatever the weights are. *)
Lemma constructs_Inv s es g :
  constructs s es g →
  es ≠ [] ∧ name s ∈ endpoints es ∧
  ∃ st, graph st = g ∧ Inv s es st ∧ pq_elems (queue st) = [].
Proof.
  intros [fuel Hc]. rewrite new_Graph_unfold in Hc.
  destruct (decide (es = [])); [done|].
  destruct (decide (name s ∈ endpoints es)) as [Hs|]; [|done].
  split_and!; [done..|].
  destruct (loop_invariant (Inv s es)) with (fuel := fuel) (st := init_state s es)
    as [Hd|(st' & Hl & HI & He)].
  - intros st HI Hne. destruct (iteration_Inv _ _ _ HI Hne) as (st' & ? & ? & _). eauto.
  - by apply init_Inv.
  - congruence.
  - exists st'. split_and!; [congruence|done|].
    by apply (pq_isEmpty_spec _ (inv_wf _ _ _ HI)).
Qed.

Lemma constructs_deterministic s es g1 g2 :
  constructs s es g1 → constructs s es g2 → g1 = g2.
Proof.
  intros [f1 H1] [f2 H2]. rewrite new_Graph_unfold in H1, H2.
  destruct (decide (es = [])); [done|].
  destruct (decide (name s ∈ endpoints es)); [|done].
  eapply loop_fuel_mono with (fuel' := (f1 `max` f2)%nat) in H1; [|lia].
  eapply loop_fuel_mono with (fuel' := (f1 `max` f2)%nat) in H2; [|lia].
  congruence.
Qed.

End Invariants.

(** ** The invariant that rests on non-negative weights *)

Section NonNegative.
Context `{PQ : PriorityQueue (Vertex * Z)} {PQL : PriorityQueueLaws PQ comparator}.

Lemma settled_improve es B t b alt v d :
  B !! t = Some b → number_lt (Num alt) b = true →
  settled es B v d → settled es (<[t := Num alt]> B) v d.
Proof. intros Ht Hlt Hs e He Hf. eapply fin_le_improve; [done..|]. by apply Hs. Qed.

Lemma fin_le_weaken B v d d' : fin_le B v d → d ≤ d' → fin_le B v d'.
Proof. intros (b & ? & ?) ?. exists b. split; [done|lia]. Qed.

Section Inner.
Variables (s : Vertex) (es : list Edge) (u : Vertex) (d m : Z) (vis : gset string)
  (rk : string → nat) (g0 : Graph) (q0 : pq PQ).
Hypothesis Hnn : nonneg es.
Hypothesis Hm : 0 ≤ m ∧ m ≤ d.
Hypothesis Hpath : has_path es s (name u) d.

Lemma weight_of_edge e : e ∈ es → 0 ≤ distance e.
Proof. intros He. by apply (proj1 (Forall_forall _ _) Hnn). Qed.

Lemma relaxed_JN done e g q g' q' :
  JN s es u d m vis rk g0 q0 done g q → e ∈ out_edges es (name u) →
  relaxed u d vis e (g, q) (g', q') → JN s es u d m vis rk g0 q0 (done ++ [e]) g' q'.
Proof.
  intros HJ [Hfrom He]%out_edges_spec Hrel.
  pose proof (weight_of_edge e He) as Hw.
  destruct HJ as [J1 J2 J3 J4 J5 J6 J7 J8 J9 J10 J11].
  destruct (relaxed_Inv _ _ _ _ _ _ _ _ _ _ J1 Hpath J2 He Hfrom Hrel) as [HI' Hu'].
  inversion Hrel as [? ? Hv|? ? b Hv Hb Hle|? ? b Hv Hb Hlt]; subst.
  - split; try done.
    + intros e' [Hin|Hin%list_elem_of_singleton]%elem_of_app; [by apply J7|].
      subst e'. eapply fin_le_weaken; [by apply J5|lia].
    + rewrite length_app. simpl. lia.
  - split; try done.
    + intros e' [Hin|Hin%list_elem_of_singleton]%elem_of_app; [by apply J7|].
      subst e'. by exists b.
    + rewrite length_app. simpl. lia.
  - assert (d + distance e < 0 → False) as Hpos by lia.
    assert (name (to e) ≠ name s) as Hns.
    { intros Heq. rewrite Heq, (proj1 J3) in Hb. simplify_eq. simpl in Hlt.
      apply bool_decide_eq_true in Hlt. lia. }
    assert (name (to e) ≠ name u) as Hnu.
    { intros Heq. destruct J2 as (bu & Hbu & Hle). rewrite Heq, Hbu in Hb.
      simplify_eq. simpl in Hlt. apply bool_decide_eq_true in Hlt. lia. }
    split; simpl; try done.
    + by rewrite !lookup_insert_ne.
    + intros x dx. rewrite pq_enq_elems by apply (inv_wf _ _ _ J1).
      intros [[= -> ->]|Hin]%elem_of_cons; [lia|by eapply J4].
    + intros v Hin. eapply fin_le_improve; [done..|]. by apply J5.
    + intros v dv. destruct (decide (name (to e) = v)) as [<-|Hne].
      * rewrite lookup_insert_eq. intros [= <-]. left. exists (to e). split; [done|].
        rewrite pq_enq_elems by apply (inv_wf _ _ _ J1). left.
      * rewrite lookup_insert_ne by done. intros Hbv.
        destruct (J6 _ _ Hbv) as [(x & Hx & Hin)|[Hs|Hs]].
        -- left. exists x. split; [done|].
           rewrite pq_enq_elems by apply (inv_wf _ _ _ J1). by right.
        -- right. left. by eapply settled_improve.
        -- by right; right.
    + intros e' [Hin|Hin%list_elem_of_singleton]%elem_of_app.
      * eapply fin_le_improve; [done..|]. by apply J7.
      * subst e'. exists (d + distance e). by rewrite lookup_insert_eq.
    + intros v dv Hin. rewrite lookup_insert_ne by (intros <-; done).
      intros Hbv. eapply settled_improve; [done..|]. by eapply J8.
    + intros v u'. destruct (decide (name (to e) = v)) as [<-|Hne].
      * rewrite lookup_insert_eq. intros [= <-]. by right.
      * rewrite lookup_insert_ne by done. apply J9.
    + intros Hin. exfalso. destruct J2 as (bu & Hbu & Hle).
      destruct (J8 _ _ Hin Hbu e He Hfrom) as (bt & Hbt & Hle').
      rewrite Hbt in Hb. simplify_eq. simpl in Hlt.
      apply bool_decide_eq_true in Hlt. lia.
    + rewrite pq_enq_elems by apply (inv_wf _ _ _ J1). rewrite length_app. simpl. lia.
Qed.

End Inner.

Lemma unvisited_edges_split (es : list Edge) (v : string) (vis : gset string) :
  v ∉ vis →
  length (filter (λ e, name (from e) ∉ vis) es) =
  (length (out_edges es v) + length (filter (λ e, name (from e) ∉ {[v]} ∪ vis) es))%nat.
Proof.
  intros Hv. unfold out_edges. induction es as [|e es IH]; [done|].
  rewrite !filter_cons. destruct (decide (name (from e) = v)) as [Heq|Hne].
  - rewrite decide_True by (by rewrite Heq).
    rewrite (decide_False (P := name (from e) ∉ {[v]} ∪ vis)) by set_solver.
    simpl. lia.
  - destruct (decide (name (from e) ∉ vis)).
    + rewrite (decide_True (P := name (from e) ∉ {[v]} ∪ vis)) by set_solver.
      simpl. lia.
    + rewrite (decide_False (P := name (from e) ∉ {[v]} ∪ vis)) by set_solver.
      simpl. lia.
Qed.

Lemma iteration_InvN s es m rk n st st' :
  nonneg es → Inv s es st → InvN s es m rk n st → iteration st = Ret st' →
  (∃ m' rk' n', InvN s es m' rk' n' st') ∧ (potential es st' < potential es st)%nat.
Proof.
  intros Hnn HI HN Hit.
  destruct (iteration_step_of _ _ _ _ HI Hit)
    as [u d q0 Hdeq Hleaf ->|u d q0 g' q' Hdeq Hnode Hfor ->].
  - (* no outgoing edge *)
    destruct (Inv_deq _ _ _ _ _ _ HI Hdeq) as (HI0 & Hperm & Hmin).
    assert ((u, d) ∈ pq_elems (queue st)) as Hud by (rewrite Hperm; left).
    pose proof (invn_queue _ _ _ _ _ _ HN _ _ Hud) as Hmd.
    destruct HN as [N1 N2 N3 N4 N5 N6 N7 N8]. split.
    + exists d, rk, n. split; simpl; try done.
      * lia.
      * intros x dx Hin. eapply Hmin. rewrite Hperm. by right.
      * intros v Hv. eapply fin_le_weaken; [by apply N4|done].
      * intros v dv Hb. destruct (N5 _ _ Hb) as [(x & Hx & Hin)|Hs]; [|by right].
        rewrite Hperm in Hin. apply elem_of_cons in Hin as [[= -> ->]|Hin].
        -- right. intros e He Hf.
           assert (e ∈ out_edges es (name u)) as Hin
             by (apply out_edges_spec; split; [congruence|done]).
           rewrite Hleaf in Hin. by apply elem_of_nil in Hin.
        -- left. eauto.
    + unfold potential. simpl. rewrite Hperm. simpl. lia.
  - (* outgoing edges *)
    destruct (Inv_deq _ _ _ _ _ _ HI Hdeq) as (HI0 & Hperm & Hmin).
    assert ((u, d) ∈ pq_elems (queue st)) as Hud by (rewrite Hperm; left).
    pose proof (invn_queue _ _ _ _ _ _ HN _ _ Hud) as Hmd.
    destruct (inv_queue _ _ _ HI _ _ Hud) as [Hpath Hu].
    pose proof (invn_m _ _ _ _ _ _ HN) as Hm0.
    assert (0 ≤ m ∧ m ≤ d) as Hm by lia.
    destruct (for_of_relax (JN s es u d m (visited st) rk (graph st) q0)
                 u d (visited st) (out_edges es (name u)))
      with (g := graph st) (q := q0) as (g1 & q1 & Hfor1 & HJ).
    { intros done e g q HJ Hin. split.
      - intros _. apply (inv_dom _ _ _ (jn_inv _ _ _ _ _ _ _ _ _ _ _ _ HJ)).
        apply out_edges_spec in Hin as [? ?]. apply elem_of_endpoints. eauto.
      - intros g1 q1 Hrel. by eapply relaxed_JN. }
    { destruct HN as [N1 N2 N3 N4 N5 N6 N7 N8]. split; simpl; try done.
      - intros x dx Hin. eapply Hmin. rewrite Hperm. by right.
      - intros v dv Hb. destruct (N5 _ _ Hb) as [(x & Hx & Hin)|Hs]; [|by right; left].
        rewrite Hperm in Hin. apply elem_of_cons in Hin as [[= -> ->]|Hin].
        + by right; right.
        + left. eauto.
      - intros e Hin. by apply elem_of_nil in Hin.
      - intros v u' Hp. left. by apply N7.
      - lia. }
    rewrite Hfor in Hfor1. injection Hfor1 as <- <-.
    destruct HJ as [J1 J2 J3 J4 J5 J6 J7 J8 J9 J10 J11].
    assert (settled es (bestDistances g') (name u) d) as Hsettled.
    { intros e He Hf. apply J7. by apply out_edges_spec. }
    destruct (decide (name u ∈ visited st)) as [Hv|Hv].
    + (* an entry of a vertex visited before *)
      assert ({[name u]} ∪ visited st = visited st) as -> by set_solver.
      destruct (J10 Hv) as [-> ->]. split.
      * destruct HN as [N1 N2 N3 N4 N5 N6 N7 N8].
        exists d, rk, n. split; simpl; try done.
        -- lia.
        -- intros v Hin. eapply fin_le_weaken; [by apply N4|done].
        -- intros v dv Hb. destruct (J6 _ _ Hb) as [?|[?|[-> ->]]]; auto.
      * unfold potential. simpl. rewrite Hperm. simpl. lia.
    + (* the vertex is visited now *)
      split.
      * destruct HN as [N1 N2 N3 N4 N5 N6 N7 N8].
        exists d, (λ x, if decide (x = name u) then n else rk x), (S n).
        split; simpl; try done.
        -- lia.
        -- intros v [->%elem_of_singleton|Hin]%elem_of_union; [done|].
           eapply fin_le_weaken; [by apply J5|done].
        -- intros v dv Hb. destruct (J6 _ _ Hb) as [?|[?|[-> ->]]]; auto.
        -- intros v dv [->%elem_of_singleton|Hin]%elem_of_union Hb; [|by eapply J8].
           destruct J2 as (bu & Hbu & Hle). rewrite Hbu in Hb. injection Hb as <-.
           destruct (J6 _ _ Hbu) as [(x & Hx & Hin)|[?|[_ ->]]]; [|done..].
           specialize (J4 _ _ Hin). by replace bu with d by lia.
        -- intros v u' Hp. destruct (J9 _ _ Hp) as [[Hu' Hlt]|(-> & Hnv & Hne)].
           ++ split; [set_solver|].
              assert (name u' ≠ name u) as Hne by (by intros Heq; rewrite Heq in Hu').
              rewrite (decide_False (P := name u' = name u)) by done.
              intros [->%elem_of_singleton|Hin]%elem_of_union.
              ** rewrite decide_True by done. by apply N8.
              ** rewrite decide_False by (by intros ->). by apply Hlt.
           ++ split; [set_solver|]. intros Hin. exfalso. set_solver.
        -- intros v [->%elem_of_singleton|Hin]%elem_of_union.
           ++ rewrite decide_True by done. lia.
           ++ rewrite decide_False by (by intros ->). specialize (N8 _ Hin). lia.
      * unfold potential. simpl. rewrite Hperm.
        rewrite (unvisited_edges_split es (name u) (visited st)) by done.
        simpl. lia.
Qed.

Lemma init_InvN s es : InvN s es 0 (λ _, O) O (init_state s es).
Proof.
  destruct (init_graph_fields s es) as (H1 & H2 & H3 & H4 & H5).
  destruct (init_queue_elems s) as [Hwf Hel].
  split; unfold init_state; simpl; try done.
  - split; [by rewrite H5, decide_True|by rewrite H3].
  - intros x d. rewrite Hel. by intros [= -> ->]%list_elem_of_singleton.
  - intros v d. rewrite H5. destruct (decide (v = name s)) as [->|?].
    + intros [= <-]. left. exists s. split; [done|]. rewrite Hel. left.
    + by destruct (decide (v ∈ endpoints es)).
  - intros v u. by rewrite H3, lookup_empty.
Qed.

Lemma iteration_InvNN s es st :
  nonneg es → InvNN s es st → pq_isEmpty (queue st) = false →
  ∃ st', iteration st = Ret st' ∧ InvNN s es st' ∧
         (potential es st' < potential es st)%nat.
Proof.
  intros Hnn [HI (m & rk & n & HN)] Hne.
  destruct (iteration_Inv _ _ _ HI Hne) as (st' & Hit & HI' & _).
  destruct (iteration_InvN _ _ _ _ _ _ _ Hnn HI HN Hit) as [HN' Hpot].
  exists st'. by split_and!.
Qed.

(** With non-negative weights the loop ends within [potential] iterations. *)
Lemma loop_bound s es fuel st :
  nonneg es → InvNN s es st → (potential es st ≤ fuel)%nat →
  ∃ g, loop fuel st = Ret g.
Proof.
  intros Hnn. revert st. induction fuel as [|fuel IH]; intros st HI Hpot; simpl.
  - destruct (pq_isEmpty (queue st)) eqn:E; [eauto|].
    destruct (iteration_InvNN _ _ _ Hnn HI E) as (? & _ & _ & ?). lia.
  - destruct (pq_isEmpty (queue st)) eqn:E; [eauto|].
    destruct (iteration_InvNN _ _ _ Hnn HI E) as (st' & -> & HI' & Hlt).
    cbn [mbind outcome_bind]. apply IH; [done|lia].
Qed.

Lemma init_potential s es : potential es (init_state s es) = S (length es).
Proof.
  unfold potential, init_state. simpl.
  rewrite (proj2 (init_queue_elems s)). simpl. f_equal.
  induction es as [|e es IH]; [done|].
  rewrite filter_cons_True by set_solver. simpl. by rewrite IH.
Qed.

Lemma new_Graph_bound s es :
  es ≠ [] → nonneg es → name s ∈ endpoints es →
  ∃ g, new_Graph (S (length es)) s es = Ret g.
Proof.
  intros Hes Hnn Hs. rewrite new_Graph_unfold.
  rewrite decide_False, decide_True by done.
  eapply loop_bound; [done| |by rewrite init_potential].
  split; [by apply init_Inv|]. eexists _, _, _. apply init_InvN.
Qed.

Lemma constructs_InvNN s es g :
  nonneg es → constructs s es g →
  ∃ st, graph st = g ∧ InvNN s es st ∧ pq_elems (queue st) = [].
Proof.
  intros Hnn [fuel Hc]. rewrite new_Graph_unfold in Hc.
  destruct (decide (es = [])); [done|].
  destruct (decide (name s ∈ endpoints es)) as [Hs|]; [|done].
  destruct (loop_invariant (InvNN s es)) with (fuel := fuel) (st := init_state s es)
    as [Hd|(st' & Hl & HI & He)].
  - intros st HI Hne. destruct (iteration_InvNN _ _ _ Hnn HI Hne) as (st' & ? & ? & _).
    eauto.
  - split; [by apply init_Inv|]. eexists _, _, _. apply init_InvN.
  - congruence.
  - exists st'. split_and!; [congruence|done|].
    by apply (pq_isEmpty_spec _ (inv_wf _ _ _ (proj1 HI))).
Qed.

End NonNegative.

(** ** The constructed graph *)

Section FinalState.
Context `{PQ : PriorityQueue (Vertex * Z)} {PQL : PriorityQueueLaws PQ comparator}.

(** No edge is tense: distances bound the weight of every path. *)
Lemma settled_lower_bound es (B : gmap string number) p a b da :
  (∀ v d, B !! v = Some (Num d) → settled es B v d) →
  is_path es a p b → B !! a = Some (Num da) → fin_le B b (da + weight p).
Proof.
  intros Hs. revert a da. induction p as [|e p IH]; intros a da.
  - simpl. intros <- Ha. exists da. split; [done|]. unfold weight. simpl. lia.
  - intros (He & Hf & Hp) Ha.
    destruct (Hs _ _ Ha e He Hf) as (bt & Hbt & Hle).
    destruct (IH _ _ Hp Hbt) as (bb & Hbb & Hle').
    exists bb. split; [done|]. rewrite weight_cons. lia.
Qed.

Lemma InvNN_Final s es st :
  InvNN s es st → pq_elems (queue st) = [] → Final s es (graph st).
Proof.
  intros [HI (m & rk & n & HN)] Hempty.
  destruct HI as [H1 H2 H3 H4 H5 H6 H7 H8 H9 H10].
  destruct HN as [N1 N2 N3 N4 N5 N6 N7 N8].
  set (B := bestDistances (graph st)) in *.
  set (P := prevVertex (graph st)) in *.
  assert (∀ v d, B !! v = Some (Num d) → settled es B v d) as Hsettled.
  { intros v d Hb. destruct (N5 _ _ Hb) as [(x & _ & Hin)|?]; [|done].
    rewrite Hempty in Hin. by apply elem_of_nil in Hin. }
  assert (∀ v u, P !! v = Some u →
    ∃ e bu, e ∈ es ∧ from e = u ∧ name (to e) = v ∧
            B !! name u = Some (Num bu) ∧ B !! v = Some (Num (bu + distance e))) as Hprev.
  { intros v u Hp. destruct (H9 _ _ Hp) as (e & d0 & He & Hf & Ht & Hbv & bu & Hbu & Hle).
    exists e, bu. split_and!; [done..|].
    destruct (Hsettled _ _ Hbu e He) as (bv & Hbv' & Hle'); [by rewrite Hf|].
    rewrite Ht, Hbv in Hbv'. injection Hbv' as <-. rewrite Hbv. do 2 f_equal. lia. }
  assert (∀ k u, (rk (name u) < k)%nat → name u ∈ visited st →
    ∃ p, pred_path (graph st) u p ∧ B !! name u = Some (Num (weight p))) as Hrank.
  { induction k as [|k IH]; intros u Hk Hv; [lia|].
    destruct (P !! name u) as [u'|] eqn:Hp.
    - destruct (N7 _ _ Hp) as [Hv' Hlt]. specialize (Hlt Hv).
      destruct (IH u') as (p & Hpp & Hw); [lia|done|].
      destruct (Hprev _ _ Hp) as (e & bu & He & Hf & Ht & Hbu & Hbv).
      exists (p ++ [e]). split.
      + eapply pred_link; [done|by rewrite H2|done|by apply vertex_eq|done].
      + rewrite Hbv. rewrite Hw in Hbu. injection Hbu as <-.
        by rewrite weight_snoc.
    - destruct (N4 _ Hv) as (bu & Hbu & _).
      destruct (H10 _ _ Hbu) as [Hs|[? ?]]; [|congruence].
      apply vertex_eq in Hs. subst u. exists []. split.
      + rewrite <- H1. constructor. by rewrite H1.
      + by rewrite (proj1 N1). }
  subst B P. split; try done.
  - intros v d. split.
    + intros Hb. split; [by apply H8|]. intros p Hp.
      destruct (settled_lower_bound es _ p _ _ 0 Hsettled Hp (proj1 N1))
        as (b & Hb' & Hle).
      rewrite Hb in Hb'. injection Hb' as <-. lia.
    + intros [(p & Hp & Hw) Hmin].
      destruct (settled_lower_bound es _ p _ _ 0 Hsettled Hp (proj1 N1))
        as (b & Hb & Hle).
      destruct (H8 _ _ Hb) as (p' & Hp' & Hw'). specialize (Hmin _ Hp').
      rewrite Hb. do 2 f_equal. lia.
  - intros v p Hp.
    destruct (settled_lower_bound es _ p _ _ 0 Hsettled Hp (proj1 N1)) as (b & Hb & Hle).
    exists b. split; [done|lia].
  - apply N1.
  - intros v d Hb. destruct (prevVertex (graph st) !! name v) as [u|] eqn:Hp.
    + destruct (N7 _ _ Hp) as [Hv' _].
      destruct (Hrank (S (rk (name u))) u) as (p & Hpp & Hw); [lia|done|].
      destruct (Hprev _ _ Hp) as (e & bu & He & Hf & Ht & Hbu & Hbv).
      exists (p ++ [e]). split.
      * eapply pred_link; [done|by rewrite H2|done|by apply vertex_eq|done].
      * rewrite Hw in Hbu. injection Hbu as <-. rewrite Hb in Hbv.
        injection Hbv as ->. by rewrite weight_snoc.
    + destruct (H10 _ _ Hb) as [Hs|[? ?]]; [|congruence].
      apply vertex_eq in Hs. subst v. rewrite (proj1 N1) in Hb. injection Hb as <-.
      exists []. split; [|done]. rewrite <- H1. constructor. by rewrite H1.
Qed.

Lemma constructs_Final s es g :
  nonneg es → constructs s es g → Final s es g.
Proof.
  intros Hnn Hc. destruct (constructs_InvNN _ _ _ Hnn Hc) as (st & <- & HI & He).
  by apply InvNN_Final.
Qed.

End FinalState.

(** ** The queries *)

Lemma pred_path_is_path g v p :
  pred_path g v p → is_path (edges g) (name (startV g)) p (name v).
Proof.
  induction 1 as [|v u e p Hp He Hf Ht _ IH]; [done|].
  rewrite <- Ht. apply is_path_snoc; [by rewrite Hf|done].
Qed.

Lemma vertices_of_snoc s p e : vertices_of s (p ++ [e]) = vertices_of s p ++ [to e].
Proof. unfold vertices_of. by rewrite map_app. Qed.

Lemma pred_path_last g v p : pred_path g v p → last (vertices_of (startV g) p) = Some v.
Proof.
  induction 1 as [|v u e p Hp He Hf Ht _ _]; [done|].
  rewrite vertices_of_snoc, last_snoc. by rewrite Ht.
Qed.

Lemma walk_pred_path g u p :
  pred_path g u p →
  ∀ fuel acc, (length p < fuel)%nat →
    walk fuel g (Some u) acc = Ret (vertices_of (startV g) p ++ acc).
Proof.
  induction 1 as [Hs|v u e p Hp He Hf Ht _ IH]; intros fuel acc Hfuel.
  - destruct fuel as [|fuel]; [simpl in Hfuel; lia|]. simpl. rewrite Hs.
    by destruct fuel.
  - rewrite length_app in Hfuel. simpl in Hfuel.
    destruct fuel as [|fuel]; [lia|]. cbn [walk]. rewrite Hp.
    rewrite IH by lia. rewrite vertices_of_snoc, Ht. by rewrite <- app_assoc.
Qed.

Lemma is_path_consecutive es (s : Vertex) p b :
  is_path es (name s) p b → consecutive es (vertices_of s p).
Proof.
  revert s. induction p as [|e p IH]; intros s Hp i x y Hx Hy.
  - destruct i; done.
  - destruct Hp as (He & Hf & Hp). destruct i as [|i].
    + simpl in Hx, Hy. simplify_eq. exists e. split_and!; [done| |done].
      by apply vertex_eq.
    + eapply (IH (to e) Hp i); [exact Hx|exact Hy].
Qed.

Lemma pathTo_source fuel g v :
  name v = name (startV g) → pathTo fuel g v = Ret (Some [v]).
Proof. intros Hv. unfold pathTo. by rewrite bool_decide_eq_true_2. Qed.



Lemma pathTo_pred_path g v u p e fuel :
  name v ≠ name (startV g) → prevVertex g !! name v = Some u → to e = v →
  pred_path g u p → (length (p ++ [e]) ≤ fuel)%nat →
  pathTo fuel g v = Ret (Some (vertices_of (startV g) (p ++ [e]))).
Proof.
  intros Hv Hp Ht Hpp Hfuel. unfold pathTo. rewrite bool_decide_eq_false_2 by done.
  rewrite Hp. rewrite length_app in Hfuel. simpl in Hfuel.
  rewrite (walk_pred_path _ _ _ Hpp) by lia.
  by rewrite vertices_of_snoc, Ht.
Qed.

(** [printPathTo] prints the vertices that [pathTo] lists. *)
Lemma print_walk_walk g fuel :
  ∀ o acc str,
    match walk fuel g o acc with
    | Ret l => ∃ pre, l = pre ++ acc ∧ print_walk fuel g o str = Ret (render_path pre str)
    | Diverge => print_walk fuel g o str = Diverge
    | _ => False
    end.
Proof.
  induction fuel as [|fuel IH]; intros [p|] acc str; simpl.
  - done.
  - by exists [].
  - specialize (IH (prevVertex g !! name p) (p :: acc)
                  ("Vertex(" +:+ name p +:+ ") -> " +:+ str)).
    destruct (walk fuel g _ _) as [l| | |]; try done.
    destruct IH as (pre & -> & ->). exists (pre ++ [p]). split.
    + by rewrite <- app_assoc.
    + unfold render_path. by rewrite foldr_app.
  - by exists [].
Qed.

Lemma printPathTo_pathTo fuel g v :
  printPathTo fuel g v =
    (pathTo fuel g v ≫= λ o : option (list Vertex), Ret (option_map (render g v) o)).
Proof.
  unfold printPathTo, pathTo, render. case_bool_decide as Hv; [done|].
  destruct (prevVertex g !! name v) as [p|]; [|done].
  pose proof (print_walk_walk g fuel (Some p) [v]
    ("Vertex(" +:+ name v +:+ ") - total "
     +:+ render_lookup (bestDistances g !! name v) +:+ " away from source")) as H.
  destruct (walk fuel g (Some p) [v]) as [l| | |]; try done.
  - destruct H as (pre & -> & ->). simpl. by rewrite removelast_last.
  - by rewrite H.
Qed.

(** ** Safety of the asserted lookups *)

Section Safety.
Context `{PQ : PriorityQueue (Vertex * Z)} {PQL : PriorityQueueLaws PQ comparator}.

Lemma Inv_targets_registered s es st : Inv s es st → targets_registered (graph st).
Proof.
  intros HI n ns e Hn He. rewrite (inv_nbs _ _ _ HI) in Hn.
  destruct (decide (out_edges es n = [])); [done|]. injection Hn as <-.
  apply out_edges_spec in He as [? ?].
  apply (inv_dom _ _ _ HI), elem_of_endpoints. eauto.
Qed.

Lemma iteration_outcome s es st :
  Inv s es st →
  (∃ st', iteration st = Ret st' ∧ Inv s es st') ∨
  iteration st = Throw "PriorityQueue is empty".
Proof.
  intros HI. destruct (pq_isEmpty (queue st)) eqn:E.
  - right. unfold iteration.
    destruct (pq_deq (queue st)) as [[a q']|] eqn:Hdeq; [|done].
    destruct (pq_deq_Some _ _ _ (inv_wf _ _ _ HI) Hdeq) as (_ & Hperm & _).
    apply (pq_isEmpty_spec _ (inv_wf _ _ _ HI)) in E. rewrite E in Hperm.
    by apply Permutation_nil_cons in Hperm.
  - left. destruct (iteration_Inv _ _ _ HI E) as (st' & ? & ? & _). eauto.
Qed.

Lemma reaches_Inv s es st st' : Inv s es st → reaches st st' → Inv s es st'.
Proof.
  intros HI Hr. induction Hr as [|a b c Hab _ IH]; [done|]. apply IH.
  destruct (iteration_outcome _ _ _ HI) as [(b' & Hb & HI')|Hb]; congruence.
Qed.


End Safety.

(** A set of names that no edge leaves contains everything reachable from
    its members. *)
Lemma reachable_closed es (R : gset string) a p b :
  (∀ e, e ∈ es → name (from e) ∈ R → name (to e) ∈ R) →
  is_path es a p b → a ∈ R → b ∈ R.
Proof.
  intros Hcl. revert a. induction p as [|e p IH]; intros a.
  - simpl. by intros ->.
  - intros (He & <- & Hp) Ha. eapply IH; [done|]. by apply Hcl.
Qed.

(** * The claims *)

Section Claims.
Context `{PQ : PriorityQueue (Vertex * Z)} {PQL : PriorityQueueLaws PQ comparator}.

(** With exact sums and non-negative weights, [shortestPathTo] of a vertex
    reachable from the source is the minimum of the summed edge weights over
    all paths from the source to it, the distance of the source is 0, and a
    vertex that occurs in some edge but is not reachable keeps the distance
    [Infinity]. *)
Lemma exact_shortest_distance (s : Vertex) (es : list Edge) (g : Graph) :
  nonneg es → constructs s es g →
  shortestPathTo g s = Some (Num 0) ∧
  ∀ v : Vertex,
    (reachable es (name s) (name v) →
       ∃ d, shortestPathTo g v = Some (Num d) ∧ is_shortest es (name s) (name v) d) ∧
    (name v ∈ endpoints es → ¬ reachable es (name s) (name v) →
       shortestPathTo g v = Some Infinity).
Proof.
  intros Hnn Hc. pose proof (constructs_Final _ _ _ Hnn Hc) as HF.
  unfold shortestPathTo. split.
  - destruct (final_reach _ _ _ HF (name s) []) as (b & Hb & Hle); [done|].
    destruct (proj1 (final_dist _ _ _ HF _ _) Hb) as [(p & Hp & Hw) _].
    pose proof (weight_nonneg es p Hnn (is_path_edges _ _ _ _ Hp)) as H0.
    change (weight []) with 0 in Hle. rewrite Hb. do 2 f_equal. lia.
  - intros v. split.
    + intros [p Hp]. destruct (final_reach _ _ _ HF _ _ Hp) as (b & Hb & _).
      exists b. split; [done|]. by apply (final_dist _ _ _ HF).
    + intros Hv Hnr. apply (final_dom _ _ _ HF) in Hv as [[d|] Hb]; [|done].
      destruct (proj1 (final_dist _ _ _ HF _ _) Hb) as [(p & Hp & _) _].
      destruct Hnr. by exists p.
Qed.

(** With exact sums and non-negative weights, [pathTo] of a vertex [v]
    reachable from the source returns a sequence of vertices that starts with
    the source, ends with [v], joins every two neighbours by an edge of the
    input, and whose edges sum up to [shortestPathTo v]; for the source
    itself the sequence is [[source]].  [printPathTo] prints that
    sequence. *)
Lemma exact_path_to_reachable_vertex (s : Vertex) (es : list Edge) (g : Graph) :
  nonneg es → constructs s es g →
  (∀ fuel, pathTo fuel g s = Ret (Some [s]) ∧
           printPathTo fuel g s = Ret (Some (render g s [s]))) ∧
  ∀ v : Vertex, reachable es (name s) (name v) →
    ∃ p, (∀ fuel, (length p ≤ fuel)%nat →
            pathTo fuel g v = Ret (Some (vertices_of s p)) ∧
            printPathTo fuel g v = Ret (Some (render g v (vertices_of s p)))) ∧
         head (vertices_of s p) = Some s ∧
         last (vertices_of s p) = Some v ∧
         consecutive es (vertices_of s p) ∧
         is_path es (name s) p (name v) ∧
         shortestPathTo g v = Some (Num (weight p)).
Proof.
  intros Hnn Hc. pose proof (constructs_Final _ _ _ Hnn Hc) as HF.
  pose proof (final_start _ _ _ HF) as Hs. pose proof (final_edges _ _ _ HF) as Hes.
  assert (∀ fuel v l, pathTo fuel g v = Ret (Some l) →
            pathTo fuel g v = Ret (Some l) ∧
            printPathTo fuel g v = Ret (Some (render g v l))) as Hprint.
  { intros fuel v l Hl. split; [done|]. by rewrite printPathTo_pathTo, Hl. }
  split.
  - intros fuel. apply Hprint, pathTo_source. by rewrite Hs.
  - intros v [p0 Hp0]. destruct (final_reach _ _ _ HF _ _ Hp0) as (b & Hb & _).
    destruct (final_tree _ _ _ HF _ _ Hb) as (p & Hpp & Hw).
    exists p.
    pose proof (pred_path_is_path _ _ _ Hpp) as Hpath. rewrite Hs, Hes in Hpath.
    pose proof (pred_path_last _ _ _ Hpp) as Hlast. rewrite Hs in Hlast.
    split_and!; [|done|done|by eapply is_path_consecutive|done|].
    + intros fuel Hfuel. apply Hprint.
      destruct Hpp as [Hsrc|v u e p Hp He Hf Ht Hpp].
      * rewrite Hs. apply pathTo_source. by rewrite Hs.
      * rewrite <- Hs. apply pathTo_pred_path with (u := u); try done.
        rewrite Hs. intros Heq. rewrite Heq, (final_source _ _ _ HF) in Hp. done.
    + unfold shortestPathTo. by rewrite Hb, Hw.
Qed.

(** C3 (as amended): a negative weight is not detected.  When some edge has
    a negative weight and the source occurs in some edge, construction
    succeeds, and no error is thrown for any loop budget. *)
Theorem negative_weight_accepted (s : Vertex) (es : list Edge) :
  (∃ e, e ∈ es ∧ distance e < 0) → name s ∈ endpoints es →
  (∃ g, constructs s es g) ∧ ∀ fuel msg, new_Graph fuel s es ≠ Throw msg.
Proof.
  intros (e & He & _) Hs.
  assert (es ≠ []) as Hne by (intros ->; by apply elem_of_nil in He).
  split.
  - destruct (new_Graph_total s es Hne Hs) as (fuel & g & Hg).
    exists g, fuel. by apply Hg.
  - intros fuel msg. rewrite new_Graph_unfold, decide_False, decide_True by done.
    destruct (loop_invariant (Inv s es)) with (fuel := fuel) (st := init_state s es)
      as [Hd|(st' & Hl & _)]; [|by apply init_Inv|congruence..].
    intros st HI Hem. destruct (iteration_Inv _ _ _ HI Hem) as (st' & ? & ? & _). eauto.
Qed.

(** C4: in a constructed graph, [shortestPathTo] of a vertex that occurs in
    no edge is [undefined] (which differs from [Infinity]); for a vertex that
    occurs in some edge but is not reachable from the source,
    [shortestPathTo] is [Infinity] and [pathTo] and [printPathTo] return
    [undefined]. *)
Theorem unknown_and_unreachable_vertices (s : Vertex) (es : list Edge) (g : Graph) :
  constructs s es g →
  ∀ v : Vertex,
    (name v ∉ endpoints es →
       shortestPathTo g v = None ∧ shortestPathTo g v ≠ Some Infinity) ∧
    (name v ∈ endpoints es → ¬ reachable es (name s) (name v) →
       shortestPathTo g v = Some Infinity ∧
       ∀ fuel, pathTo fuel g v = Ret None ∧ printPathTo fuel g v = Ret None).
Proof.
  intros Hc v. destruct (constructs_Inv _ _ _ Hc) as (_ & _ & st & <- & HI & _).
  unfold shortestPathTo. split.
  - intros Hv. assert (bestDistances (graph st) !! name v = None) as ->; [|done].
    apply eq_None_not_Some. by rewrite (inv_dom _ _ _ HI).
  - intros Hv Hnr.
    assert (bestDistances (graph st) !! name v = Some Infinity) as Hb.
    { apply (inv_dom _ _ _ HI) in Hv as [[d|] Hb]; [|done].
      destruct (inv_best _ _ _ HI _ _ Hb) as (p & Hp & _). destruct Hnr. by exists p. }
    split; [done|].
    assert (∀ fuel, pathTo fuel (graph st) v = Ret None) as Hpath.
    { intros fuel. unfold pathTo. rewrite (inv_start _ _ _ HI).
      rewrite bool_decide_eq_false_2.
      - destruct (prevVertex (graph st) !! name v) as [u|] eqn:Hp; [|done].
        destruct (inv_prev _ _ _ HI _ _ Hp) as (e & d & _ & _ & _ & Hbv & _).
        congruence.
      - intros Heq. destruct Hnr. exists []. simpl. done. }
    intros fuel. split; [done|]. by rewrite printPathTo_pathTo, Hpath.
Qed.

(** With exact sums and non-negative weights, the source has no predecessor
    entry, and following the predecessor map from a reachable vertex other
    than the source reaches the source after finitely many steps, along edges
    whose weights sum up to the best distance of the vertex. *)
Lemma exact_predecessor_walk (s : Vertex) (es : list Edge) (g : Graph) :
  nonneg es → constructs s es g →
  prevVertex g !! name s = None ∧
  ∀ v : Vertex, reachable es (name s) (name v) → name v ≠ name s →
    is_Some (prevVertex g !! name v) ∧
    ∃ p, pred_path g v p ∧ bestDistances g !! name v = Some (Num (weight p)).
Proof.
  intros Hnn Hc. pose proof (constructs_Final _ _ _ Hnn Hc) as HF.
  split; [apply (final_source _ _ _ HF)|].
  intros v [p0 Hp0] Hv. destruct (final_reach _ _ _ HF _ _ Hp0) as (b & Hb & _).
  destruct (final_tree _ _ _ HF _ _ Hb) as (p & Hpp & Hw). split.
  - destruct Hpp as [|v u e p Hp _ _ _ _]; [|by eauto].
    by rewrite (final_start _ _ _ HF) in Hv.
  - exists p. by rewrite Hw.
Qed.

(** C6: construction with an empty edge list throws the error for an empty
    graph, for every source and loop budget, and yields no graph. *)
Theorem empty_edge_list_rejected (s : Vertex) :
  (∀ fuel, new_Graph fuel s [] = Throw EmptyGraphError) ∧
  ∀ g, ¬ constructs s [] g.
Proof.
  split; [done|]. by intros g [fuel Hc].
Qed.

(** C7 (as amended): for a non-empty edge list, construction throws the
    error for a disconnected source exactly when the name of the source is
    neither the [from] nor the [to] endpoint of any edge; when the source
    occurs in some edge, even only as a [to] endpoint, construction
    succeeds. *)
Theorem disconnected_source_rejected (s : Vertex) (es : list Edge) :
  es ≠ [] →
  (∀ fuel, new_Graph fuel s es = Throw DisconnectedSourceError ↔
     ∀ e, e ∈ es → name (from e) ≠ name s ∧ name (to e) ≠ name s) ∧
  ((∃ e, e ∈ es ∧ (name (from e) = name s ∨ name (to e) = name s)) →
     ∃ g, constructs s es g).
Proof.
  intros Hne. split.
  - intros fuel. rewrite new_Graph_unfold, decide_False by done.
    destruct (decide (name s ∈ endpoints es)) as [Hs|Hs].
    + split.
      * intros Hl. exfalso.
        destruct (loop_invariant (Inv s es)) with (fuel := fuel) (st := init_state s es)
          as [Hd|(st' & Hl' & _)]; [|by apply init_Inv|congruence..].
        intros st HI Hem.
        destruct (iteration_Inv _ _ _ HI Hem) as (st' & ? & ? & _). eauto.
      * intros Hno. apply elem_of_endpoints in Hs as (e & He & Hor).
        destruct (Hno e He). tauto.
    + split; [|done]. intros _ e He. split; intros Heq; apply Hs, elem_of_endpoints; eauto.
  - intros He. apply elem_of_endpoints in He.
    destruct (new_Graph_total s es Hne He) as (fuel & g & Hg).
    exists g, fuel. by apply Hg.
Qed.


(** C10: in a constructed graph every edge target listed in the adjacency
    index has an entry in the best-distance map, in every state that the
    loop passes through as well; hence no lookup under a non-null assertion
    is undefined, neither in an iteration nor in the construction as a
    whole. *)
Theorem asserted_lookups_are_defined (s : Vertex) (es : list Edge) (g : Graph) :
  constructs s es g →
  targets_registered g ∧
  (∀ fuel, new_Graph fuel s es ≠ Undefined_deref) ∧
  ∀ st, reaches (init_state s es) st →
    targets_registered (graph st) ∧ iteration st ≠ Undefined_deref.
Proof.
  intros Hc. destruct (constructs_Inv _ _ _ Hc) as (Hne & Hs & st & <- & HI & _).
  split_and!.
  - by eapply Inv_targets_registered.
  - intros fuel. rewrite new_Graph_unfold, decide_False, decide_True by done.
    destruct (loop_invariant (Inv s es)) with (fuel := fuel) (st := init_state s es)
      as [Hd|(st' & Hl & _)]; [|by apply init_Inv|congruence..].
    intros st0 HI0 Hem.
    destruct (iteration_Inv _ _ _ HI0 Hem) as (st' & ? & ? & _). eauto.
  - intros st0 Hr. pose proof (reaches_Inv _ _ _ _ (init_Inv s es Hs) Hr) as HI0.
    split; [by eapply Inv_targets_registered|].
    destruct (iteration_outcome _ _ _ HI0) as [(st' & Hst & _)|Hst]; congruence.
Qed.

End Claims.

(** ** The demo input *)

(** A potential that no edge undercuts bounds the weight of every path. *)
Lemma potential_bound es (φ : string → Z) a p b :
  Forall (λ e, φ (name (to e)) ≤ φ (name (from e)) + distance e) es →
  is_path es a p b → φ b ≤ φ a + weight p.
Proof.
  intros Hφ. revert a. induction p as [|e p IH]; intros a.
  - simpl. intros ->. change (weight []) with 0. lia.
  - intros (He & <- & Hp). specialize (IH _ Hp). rewrite weight_cons.
    pose proof (proj1 (Forall_forall _ _) Hφ e He) as Hle. simpl in Hle. lia.
Qed.

Lemma is_shortest_certificate es (φ : string → Z) a b p :
  Forall (λ e, φ (name (to e)) ≤ φ (name (from e)) + distance e) es →
  is_path es a p b → weight p = φ b - φ a → is_shortest es a b (weight p).
Proof.
  intros Hφ Hp Hw. split; [by exists p|]. intros p' Hp'.
  pose proof (potential_bound es φ a p' b Hφ Hp'). lia.
Qed.

Lemma demo_distance_potential :
  Forall (λ e, demo_distance (name (to e)) ≤ demo_distance (name (from e)) + distance e)
         demo_edges.
Proof. repeat constructor; vm_compute; discriminate. Qed.

Lemma demo_edges_nonneg : nonneg demo_edges.
Proof. repeat constructor; vm_compute; discriminate. Qed.

Lemma demo_source_mentioned : name vA ∈ endpoints demo_edges.
Proof. apply elem_of_endpoints. exists (mkEdge vA vB 1). split; [left|by left]. Qed.

Ltac demo_edge He :=
  repeat (apply elem_of_cons in He as [->|He]); [..|by apply elem_of_nil in He].

Ltac demo_path := simpl; repeat split; try done; set_solver.

Section Demo.
Context `{PQ : PriorityQueue (Vertex * Z)} {PQL : PriorityQueueLaws PQ comparator}.

Lemma demo_Final g : constructs vA demo_edges g →
  bestDistances g !! "A" = Some (Num 0) ∧ bestDistances g !! "B" = Some (Num 1) ∧
  bestDistances g !! "C" = Some (Num 2) ∧ bestDistances g !! "D" = Some (Num 7) ∧
  bestDistances g !! "E" = Some (Num 10) ∧
  prevVertex g !! "A" = None ∧ prevVertex g !! "B" = Some vA ∧
  prevVertex g !! "C" = Some vB.
Proof.
  intros Hc. pose proof (constructs_Final _ _ _ demo_edges_nonneg Hc) as HF.
  assert (bestDistances g !! "A" = Some (Num 0)) as HA.
  { apply (final_dist _ _ _ HF).
    apply (is_shortest_certificate _ demo_distance _ _ []);
      [apply demo_distance_potential|done..]. }
  assert (bestDistances g !! "B" = Some (Num 1)) as HB.
  { apply (final_dist _ _ _ HF).
    apply (is_shortest_certificate _ demo_distance _ _ [mkEdge vA vB 1]);
      [apply demo_distance_potential|demo_path|done]. }
  assert (bestDistances g !! "C" = Some (Num 2)) as HC.
  { apply (final_dist _ _ _ HF).
    apply (is_shortest_certificate _ demo_distance _ _ [mkEdge vA vB 1; mkEdge vB vC 1]);
      [apply demo_distance_potential|demo_path|done]. }
  assert (bestDistances g !! "D" = Some (Num 7)) as HD.
  { apply (final_dist _ _ _ HF).
    apply (is_shortest_certificate _ demo_distance _ _
             [mkEdge vA vB 1; mkEdge vB vC 1; mkEdge vC vD 5]);
      [apply demo_distance_potential|demo_path|done]. }
  assert (bestDistances g !! "E" = Some (Num 10)) as HE.
  { apply (final_dist _ _ _ HF).
    apply (is_shortest_certificate _ demo_distance _ _ [mkEdge vA vE 10]);
      [apply demo_distance_potential|demo_path|done]. }
  split_and!; try done.
  - apply (final_source _ _ _ HF).
  - destruct (final_tree _ _ _ HF vB _ HB) as (p & Hpp & _).
    inversion Hpp as [Hs Hv|v u e p' Hp He Hf Ht Hpp']; subst.
    { by rewrite (final_start _ _ _ HF) in Hv. }
    simpl in Hp. rewrite Hp. f_equal.
    destruct (final_prev _ _ _ HF _ _ Hp) as (e' & bu & He' & Hf' & Ht' & Hbu & Hbv).
    demo_edge He'; simpl in *; subst; simpl in *; try done.
  - destruct (final_tree _ _ _ HF vC _ HC) as (p & Hpp & _).
    inversion Hpp as [Hs Hv|v u e p' Hp He Hf Ht Hpp']; subst.
    { by rewrite (final_start _ _ _ HF) in Hv. }
    simpl in Hp. rewrite Hp. f_equal.
    destruct (final_prev _ _ _ HF _ _ Hp) as (e' & bu & He' & Hf' & Ht' & Hbu & Hbv).
    demo_edge He'; simpl in *; subst; simpl in *; try done.
    rewrite <- Hf' in Hbu. simpl in Hbu. rewrite HA in Hbu. rewrite HC in Hbv.
    simplify_eq.
Qed.

(** C8: on the demo input (vertices A to E, edges A→B 1, A→C 3, A→E 10,
    B→C 1, C→D 5, D→E 4, source A) the constructor returns a graph whose
    distances are 0, 1, 2, 7 and 10 for A, B, C, D and E, and the path to C
    is A, B, C, printed as such by [printPathTo]. *)
Theorem demo_graph_distances_and_path :
  ∃ g, (∀ fuel, (7 ≤ fuel)%nat → new_Graph fuel vA demo_edges = Ret g) ∧
       shortestPathTo g vA = Some (Num 0) ∧
       shortestPathTo g vB = Some (Num 1) ∧
       shortestPathTo g vC = Some (Num 2) ∧
       shortestPathTo g vD = Some (Num 7) ∧
       shortestPathTo g vE = Some (Num 10) ∧
       (∀ fuel, (2 ≤ fuel)%nat →
          pathTo fuel g vC = Ret (Some [vA; vB; vC]) ∧
          printPathTo fuel g vC =
            Ret (Some "Vertex(A) -> Vertex(B) -> Vertex(C) - total 2 away from source")).
Proof.
  destruct (new_Graph_bound vA demo_edges) as [g Hg];
    [done|apply demo_edges_nonneg|apply demo_source_mentioned|].
  assert (constructs vA demo_edges g) as Hc by by eexists.
  pose proof (constructs_Final _ _ _ demo_edges_nonneg Hc) as HF.
  destruct (demo_Final g Hc) as (HA & HB & HC & HD & HE & PA & PB & PC).
  exists g. unfold shortestPathTo. split_and!; try done.
  - intros fuel Hfuel. rewrite new_Graph_unfold in *.
    rewrite decide_False, decide_True in * by (done || apply demo_source_mentioned).
    eapply loop_fuel_mono; [done|]. simpl. lia.
  - intros fuel Hfuel.
    assert (pathTo fuel g vC = Ret (Some [vA; vB; vC])) as Hpath.
    { unfold pathTo. rewrite (final_start _ _ _ HF). simpl. rewrite PC.
      destruct fuel as [|[|fuel]]; [lia..|]. simpl. rewrite PB. simpl. rewrite PA.
      by destruct fuel. }
    split; [done|]. rewrite printPathTo_pathTo, Hpath. simpl.
    unfold render. rewrite (final_start _ _ _ HF). simpl. by rewrite HC.
Qed.

End Demo.

(** * Further properties of the code *)

Section Further.
Context `{PQ : PriorityQueue (Vertex * Z)} {PQL : PriorityQueueLaws PQ comparator}.

(** ** The constructor and the queries, for arbitrary weights *)

(** X1: the constructed graph records the source and the edge list as they
    were passed, and its adjacency index maps every name that is the [from]
    endpoint of some edge to the edges leaving it, in input order, and no
    other name; the algorithm leaves the index untouched. *)
Theorem adjacency_index_groups_edges (s : Vertex) (es : list Edge) (g : Graph) :
  constructs s es g →
  startV g = s ∧ edges g = es ∧
  ∀ n, neighbours g !! n =
       if decide (out_edges es n = []) then None else Some (out_edges es n).
Proof.
  intros Hc. destruct (constructs_Inv _ _ _ Hc) as (_ & _ & st & <- & HI & _).
  split_and!; [apply (inv_start _ _ _ HI)|apply (inv_edges _ _ _ HI)|].
  apply (inv_nbs _ _ _ HI).
Qed.

(** X2: [shortestPathTo] is defined exactly for the vertices whose name is an
    endpoint of some edge. *)
Theorem distance_defined_iff_registered (s : Vertex) (es : list Edge) (g : Graph) :
  constructs s es g →
  ∀ v : Vertex,
    is_Some (shortestPathTo g v) ↔
    ∃ e, e ∈ es ∧ (name (from e) = name v ∨ name (to e) = name v).
Proof.
  intros Hc v. destruct (constructs_Inv _ _ _ Hc) as (_ & _ & st & <- & HI & _).
  unfold shortestPathTo. by rewrite (inv_dom _ _ _ HI), elem_of_endpoints.
Qed.

(** With exact sums, a finite distance is the weight of a path of input
    edges from the source to the vertex, also when weights are negative. *)
Lemma exact_finite_distance_has_path (s : Vertex) (es : list Edge) (g : Graph) :
  constructs s es g →
  ∀ (v : Vertex) d, shortestPathTo g v = Some (Num d) →
    ∃ p, is_path es (name s) p (name v) ∧ weight p = d.
Proof.
  intros Hc v d Hd. destruct (constructs_Inv _ _ _ Hc) as (_ & _ & st & <- & HI & _).
  apply (inv_best _ _ _ HI _ _ Hd).
Qed.

(** ** One iteration of the loop, for arbitrary weights *)

Lemma number_le_refl a : number_le a a.
Proof. destruct a; simpl; [lia|done]. Qed.

Lemma number_lt_le_trans alt b b0 :
  number_lt (Num alt) b = true → number_le b b0 → number_le (Num alt) b0.
Proof.
  intros Hlt Hle. destruct b as [y|], b0 as [z|]; simpl in *; try done.
  apply bool_decide_eq_true in Hlt. lia.
Qed.

(** What one iteration does to the maps and to [visited]. *)
Lemma iteration_effect s es st st' :
  Inv s es st → iteration st = Ret st' →
  visited st ⊆ visited st' ∧
  (∀ v b, bestDistances (graph st) !! v = Some b →
     ∃ b', bestDistances (graph st') !! v = Some b' ∧ number_le b' b) ∧
  (∀ v, v ∈ visited st →
     bestDistances (graph st') !! v = bestDistances (graph st) !! v ∧
     prevVertex (graph st') !! v = prevVertex (graph st) !! v).
Proof.
  intros HI Hit.
  destruct (iteration_step_of _ _ _ _ HI Hit)
    as [u d q0 Hdeq Hleaf ->|u d q0 g' q' Hdeq Hnode Hfor ->]; simpl.
  - split_and!; [done| |done]. intros v b Hb. exists b. split; [done|apply number_le_refl].
  - destruct (Inv_deq _ _ _ _ _ _ HI Hdeq) as (HI0 & Hperm & _).
    assert ((u, d) ∈ pq_elems (queue st)) as Hud by (rewrite Hperm; left).
    destruct (inv_queue _ _ _ HI _ _ Hud) as [Hpath Hu].
    destruct (for_of_relax
      (λ _ g q, Inv s es (mkState g q (visited st)) ∧
         fin_le (bestDistances g) (name u) d ∧
         (∀ v b, bestDistances (graph st) !! v = Some b →
            ∃ b', bestDistances g !! v = Some b' ∧ number_le b' b) ∧
         (∀ v, v ∈ visited st →
            bestDistances g !! v = bestDistances (graph st) !! v ∧
            prevVertex g !! v = prevVertex (graph st) !! v))
      u d (visited st) (out_edges es (name u))) with (g := graph st) (q := q0)
      as (g1 & q1 & Hfor1 & _ & _ & Hmono & Hfrozen).
    { intros done e g q (HI1 & Hu1 & Hm1 & Hf1) [Hfrom He]%out_edges_spec. split.
      - intros _. apply (inv_dom _ _ _ HI1). apply elem_of_endpoints. eauto.
      - intros g2 q2 Hrel.
        destruct (relaxed_Inv _ _ _ _ _ _ _ _ _ _ HI1 Hpath Hu1 He Hfrom Hrel) as [? ?].
        split_and!; [done..| |];
          inversion Hrel as [| |? ? b Hv Hb Hlt]; subst; try done; simpl.
        + intros v b0 Hb0. destruct (Hm1 _ _ Hb0) as (b1 & Hb1 & Hle).
          destruct (decide (name (to e) = v)) as [<-|Hne].
          * rewrite lookup_insert_eq. eexists. split; [done|].
            rewrite Hb in Hb1. injection Hb1 as <-. by eapply number_lt_le_trans.
          * rewrite lookup_insert_ne by done. eauto.
        + intros v Hin. rewrite !lookup_insert_ne by (intros <-; done). by apply Hf1. }
    { split_and!; [done..| |done]. intros v b Hb. exists b.
      split; [done|apply number_le_refl]. }
    rewrite Hfor in Hfor1. injection Hfor1 as <- <-.
    split_and!; [set_solver|done..].
Qed.

(** X11: while a graph is constructed, an iteration of the loop never
    increases a best distance and never removes an entry of the map. *)
Theorem iteration_never_increases_distance (s : Vertex) (es : list Edge)
    (st st' : loop_state) :
  name s ∈ endpoints es → reaches (init_state s es) st → iteration st = Ret st' →
  ∀ v b, bestDistances (graph st) !! v = Some b →
    ∃ b', bestDistances (graph st') !! v = Some b' ∧ number_le b' b.
Proof.
  intros Hs Hr Hit.
  pose proof (reaches_Inv _ _ _ _ (init_Inv s es Hs) Hr) as HI.
  apply (iteration_effect _ _ _ _ HI Hit).
Qed.

(** X12: while a graph is constructed, [visited] only grows, and an iteration
    changes neither the distance nor the predecessor of a vertex that is
    visited already. *)
Theorem iteration_keeps_visited_entries (s : Vertex) (es : list Edge)
    (st st' : loop_state) :
  name s ∈ endpoints es → reaches (init_state s es) st → iteration st = Ret st' →
  visited st ⊆ visited st' ∧
  ∀ v, v ∈ visited st →
    bestDistances (graph st') !! v = bestDistances (graph st) !! v ∧
    prevVertex (graph st') !! v = prevVertex (graph st) !! v.
Proof.
  intros Hs Hr Hit.
  pose proof (reaches_Inv _ _ _ _ (init_Inv s es Hs) Hr) as HI.
  destruct (iteration_effect _ _ _ _ HI Hit) as (? & _ & ?). done.
Qed.

(** ** Graphs constructed from non-negative weights *)








(** With exact sums and non-negative weights no edge can improve a distance
    any more: when the [from] vertex of an edge has a finite distance, so has
    its [to] vertex, and it is at most that distance plus the weight of the
    edge. *)
Lemma exact_no_edge_is_tense (s : Vertex) (es : list Edge) (g : Graph) :
  nonneg es → constructs s es g →
  ∀ e d, e ∈ es → shortestPathTo g (from e) = Some (Num d) →
    ∃ d', shortestPathTo g (to e) = Some (Num d') ∧ d' ≤ d + distance e.
Proof.
  intros Hnn Hc e d He Hd. pose proof (constructs_Final _ _ _ Hnn Hc) as HF.
  destruct (proj1 (final_dist _ _ _ HF _ _) Hd) as [(p & Hp & Hw) _].
  destruct (final_reach _ _ _ HF (name (to e)) (p ++ [e])) as (d' & Hd' & Hle).
  { by apply is_path_snoc. }
  exists d'. split; [done|]. rewrite weight_snoc in Hle. lia.
Qed.

(** With exact sums and non-negative weights every predecessor link is the
    last edge of a shortest path: the distance of a vertex is the distance of
    its predecessor plus the weight of an input edge between the two. *)
Lemma exact_predecessor_link (s : Vertex) (es : list Edge) (g : Graph) :
  nonneg es → constructs s es g →
  ∀ (v u : Vertex), prevVertex g !! name v = Some u →
    ∃ e du, e ∈ es ∧ from e = u ∧ to e = v ∧
            shortestPathTo g u = Some (Num du) ∧
            shortestPathTo g v = Some (Num (du + distance e)).
Proof.
  intros Hnn Hc v u Hp. pose proof (constructs_Final _ _ _ Hnn Hc) as HF.
  destruct (final_prev _ _ _ HF _ _ Hp) as (e & du & He & Hf & Ht & Hu & Hv).
  exists e, du. split_and!; [done..|by apply vertex_eq|done|done].
Qed.

End Further.


(** * Properties of the numbers *)

(** ** Integers below 2^53 are numbers, and are added exactly *)

Lemma digits2_pos_digits p : Z.pos (digits2_pos p) = digits (Z.pos p).
Proof.
  unfold digits. induction p as [p IH|p IH|]; [| |done].
  - change (digits2_pos p~1) with (Pos.succ (digits2_pos p)).
    rewrite Pos2Z.inj_succ, IH. destruct p; simpl; lia.
  - change (digits2_pos p~0) with (Pos.succ (digits2_pos p)).
    rewrite Pos2Z.inj_succ, IH. destruct p; simpl; lia.
Qed.

Lemma digits_bounds n : 0 < n → 2 ^ (digits n - 1) ≤ n < 2 ^ digits n.
Proof.
  intros Hn. unfold digits. replace (Z.log2 n + 1 - 1) with (Z.log2 n) by lia.
  apply (Z.log2_spec n Hn).
Qed.

Lemma digits_pos n : 0 < n → 0 < digits n.
Proof. intros. unfold digits. pose proof (Z.log2_nonneg n). lia. Qed.

Lemma digits_shift n k : 0 < n → 0 ≤ k → digits (n * 2 ^ k) = digits n + k.
Proof. intros. unfold digits. rewrite Z.log2_mul_pow2 by done. lia. Qed.

Lemma digits_le n b : 0 < n → 0 ≤ b → n < 2 ^ b → digits n ≤ b.
Proof. intros Hn Hb Hlt. unfold digits. apply Z.log2_lt_pow2 in Hlt; lia. Qed.

Lemma shl_spec m k : 0 ≤ k → Z.pos (shl m k) = Z.pos m * 2 ^ k.
Proof.
  intros Hk. destruct k as [|d|d]; [simpl; lia| |lia]. clear Hk. simpl.
  induction d as [|d IH] using Pos.peano_ind.
  - simpl. lia.
  - rewrite Pos.iter_succ, Pos2Z.inj_succ, Z.pow_succ_r by lia.
    rewrite Pos2Z.inj_xO, IH. lia.
Qed.

Lemma digits_shl m k : 0 ≤ k → digits (Z.pos (shl m k)) = digits (Z.pos m) + k.
Proof. intros. rewrite shl_spec, digits_shift by lia. done. Qed.

Lemma shl_align_spec m e e' :
  shl_align m e e' = if bool_decide (e' < e) then (shl m (e - e'), e') else (m, e).
Proof.
  unfold shl_align. case_bool_decide as H.
  - destruct (e' - e) as [|d|d] eqn:E; [lia..|].
    replace (e - e') with (Z.pos d) by lia. done.
  - destruct (e' - e) as [|d|d] eqn:E; [done..|lia].
Qed.

Lemma iter_pos_iter {A} (f : A → A) p x : iter_pos f p x = Pos.iter f x p.
Proof.
  revert x. induction p as [p IH|p IH|]; intros x; simpl; [| |done].
  - by rewrite !IH, !Pos.iter_swap.
  - by rewrite !IH.
Qed.

Lemma iter_shr_1 k d :
  iter_pos shr_1 d {| shr_m := Z.pos (Pos.iter xO k d); shr_r := false; shr_s := false |}
  = {| shr_m := Z.pos k; shr_r := false; shr_s := false |}.
Proof.
  rewrite iter_pos_iter. revert k.
  induction d as [|d IH] using Pos.peano_ind; intros k; [done|].
  rewrite Pos.iter_succ, Pos.iter_succ_r. by rewrite IH.
Qed.

Lemma fexp_normal e : -1074 ≤ e - 53 → fexp 53 1024 e = e - 53.
Proof. intros. unfold fexp, emin. lia. Qed.

Lemma shr_fexp_exact k p e :
  digits (Z.pos k) = 53 → 0 ≤ p → -1074 ≤ e + p →
  shr_fexp 53 1024 (Z.pos (shl k p)) e loc_Exact
  = ({| shr_m := Z.pos k; shr_r := false; shr_s := false |}, e + p).
Proof.
  intros Hk Hp He. unfold shr_fexp.
  change (Zdigits2 (Z.pos (shl k p))) with (Z.pos (digits2_pos (shl k p))).
  rewrite digits2_pos_digits, digits_shl, Hk by lia.
  rewrite fexp_normal by lia.
  replace (53 + p + e - 53 - e) with p by lia.
  destruct p as [|d|d]; [|simpl|lia].
  - simpl. by rewrite Z.add_0_r.
  - by rewrite iter_shr_1.
Qed.

Lemma round_aux_exact s k p e :
  digits (Z.pos k) = 53 → 0 ≤ p → -1074 ≤ e + p ≤ 971 →
  binary_round_aux 53 1024 s (Z.pos (shl k p)) e loc_Exact = S754_finite s k (e + p).
Proof.
  intros Hk Hp He. unfold binary_round_aux.
  rewrite shr_fexp_exact by lia. cbn [shr_m loc_of_shr_record round_nearest_even].
  rewrite (shr_fexp_exact k 0) by lia. cbn [shr_m].
  rewrite Z.add_0_r. replace (e + p <=? 1024 - 53) with true; [done|].
  symmetry. apply Z.leb_le. lia.
Qed.

Lemma binary_round_exact s m e k p q :
  digits (Z.pos k) = 53 → 0 ≤ p → 0 ≤ q →
  Z.pos m * 2 ^ q = Z.pos k * 2 ^ p →
  -1074 ≤ e + p - q ≤ 971 →
  binary_round 53 1024 s m e = S754_finite s k (e + p - q).
Proof.
  intros Hk Hp Hq Heq He. unfold binary_round.
  rewrite digits2_pos_digits.
  assert (digits (Z.pos m) + q = 53 + p) as Hd.
  { rewrite <- Hk, <- !digits_shift by lia. by rewrite Heq. }
  rewrite fexp_normal by lia. rewrite shl_align_spec.
  case_bool_decide as Hc.
  - assert (shl m (e - (digits (Z.pos m) + e - 53)) = k) as ->.
    { apply Pos2Z.inj. rewrite shl_spec by lia.
      replace (e - (digits (Z.pos m) + e - 53)) with (q - p) by lia.
      apply (Z.mul_cancel_r _ _ (2 ^ p)); [lia|].
      rewrite <- Z.mul_assoc, <- Z.pow_add_r by lia.
      replace (q - p + p) with q by lia. done. }
    replace (digits (Z.pos m) + e - 53) with (e + p - q) by lia.
    pose proof (round_aux_exact s k 0 (e + p - q)) as H.
    rewrite Z.add_0_r in H. apply H; lia.
  - assert (m = shl k (p - q)) as ->.
    { apply Pos2Z.inj. rewrite shl_spec by lia.
      apply (Z.mul_cancel_r _ _ (2 ^ q)); [lia|].
      rewrite <- Z.mul_assoc, <- Z.pow_add_r by lia.
      replace (p - q + q) with p by lia. done. }
    replace (e + p - q) with (e + (p - q)) by lia.
    apply round_aux_exact; lia.
Qed.

(** The mantissa and the exponent of the normal form. *)
Lemma canon_mantissa n :
  0 < n < 2 ^ 53 →
  1 ≤ digits n ≤ 53 ∧
  Z.pos (Z.to_pos (n * 2 ^ (53 - digits n))) = n * 2 ^ (53 - digits n) ∧
  digits (Z.pos (Z.to_pos (n * 2 ^ (53 - digits n)))) = 53.
Proof.
  intros [H0 Hn]. pose proof (digits_pos n H0). pose proof (digits_le n 53 H0).
  assert (1 ≤ digits n ≤ 53) as Hd by lia. split; [done|].
  assert (0 < n * 2 ^ (53 - digits n)) as Hpos.
  { apply Z.mul_pos_pos; [done|]. apply Z.pow_pos_nonneg; lia. }
  rewrite Z2Pos.id by done. split; [done|]. rewrite digits_shift by lia. lia.
Qed.

Lemma canon_finite z :
  z ≠ 0 →
  canon z = S754_finite (bool_decide (z < 0))
              (Z.to_pos (Z.abs z * 2 ^ (53 - digits (Z.abs z)))) (digits (Z.abs z) - 53).
Proof. by destruct z. Qed.

Lemma binary_normalize_canon M e z :
  Z.abs z < 2 ^ 53 → -52 ≤ e ≤ 0 → M = z * 2 ^ (- e) →
  binary_normalize 53 1024 M e false = canon z.
Proof.
  intros Hz He HM.
  assert (0 < 2 ^ (- e)) as Hpow by (apply Z.pow_pos_nonneg; lia).
  destruct (decide (z = 0)) as [->|Hz0]; [by subst M|].
  rewrite canon_finite by done.
  destruct (canon_mantissa (Z.abs z)) as (Hd & Hk & Hk53); [lia|].
  set (k := Z.to_pos (Z.abs z * 2 ^ (53 - digits (Z.abs z)))) in *.
  assert (∀ m, Z.pos m = Z.abs z * 2 ^ (- e) → ∀ s,
    binary_round 53 1024 s m e = S754_finite s k (digits (Z.abs z) - 53)) as Hround.
  { intros m Hm s.
    replace (digits (Z.abs z) - 53) with (e + (- e) - (53 - digits (Z.abs z))) by lia.
    apply binary_round_exact; [done|lia|lia| |lia].
    rewrite Hm, Hk. lia. }
  destruct (Z.lt_total z 0) as [Hneg|[?|Hpos]]; [|done|].
  - rewrite bool_decide_eq_true_2 by done.
    destruct M as [|m|m]; [lia|nia|]. simpl. apply Hround. nia.
  - rewrite bool_decide_eq_false_2 by lia.
    destruct M as [|m|m]; [lia| |nia]. simpl. apply Hround. nia.
Qed.

Lemma of_Z_canon z : Z.abs z < 2 ^ 53 → IEEE.of_Z z = canon z.
Proof.
  intros Hz. apply binary_normalize_canon; [done|lia|]. simpl. lia.
Qed.

Lemma aligned_value a e :
  a ≠ 0 → Z.abs a < 2 ^ 53 → e ≤ digits (Z.abs a) - 53 → -52 ≤ e →
  cond_Zopp (bool_decide (a < 0))
    (Z.pos (shl_align (Z.to_pos (Z.abs a * 2 ^ (53 - digits (Z.abs a))))
              (digits (Z.abs a) - 53) e).1)
  = a * 2 ^ (- e).
Proof.
  intros Ha0 Ha He He'.
  destruct (canon_mantissa (Z.abs a)) as (Hd & Hk & _); [lia|].
  set (k := Z.to_pos (Z.abs a * 2 ^ (53 - digits (Z.abs a)))) in *.
  assert (Z.pos (shl_align k (digits (Z.abs a) - 53) e).1 = Z.abs a * 2 ^ (- e)) as ->.
  { rewrite shl_align_spec. case_bool_decide as Hc; simpl.
    - rewrite shl_spec, Hk by lia. rewrite <- Z.mul_assoc, <- Z.pow_add_r by lia.
      f_equal. f_equal. lia.
    - rewrite Hk. f_equal. f_equal. lia. }
  unfold cond_Zopp. case_bool_decide; lia.
Qed.

Lemma add_canon a b :
  Z.abs a < 2 ^ 53 → Z.abs b < 2 ^ 53 → Z.abs (a + b) < 2 ^ 53 →
  IEEE.add (canon a) (canon b) = canon (a + b).
Proof.
  intros Ha Hb Hab.
  destruct (decide (a = 0)) as [->|Ha0]; [by destruct b|].
  destruct (decide (b = 0)) as [->|Hb0].
  { rewrite Z.add_0_r. by rewrite (canon_finite a). }
  rewrite (canon_finite a), (canon_finite b) by done.
  destruct (canon_mantissa (Z.abs a)) as (Hda & _ & _); [lia|].
  destruct (canon_mantissa (Z.abs b)) as (Hdb & _ & _); [lia|].
  unfold IEEE.add, SFadd. apply binary_normalize_canon; [done|lia|].
  rewrite !aligned_value by lia. lia.
Qed.

Lemma canon_opp b : b ≠ 0 → canon (- b) = SFopp (canon b).
Proof.
  intros Hb0. rewrite !canon_finite by lia. simpl. rewrite Z.abs_opp. f_equal.
  do 2 case_bool_decide; simpl; try done; lia.
Qed.

Lemma sub_canon a b :
  Z.abs a < 2 ^ 53 → Z.abs b < 2 ^ 53 → Z.abs (a - b) < 2 ^ 53 →
  IEEE.sub (canon a) (canon b) = canon (a - b).
Proof.
  intros Ha Hb Hab.
  destruct (decide (b = 0)) as [->|Hb0].
  { rewrite Z.sub_0_r. destruct (decide (a = 0)) as [->|Ha0]; [done|].
    by rewrite (canon_finite a). }
  destruct (decide (a = 0)) as [->|Ha0].
  { change (0 - b) with (- b). rewrite canon_opp by done. by rewrite (canon_finite b). }
  rewrite (canon_finite a), (canon_finite b) by done.
  destruct (canon_mantissa (Z.abs a)) as (Hda & _ & _); [lia|].
  destruct (canon_mantissa (Z.abs b)) as (Hdb & _ & _); [lia|].
  unfold IEEE.sub, SFsub. apply binary_normalize_canon; [done|lia|].
  rewrite !aligned_value by lia. lia.
Qed.

Lemma magnitude_compare a b :
  0 < a < 2 ^ 53 → 0 < b < 2 ^ 53 →
  match digits a - 53 ?= digits b - 53 with
  | Lt => Lt
  | Gt => Gt
  | Eq => Pos.compare_cont Eq (Z.to_pos (a * 2 ^ (53 - digits a)))
            (Z.to_pos (b * 2 ^ (53 - digits b)))
  end = (a ?= b).
Proof.
  intros Ha Hb.
  destruct (canon_mantissa a Ha) as (Hda & Hka & _).
  destruct (canon_mantissa b Hb) as (Hdb & Hkb & _).
  pose proof (digits_bounds a ltac:(lia)) as Ba.
  pose proof (digits_bounds b ltac:(lia)) as Bb.
  destruct (Z.compare_spec (digits a - 53) (digits b - 53)) as [He|He|He].
  - change (Pos.compare_cont Eq ?x ?y) with (Z.pos x ?= Z.pos y).
    rewrite Hka, Hkb. replace (digits b) with (digits a) by lia.
    symmetry. apply Zmult_compare_compat_r.
    apply Z.lt_gt, Z.pow_pos_nonneg; lia.
  - symmetry. apply Z.compare_lt_iff.
    assert (2 ^ digits a ≤ 2 ^ (digits b - 1)) by (apply Z.pow_le_mono_r; lia). lia.
  - symmetry. apply Z.compare_gt_iff.
    assert (2 ^ digits b ≤ 2 ^ (digits a - 1)) by (apply Z.pow_le_mono_r; lia). lia.
Qed.

Lemma compare_canon a b :
  Z.abs a < 2 ^ 53 → Z.abs b < 2 ^ 53 →
  SFcompare (canon a) (canon b) = Some (a ?= b).
Proof.
  intros Ha Hb.
  destruct (decide (a = 0)) as [->|Ha0].
  { destruct (decide (b = 0)) as [->|Hb0]; [done|].
    rewrite (canon_finite b) by done. change (canon 0) with (S754_zero false).
    cbn [SFcompare]. f_equal.
    case_bool_decide; symmetry; [apply Z.compare_gt_iff|apply Z.compare_lt_iff]; lia. }
  destruct (decide (b = 0)) as [->|Hb0].
  { rewrite (canon_finite a) by done. change (canon 0) with (S754_zero false).
    cbn [SFcompare]. f_equal.
    case_bool_decide; symmetry; [apply Z.compare_lt_iff|apply Z.compare_gt_iff]; lia. }
  rewrite (canon_finite a), (canon_finite b) by done.
  pose proof (magnitude_compare (Z.abs a) (Z.abs b) ltac:(lia) ltac:(lia)) as Hm.
  cbn [SFcompare]. f_equal.
  do 2 case_bool_decide.
  - transitivity (CompOpp (Z.abs a ?= Z.abs b)).
    + rewrite <- Hm. by destruct (digits (Z.abs a) - 53 ?= digits (Z.abs b) - 53).
    + rewrite <- Z.compare_antisym.
      replace a with (- Z.abs a) at 2 by lia. replace b with (- Z.abs b) at 2 by lia.
      by rewrite Z.compare_opp.
  - symmetry. apply Z.compare_lt_iff. lia.
  - symmetry. apply Z.compare_gt_iff. lia.
  - rewrite Hm. replace (Z.abs a) with a by lia. by replace (Z.abs b) with b by lia.
Qed.

(** In the range of the integers below 2^53 the operations on numbers are
    the operations on the integers. *)
Lemma ieee_add_exact a b :
  Z.abs a < 2 ^ 53 → Z.abs b < 2 ^ 53 → Z.abs (a + b) < 2 ^ 53 →
  IEEE.add (IEEE.of_Z a) (IEEE.of_Z b) = IEEE.of_Z (a + b).
Proof. intros. rewrite !of_Z_canon by done. by apply add_canon. Qed.

Lemma ieee_sub_exact a b :
  Z.abs a < 2 ^ 53 → Z.abs b < 2 ^ 53 → Z.abs (a - b) < 2 ^ 53 →
  IEEE.sub (IEEE.of_Z a) (IEEE.of_Z b) = IEEE.of_Z (a - b).
Proof. intros. rewrite !of_Z_canon by done. by apply sub_canon. Qed.

Lemma ieee_lt_exact a b :
  Z.abs a < 2 ^ 53 → Z.abs b < 2 ^ 53 →
  IEEE.lt (IEEE.of_Z a) (IEEE.of_Z b) = bool_decide (a < b).
Proof.
  intros. rewrite !of_Z_canon by done. unfold IEEE.lt, SFltb.
  rewrite compare_canon by done.
  destruct (Z.compare_spec a b); case_bool_decide; try done; lia.
Qed.

Lemma ieee_ge0_exact a :
  Z.abs a < 2 ^ 53 → IEEE.ge0 (IEEE.of_Z a) = bool_decide (0 ≤ a).
Proof.
  intros. rewrite of_Z_canon by done. unfold IEEE.ge0, SFleb.
  change IEEE.zero with (canon 0). rewrite compare_canon by (done || (simpl; lia)).
  destruct (Z.compare_spec 0 a); case_bool_decide; try done; lia.
Qed.

Lemma ieee_lt_Infinity a :
  Z.abs a < 2 ^ 53 → IEEE.lt (IEEE.of_Z a) IEEE.Infinity = true.
Proof.
  intros. rewrite of_Z_canon by done.
  destruct (decide (a = 0)) as [->|Ha]; [done|]. by rewrite canon_finite.
Qed.

Lemma ieee_Infinity_lt x : IEEE.lt IEEE.Infinity x = false.
Proof. by destruct x as [| [] | |]. Qed.

Lemma ieee_to_Z_of_Z a : Z.abs a < 2 ^ 53 → IEEE.to_Z (IEEE.of_Z a) = Some a.
Proof.
  intros Ha. rewrite of_Z_canon by done.
  destruct (decide (a = 0)) as [->|Ha0]; [done|]. rewrite canon_finite by done.
  destruct (canon_mantissa (Z.abs a)) as (Hd & Hk & _); [lia|].
  unfold IEEE.to_Z. rewrite Hk.
  assert (cond_Zopp (bool_decide (a < 0)) (Z.abs a) = a) as Hs.
  { unfold cond_Zopp. case_bool_decide; lia. }
  set (s := bool_decide (a < 0)) in *. clearbody s.
  case_bool_decide as He.
  - replace (digits (Z.abs a)) with 53 by lia. change (2 ^ (53 - 53)) with 1.
    by rewrite !Z.mul_1_r, Hs.
  - replace (- (digits (Z.abs a) - 53)) with (53 - digits (Z.abs a)) by lia.
    assert (0 < 2 ^ (53 - digits (Z.abs a))) by (apply Z.pow_pos_nonneg; lia).
    rewrite Z.mod_mul, Z.div_mul by lia. rewrite bool_decide_eq_true_2 by done.
    by rewrite Hs.
Qed.

Lemma ieee_of_Z_finite a : Z.abs a < 2 ^ 53 → IEEE.of_Z a ≠ IEEE.Infinity.
Proof.
  intros Ha. rewrite of_Z_canon by done.
  destruct (decide (a = 0)) as [->|Ha0]; [done|]. by rewrite canon_finite.
Qed.

(** ** The list queue of numbers implements the interface *)

Lemma consistent_cons {A} (cmp : A → A → IEEE.number) a l :
  IEEE.consistent cmp (a :: l) → IEEE.consistent cmp l.
Proof.
  intros [Ht Hr]. split.
  - intros x y Hx Hy. apply Ht; by right.
  - intros x y z Hx Hy Hz. apply Hr; by right.
Qed.

Lemma consistent_perm {A} (cmp : A → A → IEEE.number) l l' :
  l ≡ₚ l' → IEEE.consistent cmp l → IEEE.consistent cmp l'.
Proof.
  intros Hp [Ht Hr]. split.
  - intros x y Hx Hy. apply Ht; by rewrite Hp.
  - intros x y z Hx Hy Hz. apply Hr; by rewrite Hp.
Qed.

Lemma ieee_extract_top_None {A} (cmp : A → A → IEEE.number) l :
  IEEE.extract_top cmp l = None → l = [].
Proof.
  destruct l as [|a l]; [done|]. simpl.
  destruct (IEEE.extract_top cmp l) as [[b rest]|]; [|done].
  by destruct (IEEE.ge0 (cmp a b)).
Qed.

Lemma ieee_extract_top_Some {A} (cmp : A → A → IEEE.number) l a r :
  IEEE.consistent cmp l →
  IEEE.extract_top cmp l = Some (a, r) →
  l ≡ₚ a :: r ∧ ∀ b, b ∈ l → IEEE.ge0 (cmp a b) = true.
Proof.
  revert a r. induction l as [|x l IH]; intros a r Hc; [done|]. simpl.
  assert (IEEE.ge0 (cmp x x) = true) as Hxx.
  { destruct (proj1 Hc x x) as [?|?]; (done || left). }
  destruct (IEEE.extract_top cmp l) as [[b rest]|] eqn:E.
  - destruct (IH _ _ (consistent_cons _ _ _ Hc) eq_refl) as [Hp Hb].
    assert (b ∈ x :: l) as Hbin by (right; rewrite Hp; left).
    destruct (IEEE.ge0 (cmp x b)) eqn:Hxb; intros [= <- <-].
    + split; [done|]. intros c Hin. apply elem_of_cons in Hin as Hin'.
      destruct Hin' as [->|Hin']; [done|].
      apply (proj2 Hc x b c); [left|done|done|done|by apply Hb].
    + split.
      * rewrite Hp. apply Permutation_swap.
      * intros c Hin. apply elem_of_cons in Hin as [->|Hin]; [|by apply Hb].
        destruct (proj1 Hc b x) as [?|?]; [done|left|done|congruence].
  - apply ieee_extract_top_None in E as ->. intros [= <- <-]. split; [done|].
    by intros c ->%list_elem_of_singleton.
Qed.

#[export, refine] Instance ieee_list_queue_laws {A} (cmp : A → A → IEEE.number) :
  IEEE.PriorityQueueLaws (IEEE.list_queue (A := A)) cmp := {|
  IEEE.pq_elems q := q.2;
  IEEE.pq_wf q := q.1 = cmp;
|}.
Proof.
  - done.
  - done.
  - done.
  - intros a q _. simpl. by rewrite Permutation_app_comm.
  - intros [c l] _. simpl. by destruct l.
  - intros [c l] _. simpl. destruct (IEEE.extract_top c l) as [[a r]|] eqn:E; [done|].
    intros _. by apply ieee_extract_top_None in E.
  - intros [c l] a [c' l'] Hc Hcons. simpl in *. subst c.
    destruct (IEEE.extract_top cmp l) as [[a0 r]|] eqn:E; [|done].
    intros [= -> <- ->].
    destruct (ieee_extract_top_Some _ _ _ _ Hcons E). done.
  - intros [c l] _ Hq. simpl in *.
    destruct (IEEE.extract_top c l) as [[a r]|] eqn:E; [done|].
    by apply ieee_extract_top_None in E.
Defined.

(** ** The queue of integer entries implements the interface *)

Lemma to_entry_exact v z : Z.abs z < 2 ^ 52 → to_entry (v, IEEE.of_Z z) = (v, z).
Proof. intros. unfold to_entry. simpl. rewrite ieee_to_Z_of_Z by lia. done. Qed.

Lemma exact_entry_eq a : exact_entry a → a = (a.1, IEEE.of_Z (to_entry a).2).
Proof.
  destruct a as [v x]. intros (z & Hz & Hx). simpl in Hx. subst x.
  by rewrite to_entry_exact.
Qed.

Lemma exact_comparator a b :
  exact_entry a → exact_entry b →
  IEEE.ge0 (IEEE.comparator a b) = bool_decide (0 ≤ comparator (to_entry a) (to_entry b)).
Proof.
  destruct a as [v x], b as [u y]. intros (z & Hz & Hx) (w & Hw & Hy).
  simpl in Hx, Hy. subst x y. rewrite !to_entry_exact by done. simpl.
  rewrite ieee_sub_exact, ieee_ge0_exact by lia. done.
Qed.

Lemma exact_consistent l : Forall exact_entry l → IEEE.consistent IEEE.comparator l.
Proof.
  intros Hl. rewrite Forall_forall in Hl. split.
  - intros a b Ha Hb. rewrite !exact_comparator by auto.
    rewrite !bool_decide_eq_true. apply comparator_total.
  - intros a b c Ha Hb Hc. rewrite !exact_comparator by auto.
    rewrite !bool_decide_eq_true. apply comparator_trans.
Qed.

Lemma extract_top_nonempty {A} (cmp : A → A → Z) l :
  l ≠ [] → is_Some (extract_top cmp l).
Proof.
  destruct l as [|a l]; [done|]. intros _. simpl.
  destruct (extract_top cmp l) as [[b rest]|]; [|by eexists].
  case_bool_decide; by eexists.
Qed.

Section ExactQueueLaws.
Context `{PQ64 : IEEE.PriorityQueue (Vertex * IEEE.number)}
        {PQL64 : IEEE.PriorityQueueLaws PQ64 IEEE.comparator}.

#[export] Instance exact_queue_laws :
  PriorityQueueLaws (exact_queue (PQ64 := PQ64)) comparator.
Proof.
  refine (Build_PriorityQueueLaws _ exact_queue comparator exact_elems exact_wf
            _ _ _ _ _ _ _ _).
  all: unfold exact_elems, exact_wf.
  - simpl. split; [apply IEEE.pq_new_wf|]. by rewrite IEEE.pq_new_elems.
  - simpl. by rewrite IEEE.pq_new_elems.
  - intros [v z] [q l] [Hwf Hex]. simpl in *. case_bool_decide as Hz; simpl; [|done].
    assert (Forall exact_entry ((v, IEEE.of_Z z) :: IEEE.pq_elems q)) as Hex'.
    { constructor; [|done]. by exists z. }
    split.
    + apply IEEE.pq_enq_wf; [done|]. by apply exact_consistent.
    + by rewrite IEEE.pq_enq_elems.
  - intros [v z] [q l] [Hwf Hex]. simpl in *. case_bool_decide as Hz; simpl.
    + rewrite IEEE.pq_enq_elems by done. rewrite fmap_cons, to_entry_exact by done. done.
    + rewrite (Permutation_app_comm l [(v, z)]). simpl. by rewrite Permutation_middle.
  - intros [q l] [Hwf Hex]. simpl in *. rewrite andb_true_iff, bool_decide_eq_true.
    rewrite (IEEE.pq_isEmpty_spec _ Hwf). split.
    + by intros [-> ->].
    + intros [Hq ->]%app_eq_nil. by apply fmap_nil_inv in Hq.
  - intros [q l] [Hwf Hex]. simpl in *.
    destruct (IEEE.pq_deq q) as [[a q1]|] eqn:Hd;
      destruct (extract_top comparator l) as [[b rest]|] eqn:Ht; try done.
    + by case_bool_decide.
    + intros _. rewrite (IEEE.pq_deq_None _ Hwf Hd).
      by rewrite (extract_top_None _ _ Ht).
  - intros [q l] a [q' l'] [Hwf Hex]. simpl in *.
    pose proof (exact_consistent _ Hex) as Hcons.
    assert (∀ a0 q1, IEEE.pq_deq q = Some (a0, q1) →
      (IEEE.pq_wf q1 ∧ Forall exact_entry (IEEE.pq_elems q1)) ∧
      to_entry <$> IEEE.pq_elems q ≡ₚ to_entry a0 :: (to_entry <$> IEEE.pq_elems q1) ∧
      ∀ b, b ∈ to_entry <$> IEEE.pq_elems q → 0 ≤ comparator (to_entry a0) b) as H64.
    { intros a0 q1 Hd.
      destruct (IEEE.pq_deq_Some _ _ _ Hwf Hcons Hd) as (Hwf1 & Hp & Hmax).
      assert (Forall exact_entry (a0 :: IEEE.pq_elems q1)) as Hex1 by by rewrite <- Hp.
      split_and!; [done|by eapply Forall_inv_tail|by rewrite Hp|].
      intros b (b0 & -> & Hb0)%list_elem_of_fmap.
      specialize (Hmax _ Hb0). rewrite exact_comparator in Hmax.
      - by apply bool_decide_eq_true in Hmax.
      - by eapply Forall_inv.
      - by eapply (proj1 (Forall_forall _ _) Hex). }
    assert (∀ b rest, extract_top comparator l = Some (b, rest) →
      l ≡ₚ b :: rest ∧ ∀ c, c ∈ l → 0 ≤ comparator b c) as Hside.
    { intros b rest. apply extract_top_Some; [apply comparator_total|apply comparator_trans]. }
    destruct (IEEE.pq_deq q) as [[a0 q1]|] eqn:Hd;
      destruct (extract_top comparator l) as [[b rest]|] eqn:Ht; try done.
    + destruct (H64 _ _ eq_refl) as (Hw1 & Hp1 & Hm1).
      destruct (Hside _ _ eq_refl) as (Hp2 & Hm2).
      case_bool_decide as Hc; intros [= <- <- <-]; cbn [fst snd].
      * split; [done|]. split; [by rewrite Hp1|].
        intros c [Hin|Hin]%elem_of_app; [by apply Hm1|].
        eapply comparator_trans; [exact Hc|by apply Hm2].
      * split; [done|]. split; [rewrite Hp2; by rewrite Permutation_middle|].
        assert (0 ≤ comparator b (to_entry a0)) as Hc'.
        { destruct (comparator_total b (to_entry a0)); done. }
        intros c [Hin|Hin]%elem_of_app; [|by apply Hm2].
        eapply comparator_trans; [exact Hc'|by apply Hm1].
    + destruct (H64 _ _ eq_refl) as (Hw1 & Hp1 & Hm1).
      apply extract_top_None in Ht as ->.
      intros [= <- <- <-]. cbn [fst snd]. rewrite !app_nil_r in *.
      done.
    + destruct (Hside _ _ eq_refl) as (Hp2 & Hm2).
      pose proof (IEEE.pq_deq_None _ Hwf Hd) as Hnil.
      intros [= <- <- <-]. cbn [fst snd]. rewrite Hnil. simpl.
      split; [by rewrite Hnil in Hex|]. done.
  - intros [q l] [Hwf Hex]. simpl in *. intros Hne.
    destruct (extract_top comparator l) as [[b rest]|] eqn:Ht.
    + destruct (IEEE.pq_deq q) as [[a0 q1]|]; [case_bool_decide|]; by eexists.
    + apply extract_top_None in Ht as ->. rewrite app_nil_r in Hne.
      destruct (IEEE.pq_deq_nonempty q Hwf) as [[a0 q1] ->]; [|by eexists].
      intros Hq. by rewrite Hq in Hne.
Defined.

End ExactQueueLaws.

(** ** Paths that use no edge twice *)

Lemma weight_abs p : Z.abs (weight p) ≤ total_weight p.
Proof.
  induction p as [|e p IH]; [done|]. rewrite weight_cons.
  change (total_weight (e :: p)) with (Z.abs (distance e) + total_weight p). lia.
Qed.

Lemma total_weight_nonneg es : 0 ≤ total_weight es.
Proof.
  induction es as [|e es IH]; [done|].
  change (total_weight (e :: es)) with (Z.abs (distance e) + total_weight es). lia.
Qed.

Lemma total_weight_submseteq p es : p ⊆+ es → total_weight p ≤ total_weight es.
Proof.
  induction 1 as [|e p es _ IH|e e' p|e p es _ IH|p1 p2 p3 _ IH1 _ IH2]; [done|..].
  - change (Z.abs (distance e) + total_weight p ≤ Z.abs (distance e) + total_weight es). lia.
  - change (Z.abs (distance e') + (Z.abs (distance e) + total_weight p) ≤
            Z.abs (distance e) + (Z.abs (distance e') + total_weight p)). lia.
  - change (total_weight p ≤ Z.abs (distance e) + total_weight es). lia.
  - lia.
Qed.

Lemma total_weight_elem e es : e ∈ es → Z.abs (distance e) ≤ total_weight es.
Proof.
  intros He. transitivity (total_weight [e]).
  - change (total_weight [e]) with (Z.abs (distance e) + 0). lia.
  - apply total_weight_submseteq, singleton_submseteq_l, He.
Qed.

Lemma backed_bound es s V v d : backed es s V v d → Z.abs d ≤ total_weight es.
Proof.
  intros (p & Hp & <- & Hnd & _). etrans; [apply weight_abs|].
  apply total_weight_submseteq, NoDup_submseteq; [done|]. by eapply is_path_edges.
Qed.

Lemma backed_mono es s V V' v d : V ⊆ V' → backed es s V v d → backed es s V' v d.
Proof.
  intros HV (p & Hp & Hw & Hnd & Hin). exists p. split_and!; [done..|].
  intros e He. apply HV. by apply Hin.
Qed.

Lemma backed_has_path es s V v d : backed es s V v d → has_path es s v d.
Proof. intros (p & Hp & Hw & _). by exists p. Qed.

(** The targets of a path whose edges leave [V] are in [V], the last one
    apart. *)
Lemma path_targets es (V : gset string) a p b :
  is_path es a p b → (∀ e, e ∈ p → name (from e) ∈ V) →
  ∀ e, e ∈ p → name (to e) ∈ V ∨ name (to e) = b.
Proof.
  revert a. induction p as [|e0 p IH]; intros a Hp HV e He.
  { by apply elem_of_nil in He. }
  destruct Hp as (_ & _ & Hp).
  apply elem_of_cons in He as [->|He].
  - destruct p as [|e1 p]; [by right|]. left.
    destruct Hp as (_ & <- & _). apply HV. right. left.
  - eapply IH; [done| |done]. intros e' He'. apply HV. by right.
Qed.

Lemma backed_extend es s (V : gset string) u d e :
  backed es s V (name u) d → e ∈ es → name (from e) = name u → name (to e) ∉ V →
  backed es s ({[name u]} ∪ V) (name (to e)) (d + distance e).
Proof.
  intros (p & Hp & Hw & Hnd & HV) He Hf Ht. exists (p ++ [e]). split_and!.
  - apply is_path_snoc; [by rewrite Hf|done].
  - rewrite weight_snoc. lia.
  - apply NoDup_app. split_and!; [done| |apply NoDup_singleton].
    intros e' He' ->%list_elem_of_singleton.
    destruct (path_targets _ _ _ _ _ Hp HV _ He') as [?|Heq]; [done|].
    apply Ht. rewrite Heq, <- Hf. by apply HV.
  - intros e' [He'|He']%elem_of_app.
    + apply elem_of_union_r. by apply HV.
    + apply list_elem_of_singleton in He'. subst e'.
      apply elem_of_union_l, elem_of_singleton. done.
Qed.

(** ** The constructor on integers and on numbers *)

Lemma of_edge_from es :
  map (λ e, name (IEEE.from e)) (of_edge <$> es) = map (λ e, name (from e)) es.
Proof. induction es as [|e es IH]; [done|]. simpl. by f_equal. Qed.

Lemma of_edge_to es :
  map (λ e, name (IEEE.to e)) (of_edge <$> es) = map (λ e, name (to e)) es.
Proof. induction es as [|e es IH]; [done|]. simpl. by f_equal. Qed.

Lemma sim_validateInput s es : IEEE.validateInput s (of_edge <$> es) = validateInput s es.
Proof.
  unfold IEEE.validateInput, validateInput. rewrite of_edge_from, of_edge_to.
  by destruct es.
Qed.

Lemma sim_register_edge nbs X e :
  IEEE.register_edge (fmap (M := list) of_edge <$> nbs, X) (of_edge e)
  = (fmap (M := list) of_edge <$> (register_edge (nbs, X) e).1, (register_edge (nbs, X) e).2).
Proof.
  unfold IEEE.register_edge, register_edge. simpl. rewrite lookup_fmap.
  destruct (nbs !! name (from e)) as [l|]; simpl; rewrite fmap_insert; [|done].
  by rewrite fmap_app.
Qed.

Lemma sim_register_edges es nbs X :
  foldl IEEE.register_edge (fmap (M := list) of_edge <$> nbs, X) (of_edge <$> es)
  = (fmap (M := list) of_edge <$> (foldl register_edge (nbs, X) es).1,
     (foldl register_edge (nbs, X) es).2).
Proof.
  revert nbs X. induction es as [|e es IH]; intros nbs X; [done|].
  rewrite fmap_cons. cbn [foldl]. rewrite sim_register_edge.
  destruct (register_edge (nbs, X) e) as [nbs' X']. apply IH.
Qed.

Lemma sim_init_distances X : IEEE.init_distances X = of_number <$> init_distances X.
Proof.
  assert (IEEE.init_distances X = gset_to_gmap IEEE.Infinity X) as ->.
  { unfold IEEE.init_distances.
    apply (set_fold_ind_L (λ m Y, m = gset_to_gmap IEEE.Infinity Y)).
    - by rewrite gset_to_gmap_empty.
    - intros x Y m _ ->. by rewrite gset_to_gmap_union_singleton. }
  apply map_eq. intros v. rewrite lookup_fmap, init_distances_lookup, lookup_gset_to_gmap.
  unfold guard. by destruct (decide (v ∈ X)).
Qed.

(** ** The run on integers is the run on numbers *)

Section Simulation.
Context `{PQ64 : IEEE.PriorityQueue (Vertex * IEEE.number)}
        {PQL64 : IEEE.PriorityQueueLaws PQ64 IEEE.comparator}.

Local Arguments IEEE.of_Z : simpl never.
Local Arguments IEEE.add : simpl never.
Local Arguments IEEE.lt : simpl never.
Local Arguments Z.pow : simpl never.

Lemma of_number_lt a b :
  Z.abs a < 2 ^ 53 → (∀ y, b = Num y → Z.abs y < 2 ^ 53) →
  IEEE.lt (IEEE.of_Z a) (of_number b) = number_lt (Num a) b.
Proof.
  intros Ha Hb. destruct b as [y|]; simpl.
  - apply ieee_lt_exact; [done|]. by apply Hb.
  - by apply ieee_lt_Infinity.
Qed.

(** One pass through the body of the [for] loop. *)
Lemma relaxed_sim s es u d vis e g g' (q q' : pq (exact_queue (PQ64 := PQ64))) :
  exact_sums es → e ∈ es → name (from e) = name u →
  backed es s vis (name u) d → exact_wf q →
  (∀ v b, bestDistances g !! v = Some (Num b) → Z.abs b ≤ total_weight es) →
  relaxed u d vis e (g, q) (g', q') →
  IEEE.relax u (IEEE.of_Z d) vis (of_graph g, q.1) (of_edge e) = Ret (of_graph g', q'.1) ∧
  q'.2 = q.2 ∧
  (∀ v b, bestDistances g' !! v = Some (Num b) → Z.abs b ≤ total_weight es) ∧
  (∀ x, x ∈ exact_elems q' →
     x ∈ exact_elems q ∨ x = (to e, d + distance e) ∧ name (to e) ∉ vis).
Proof.
  unfold exact_sums. intros Hes He Hf Hback [Hwf _] Hbest Hrel.
  pose proof (backed_bound _ _ _ _ _ Hback) as Hd.
  pose proof (total_weight_elem _ _ He) as Hw.
  assert (name (to e) ∉ vis → Z.abs (d + distance e) ≤ total_weight es) as Halt.
  { intros Hv. eapply backed_bound, backed_extend; done. }
  unfold IEEE.relax. cbn [IEEE.to IEEE.distance of_edge].
  inversion Hrel as [? ? Hv|? ? b Hv Hb Hle|? ? b Hv Hb Hlt]; subst.
  - rewrite bool_decide_eq_true_2 by done. split_and!; [done..|]. by left.
  - rewrite bool_decide_eq_false_2 by done. specialize (Halt Hv).
    cbn [IEEE.bestDistances of_graph]. rewrite lookup_fmap, Hb.
    cbn [fmap option_fmap option_map nonnull mbind outcome_bind].
    rewrite ieee_add_exact by lia.
    rewrite of_number_lt; [|lia|intros y [= <-]; specialize (Hbest _ _ Hb); lia].
    simpl. rewrite bool_decide_eq_false_2 by lia. split_and!; [done..|]. by left.
  - rewrite bool_decide_eq_false_2 by done. specialize (Halt Hv).
    cbn [IEEE.bestDistances of_graph]. rewrite lookup_fmap, Hb.
    cbn [fmap option_fmap option_map nonnull mbind outcome_bind].
    rewrite ieee_add_exact by lia.
    rewrite of_number_lt; [|lia|intros y ->; specialize (Hbest _ _ Hb); lia].
    rewrite Hlt. unfold improve, of_graph.
    cbn [startV edges bestDistances prevVertex neighbours].
    rewrite fmap_insert. cbn [of_number].
    cbn [pq_enq exact_queue fst snd]. rewrite bool_decide_eq_true_2 by lia.
    split_and!; [done|done| |].
    + intros v b0. destruct (decide (name (to e) = v)) as [<-|Hne].
      * rewrite lookup_insert_eq. intros [= <-]. done.
      * rewrite lookup_insert_ne by done. apply Hbest.
    + intros x. unfold exact_elems. destruct q as [q64 side]. cbn [fst snd] in *.
      rewrite IEEE.pq_enq_elems, fmap_cons, to_entry_exact by (done || lia).
      intros [->|Hin]%elem_of_cons; [by right|by left].
Qed.

Lemma sim_for_of s es u d vis :
  exact_sums es → backed es s vis (name u) d →
  ∀ ns g (q : pq (exact_queue (PQ64 := PQ64))),
    (∀ e, e ∈ ns → e ∈ es ∧ name (from e) = name u) →
    Inv s es (mkState g q vis) → fin_le (bestDistances g) (name u) d →
    exact_inner s es u vis g q →
    ∃ g' q', for_of (relax u d vis) ns (g, q) = Ret (g', q') ∧
      for_of (IEEE.relax u (IEEE.of_Z d) vis) (of_edge <$> ns) (of_graph g, q.1)
      = Ret (of_graph g', q'.1) ∧
      exact_inner s es u vis g' q'.
Proof.
  intros Hes Hback. induction ns as [|e ns IH]; intros g q Hns HI Hu HJ.
  { exists g, q. done. }
  destruct (Hns e) as [He Hf]; [left|].
  destruct HJ as (Hside & Hq & Hbest).
  destruct (relax_relaxed u d vis g q e) as ([g1 q1] & Hr & Hrel).
  { intros _. apply (inv_dom _ _ _ HI). apply elem_of_endpoints. eauto. }
  destruct (relaxed_Inv _ _ _ _ _ _ _ _ _ _ HI (backed_has_path _ _ _ _ _ Hback) Hu He Hf Hrel)
    as [HI1 Hu1].
  destruct (relaxed_sim s es u d vis e g g1 q q1 Hes He Hf Hback (inv_wf _ _ _ HI) Hbest Hrel)
    as (Hsim & Hside1 & Hbest1 & Hel).
  destruct (IH g1 q1) as (g' & q' & Hfor & Hfor64 & HJ'); [|done|done| |].
  { intros e' He'. apply Hns. by right. }
  { split_and!; [by rewrite Hside1| |done].
    intros x dx [Hin|[[= -> ->] Hv]]%Hel; [by apply Hq|].
    by apply backed_extend. }
  exists g', q'. split_and!; [|by rewrite fmap_cons; cbn [for_of]; rewrite Hsim|done].
  cbn [for_of]. by rewrite Hr.
Qed.

(** [deq] on a queue whose list is empty. *)
Lemma deq_sim (q q0 : pq (exact_queue (PQ64 := PQ64))) u d :
  exact_wf q → q.2 = [] → pq_deq q = Some ((u, d), q0) →
  IEEE.pq_deq q.1 = Some ((u, IEEE.of_Z d), q0.1) ∧ q0.2 = [].
Proof.
  destruct q as [q64 side]. intros [Hwf Hex] Hside. simpl in *. subst side. simpl.
  destruct (IEEE.pq_deq q64) as [[a q1]|] eqn:Hd; [|done].
  intros [= <- <- <-]. split; [|done].
  destruct (IEEE.pq_deq_Some _ _ _ Hwf (exact_consistent _ Hex) Hd) as (_ & Hp & _).
  assert (exact_entry a) as Hexa.
  { apply (proj1 (Forall_forall _ _) Hex). rewrite Hp. left. }
  by rewrite (exact_entry_eq _ Hexa) at 1.
Qed.

Lemma sim_iteration s es (st : loop_state (PQ := exact_queue (PQ64 := PQ64))) :
  exact_sums es → Inv s es st → exact_state s es st →
  pq_isEmpty (queue st) = false →
  ∃ st', iteration st = Ret st' ∧ IEEE.iteration (of_state st) = Ret (of_state st') ∧
         Inv s es st' ∧ exact_state s es st'.
Proof.
  intros Hes HI [Hside Hq Hbest] Hne.
  destruct (iteration_Inv _ _ _ HI Hne) as (st' & Hit & HI' & _).
  exists st'. split; [done|]. split_and!; [|done|].
  all: destruct (iteration_step_of _ _ _ _ HI Hit)
    as [u d q0 Hdeq Hleaf ->|u d q0 g' q' Hdeq Hnode Hfor ->].
  all: destruct (Inv_deq _ _ _ _ _ _ HI Hdeq) as (HI0 & Hperm & _).
  all: destruct (deq_sim _ _ _ _ (inv_wf _ _ _ HI) Hside Hdeq) as [Hdeq64 Hside0].
  all: assert (backed es s (visited st) (name u) d) as Hback
    by (apply Hq; change (exact_elems (queue st)) with (pq_elems (queue st));
        rewrite Hperm; left).
  all: assert (∀ x dx, (x, dx) ∈ exact_elems q0 → backed es s (visited st) (name x) dx)
    as Hq0 by (intros x dx Hin; apply Hq;
        change (exact_elems (queue st)) with (pq_elems (queue st));
        rewrite Hperm; by right).
  all: assert (fin_le (bestDistances (graph st)) (name u) d) as Hu
    by (apply (inv_queue _ _ _ HI); rewrite Hperm; left).
  all: assert (exact_inner s es u (visited st) (graph st) q0) as HJ
    by (split_and!; [done| |done];
        intros x dx Hin; eapply backed_mono; [|by apply Hq0]; set_solver).
  - unfold IEEE.iteration. cbn [IEEE.queue IEEE.graph IEEE.visited of_state].
    rewrite Hdeq64. cbn [IEEE.neighbours of_graph].
    rewrite lookup_fmap, (inv_nbs _ _ _ HI), decide_True by done. done.
  - unfold IEEE.iteration. cbn [IEEE.queue IEEE.graph IEEE.visited of_state].
    rewrite Hdeq64. cbn [IEEE.neighbours of_graph].
    rewrite lookup_fmap, (inv_nbs _ _ _ HI), decide_False by done.
    cbn [fmap option_fmap option_map nonnull mbind outcome_bind].
    destruct (sim_for_of s es u d (visited st) Hes Hback (out_edges es (name u))
                (graph st) q0) as (g1 & q1 & Hfor1 & Hfor64 & _); [|done..|].
    { intros e [? ?]%out_edges_spec. done. }
    rewrite Hfor in Hfor1. injection Hfor1 as <- <-.
    rewrite Hfor64. done.
  - split; simpl; done.
  - destruct (sim_for_of s es u d (visited st) Hes Hback (out_edges es (name u))
                (graph st) q0) as (g1 & q1 & Hfor1 & _ & HJ1); [|done..|].
    { intros e [? ?]%out_edges_spec. done. }
    rewrite Hfor in Hfor1. injection Hfor1 as <- <-.
    destruct HJ1 as (? & ? & ?). split; simpl; done.
Qed.

Lemma sim_loop s es fuel (st : loop_state (PQ := exact_queue (PQ64 := PQ64))) :
  exact_sums es → Inv s es st → exact_state s es st →
  IEEE.loop fuel (of_state st) = outcome_map of_graph (loop fuel st) ∧
  ∀ g, loop fuel st = Ret g →
    ∀ v d, bestDistances g !! v = Some (Num d) → Z.abs d ≤ total_weight es.
Proof.
  intros Hes. revert st. induction fuel as [|fuel IH]; intros st HI HE.
  all: assert (IEEE.pq_isEmpty (IEEE.queue (of_state st)) = pq_isEmpty (queue st)) as Hemp
    by (cbn [IEEE.queue of_state pq_isEmpty exact_queue];
        rewrite (exact_side _ _ _ HE); by rewrite andb_true_r).
  all: cbn [IEEE.loop loop]; rewrite Hemp.
  all: destruct (pq_isEmpty (queue st)) eqn:E.
  - split; [done|]. intros g [= <-]. apply (exact_best _ _ _ HE).
  - done.
  - split; [done|]. intros g [= <-]. apply (exact_best _ _ _ HE).
  - destruct (sim_iteration _ _ _ Hes HI HE E) as (st' & -> & -> & HI' & HE').
    cbn [mbind outcome_bind]. by apply IH.
Qed.

Lemma init_exact_state s es :
  exact_state s es (init_state (PQ := exact_queue (PQ64 := PQ64)) s es).
Proof.
  destruct (init_graph_fields s es) as (_ & _ & _ & _ & H5).
  destruct (init_queue_elems (PQ := exact_queue (PQ64 := PQ64)) s) as [_ Hel].
  split.
  - done.
  - intros x d. unfold init_state. cbn [queue visited].
    change (exact_elems ?q) with (pq_elems q). rewrite Hel.
    intros [= -> ->]%list_elem_of_singleton. exists []. split_and!; [done..|constructor|].
    intros e He. by apply elem_of_nil in He.
  - intros v d. unfold init_state. cbn [graph]. rewrite H5.
    pose proof (total_weight_nonneg es).
    destruct (decide (v = name s)); [intros [= <-]; lia|].
    by destruct (decide (v ∈ endpoints es)).
Qed.

Lemma of_state_init s es :
  of_state (init_state (PQ := exact_queue (PQ64 := PQ64)) s es)
  = IEEE.mkState
      (IEEE.mkGraph s (of_edge <$> es)
         (<[name s := IEEE.zero]>
            (IEEE.init_distances (foldl register_edge (∅, ∅) es).2))
         ∅ (fmap (M := list) of_edge <$> (foldl register_edge (∅, ∅) es).1))
      (IEEE.pq_enq (s, IEEE.zero) (IEEE.pq_new IEEE.comparator)) ∅.
Proof.
  unfold of_state, init_state, init_graph.
  destruct (foldl register_edge (∅, ∅) es) as [nbs allV].
  cbn [graph queue visited fst snd]. unfold of_graph.
  cbn [startV edges bestDistances prevVertex neighbours].
  by rewrite fmap_insert, sim_init_distances.
Qed.

(** On an edge list with [exact_sums] the constructor of the module [IEEE]
    returns the graph of numbers for the graph that the constructor on
    integers returns, with the queue of integer entries. *)
Lemma exact_run s es fuel :
  exact_sums es →
  IEEE.new_Graph fuel s (of_edge <$> es)
  = outcome_map of_graph (new_Graph (PQ := exact_queue (PQ64 := PQ64)) fuel s es) ∧
  ∀ g, new_Graph (PQ := exact_queue (PQ64 := PQ64)) fuel s es = Ret g →
    ∀ v d, bestDistances g !! v = Some (Num d) → Z.abs d ≤ total_weight es.
Proof.
  intros Hes. rewrite new_Graph_unfold. unfold IEEE.new_Graph.
  rewrite sim_validateInput, validateInput_spec.
  destruct (decide (es = [])); [done|].
  destruct (decide (name s ∈ endpoints es)) as [Hs|]; [|done].
  cbn [mbind outcome_bind].
  pose proof (sim_register_edges es ∅ ∅) as Hreg. rewrite fmap_empty in Hreg.
  rewrite Hreg. unfold IEEE.dijkstraShortPathAlgo. cbn [IEEE.startV].
  rewrite <- of_state_init.
  apply (sim_loop s); [done|by apply init_Inv|apply init_exact_state].
Qed.

End Simulation.

(** ** The queries on numbers *)

Lemma ieee_print_walk_walk g fuel :
  ∀ o acc str,
    match IEEE.walk fuel g o acc with
    | Ret l => ∃ pre, l = pre ++ acc ∧
                 IEEE.print_walk fuel g o str = Ret (render_path pre str)
    | Diverge => IEEE.print_walk fuel g o str = Diverge
    | _ => False
    end.
Proof.
  induction fuel as [|fuel IH]; intros [p|] acc str; simpl.
  - done.
  - by exists [].
  - specialize (IH (IEEE.prevVertex g !! name p) (p :: acc)
                  ("Vertex(" +:+ name p +:+ ") -> " +:+ str)).
    destruct (IEEE.walk fuel g _ _) as [l| | |]; try done.
    destruct IH as (pre & -> & ->). exists (pre ++ [p]). split.
    + by rewrite <- app_assoc.
    + unfold render_path. by rewrite foldr_app.
  - by exists [].
Qed.

(** [printPathTo] prints the vertices that [pathTo] lists. *)
Lemma ieee_printPathTo_pathTo toString fuel g v :
  IEEE.printPathTo toString fuel g v =
    (IEEE.pathTo fuel g v ≫=
       λ o : option (list Vertex), Ret (option_map (IEEE.render toString g v) o)).
Proof.
  unfold IEEE.printPathTo, IEEE.pathTo, IEEE.render. case_bool_decide as Hv; [done|].
  destruct (IEEE.prevVertex g !! name v) as [p|]; [|done].
  pose proof (ieee_print_walk_walk g fuel (Some p) [v]
    ("Vertex(" +:+ name v +:+ ") - total "
     +:+ IEEE.render_lookup toString (IEEE.bestDistances g !! name v)
     +:+ " away from source")) as H.
  destruct (IEEE.walk fuel g (Some p) [v]) as [l| | |]; try done.
  - destruct H as (pre & -> & ->). simpl. by rewrite removelast_last.
  - by rewrite H.
Qed.

Lemma of_graph_walk g fuel o acc : IEEE.walk fuel (of_graph g) o acc = walk fuel g o acc.
Proof.
  revert o acc. induction fuel as [|fuel IH]; intros [p|] acc; simpl; done.
Qed.

Lemma of_graph_pathTo g fuel v : IEEE.pathTo fuel (of_graph g) v = pathTo fuel g v.
Proof.
  unfold IEEE.pathTo, pathTo. cbn [IEEE.startV IEEE.prevVertex of_graph].
  case_bool_decide; [done|]. destruct (prevVertex g !! name v); [|done].
  by rewrite of_graph_walk.
Qed.

Lemma of_graph_shortestPathTo g v :
  IEEE.shortestPathTo (of_graph g) v = of_number <$> shortestPathTo g v.
Proof. apply lookup_fmap. Qed.

Lemma of_graph_pred_path g v p :
  pred_path g v p → IEEE.pred_path (of_graph g) v (of_edge <$> p).
Proof.
  induction 1 as [Hs|v u e p Hp He Hf Ht _ IH].
  - by apply (IEEE.pred_source (of_graph g)).
  - rewrite fmap_app. apply (IEEE.pred_link (of_graph g) v u (of_edge e)); try done.
    cbn [IEEE.edges of_graph]. apply list_elem_of_fmap. eauto.
Qed.

(** The pair of a path and a vertex list that [pathTo] and [printPathTo]
    return. *)
Lemma ieee_queries toString fuel g v l :
  IEEE.pathTo fuel g v = Ret (Some l) →
  IEEE.pathTo fuel g v = Ret (Some l) ∧
  IEEE.printPathTo toString fuel g v = Ret (Some (IEEE.render toString g v l)).
Proof. intros Hl. split; [done|]. by rewrite ieee_printPathTo_pathTo, Hl. Qed.

(** * Sums, as the numbers compute them *)

Section ExactSums.
Context `{PQ64 : IEEE.PriorityQueue (Vertex * IEEE.number)}
        {PQL64 : IEEE.PriorityQueueLaws PQ64 IEEE.comparator}.

(** A graph of numbers constructed from integer weights with [exact_sums] is
    the graph that the constructor on integers returns. *)
Lemma constructs_exact s es g64 :
  exact_sums es → IEEE.constructs s (of_edge <$> es) g64 →
  ∃ g, constructs (PQ := exact_queue (PQ64 := PQ64)) s es g ∧ g64 = of_graph g ∧
       ∀ v d, bestDistances g !! v = Some (Num d) → Z.abs d < 2 ^ 52.
Proof.
  intros Hes [fuel Hc]. destruct (exact_run s es fuel Hes) as [Heq Hb].
  rewrite Heq in Hc.
  destruct (new_Graph fuel s es) as [g| | |] eqn:E; try done.
  injection Hc as <-. exists g. split_and!; [by exists fuel|done|].
  intros v d Hd. specialize (Hb _ eq_refl _ _ Hd). unfold exact_sums in Hes. lia.
Qed.

(** C1 (as amended): for a graph constructed from a source and an edge list
    with non-negative integer weights that sum up to less than 2^52,
    [shortestPathTo] of a vertex reachable from the source is the minimum of
    the summed edge weights over all paths from the source to it, the
    distance of the source is 0, and a vertex that occurs in some edge but is
    not reachable keeps the distance [Infinity]. *)
Theorem shortest_distance_is_minimum (s : Vertex) (es : list Edge) (g : IEEE.Graph) :
  nonneg es → exact_sums es → IEEE.constructs s (of_edge <$> es) g →
  IEEE.shortestPathTo g s = Some IEEE.zero ∧
  ∀ v : Vertex,
    (reachable es (name s) (name v) →
       ∃ x d, IEEE.shortestPathTo g v = Some x ∧ IEEE.to_Z x = Some d ∧
              is_shortest es (name s) (name v) d) ∧
    (name v ∈ endpoints es → ¬ reachable es (name s) (name v) →
       IEEE.shortestPathTo g v = Some IEEE.Infinity).
Proof.
  intros Hnn Hes Hc. destruct (constructs_exact _ _ _ Hes Hc) as (g0 & Hc0 & -> & Hb).
  destruct (exact_shortest_distance s es g0 Hnn Hc0) as [H0 Hv].
  split.
  - by rewrite of_graph_shortestPathTo, H0.
  - intros v. destruct (Hv v) as [Hr Hu]. split.
    + intros Hreach. destruct (Hr Hreach) as (d & Hd & Hmin).
      exists (IEEE.of_Z d), d. rewrite of_graph_shortestPathTo, Hd.
      split_and!; [done| |done]. apply ieee_to_Z_of_Z. specialize (Hb _ _ Hd). lia.
    + intros Hin Hnr. by rewrite of_graph_shortestPathTo, (Hu Hin Hnr).
Qed.

(** C2 (as amended): for a graph constructed from non-negative integer
    weights that sum up to less than 2^52 and a vertex [v] reachable from the
    source, [pathTo] returns a sequence of vertices that starts with the
    source, ends with [v], joins every two neighbours by an edge of the
    input, and whose edges sum up to [shortestPathTo v]; for the source
    itself the sequence is [[source]].  [printPathTo] prints that
    sequence. *)
Theorem path_to_reachable_vertex (s : Vertex) (es : list Edge) (g : IEEE.Graph) :
  nonneg es → exact_sums es → IEEE.constructs s (of_edge <$> es) g →
  (∀ toString fuel,
     IEEE.pathTo fuel g s = Ret (Some [s]) ∧
     IEEE.printPathTo toString fuel g s = Ret (Some (IEEE.render toString g s [s]))) ∧
  ∀ v : Vertex, reachable es (name s) (name v) →
    ∃ p, (∀ toString fuel, (length p ≤ fuel)%nat →
            IEEE.pathTo fuel g v = Ret (Some (vertices_of s p)) ∧
            IEEE.printPathTo toString fuel g v
            = Ret (Some (IEEE.render toString g v (vertices_of s p)))) ∧
         head (vertices_of s p) = Some s ∧
         last (vertices_of s p) = Some v ∧
         consecutive es (vertices_of s p) ∧
         is_path es (name s) p (name v) ∧
         ∃ x, IEEE.shortestPathTo g v = Some x ∧ IEEE.to_Z x = Some (weight p).
Proof.
  intros Hnn Hes Hc. destruct (constructs_exact _ _ _ Hes Hc) as (g0 & Hc0 & -> & Hb).
  destruct (exact_path_to_reachable_vertex s es g0 Hnn Hc0) as [H0 Hv].
  split.
  - intros toString fuel. apply ieee_queries. rewrite of_graph_pathTo. apply H0.
  - intros v Hreach.
    destruct (Hv v Hreach) as (p & Hq & Hhead & Hlast & Hcons & Hpath & Hd).
    exists p. split_and!; [|done..|].
    + intros toString fuel Hfuel. apply ieee_queries. rewrite of_graph_pathTo.
      by apply Hq.
    + exists (IEEE.of_Z (weight p)). rewrite of_graph_shortestPathTo, Hd.
      split; [done|]. apply ieee_to_Z_of_Z. specialize (Hb _ _ Hd). lia.
Qed.

(** C5 (as amended): in a graph constructed from non-negative integer weights
    that sum up to less than 2^52, the source has no predecessor entry, and
    following the predecessor map from a reachable vertex other than the
    source reaches the source after finitely many steps, along edges whose
    weights sum up to the best distance of the vertex. *)
Theorem predecessor_walk_reaches_source (s : Vertex) (es : list Edge) (g : IEEE.Graph) :
  nonneg es → exact_sums es → IEEE.constructs s (of_edge <$> es) g →
  IEEE.prevVertex g !! name s = None ∧
  ∀ v : Vertex, reachable es (name s) (name v) → name v ≠ name s →
    is_Some (IEEE.prevVertex g !! name v) ∧
    ∃ p x, IEEE.pred_path g v (of_edge <$> p) ∧
           IEEE.bestDistances g !! name v = Some x ∧ IEEE.to_Z x = Some (weight p).
Proof.
  intros Hnn Hes Hc. destruct (constructs_exact _ _ _ Hes Hc) as (g0 & Hc0 & -> & Hb).
  destruct (exact_predecessor_walk s es g0 Hnn Hc0) as [H0 Hv].
  split; [done|]. intros v Hreach Hne.
  destruct (Hv v Hreach Hne) as (Hp & p & Hpp & Hd). split; [done|].
  exists p, (IEEE.of_Z (weight p)). split_and!.
  - by apply of_graph_pred_path.
  - cbn [IEEE.bestDistances of_graph]. by rewrite lookup_fmap, Hd.
  - apply ieee_to_Z_of_Z. specialize (Hb _ _ Hd). lia.
Qed.

(** X3: in a graph constructed from integer weights, negative ones as well,
    whose absolute values sum up to less than 2^52, every distance other
    than [Infinity] is the weight of a path of input edges from the source
    to the vertex. *)
Theorem finite_distance_has_path (s : Vertex) (es : list Edge) (g : IEEE.Graph) :
  exact_sums es → IEEE.constructs s (of_edge <$> es) g →
  ∀ (v : Vertex) x, IEEE.shortestPathTo g v = Some x → x ≠ IEEE.Infinity →
    ∃ p, is_path es (name s) p (name v) ∧ IEEE.to_Z x = Some (weight p).
Proof.
  intros Hes Hc v x Hx Hfin.
  destruct (constructs_exact _ _ _ Hes Hc) as (g0 & Hc0 & -> & Hb).
  rewrite of_graph_shortestPathTo in Hx.
  destruct (shortestPathTo g0 v) as [[d|]|] eqn:Hd; simplify_eq/=.
  destruct (exact_finite_distance_has_path s es g0 Hc0 v d Hd) as (p & Hp & <-).
  exists p. split; [done|]. apply ieee_to_Z_of_Z. specialize (Hb _ _ Hd). lia.
Qed.

(** X9: in a graph constructed from non-negative integer weights that sum up
    to less than 2^52 the test [altDist < bestDistance] of the algorithm
    fails for every edge: no edge can improve a distance any more.  When the
    [from] vertex of the edge has a distance other than [Infinity], the
    distance of its [to] vertex is at most that distance plus the weight of
    the edge. *)
Theorem no_edge_is_tense (s : Vertex) (es : list Edge) (g : IEEE.Graph) :
  nonneg es → exact_sums es → IEEE.constructs s (of_edge <$> es) g →
  ∀ e, e ∈ es →
    ∃ x y, IEEE.shortestPathTo g (from e) = Some x ∧
           IEEE.shortestPathTo g (to e) = Some y ∧
           IEEE.lt (IEEE.add x (IEEE.distance (of_edge e))) y = false ∧
           (x ≠ IEEE.Infinity →
              ∃ d d', IEEE.to_Z x = Some d ∧ IEEE.to_Z y = Some d' ∧
                      d' ≤ d + distance e).
Proof.
  intros Hnn Hes Hc e He.
  destruct (constructs_exact _ _ _ Hes Hc) as (g0 & Hc0 & -> & Hb).
  pose proof (total_weight_elem _ _ He) as Hw. unfold exact_sums in Hes.
  destruct (constructs_Inv _ _ _ Hc0) as (_ & _ & st & <- & HI & _).
  destruct (proj2 (inv_dom _ _ _ HI (name (from e)))) as [bx Hx].
  { apply elem_of_endpoints. eauto. }
  rewrite !of_graph_shortestPathTo. unfold shortestPathTo. rewrite Hx.
  destruct bx as [d|].
  - destruct (exact_no_edge_is_tense s es (graph st) Hnn Hc0 e d He Hx) as (d' & Hy & Hle).
    unfold shortestPathTo in Hy. rewrite Hy.
    pose proof (Hb _ _ Hx). pose proof (Hb _ _ Hy).
    assert (0 ≤ d).
    { destruct (exact_finite_distance_has_path s es (graph st) Hc0 (from e) d Hx)
        as (p & Hp & <-). eapply weight_nonneg; [done|]. by eapply is_path_edges. }
    assert (0 ≤ distance e) by by eapply (proj1 (Forall_forall _ _) Hnn).
    exists (IEEE.of_Z d), (IEEE.of_Z d'). split_and!; [done..| |].
    + cbn [IEEE.distance of_edge]. rewrite ieee_add_exact, ieee_lt_exact by lia.
      apply bool_decide_eq_false. lia.
    + intros _. exists d, d'. by rewrite !ieee_to_Z_of_Z by lia.
  - destruct (proj2 (inv_dom _ _ _ HI (name (to e)))) as [by_ Hy].
    { apply elem_of_endpoints. eauto. }
    rewrite Hy. exists IEEE.Infinity, (of_number by_). split_and!; [done..| |done].
    cbn [IEEE.distance of_edge of_number].
    rewrite of_Z_canon by lia. destruct (decide (distance e = 0)) as [->|Hne].
    + apply ieee_Infinity_lt.
    + rewrite canon_finite by done. apply ieee_Infinity_lt.
Qed.

(** X10: in a graph constructed from non-negative integer weights that sum up
    to less than 2^52 every predecessor link is the last edge of a shortest
    path: the distance of a vertex is the sum of the distance of its
    predecessor and the weight of an input edge between the two, and the sum
    is exact. *)
Theorem predecessor_link_is_tight (s : Vertex) (es : list Edge) (g : IEEE.Graph) :
  nonneg es → exact_sums es → IEEE.constructs s (of_edge <$> es) g →
  ∀ (v u : Vertex), IEEE.prevVertex g !! name v = Some u →
    ∃ e x du, e ∈ es ∧ from e = u ∧ to e = v ∧
              IEEE.shortestPathTo g u = Some x ∧
              IEEE.shortestPathTo g v = Some (IEEE.add x (IEEE.distance (of_edge e))) ∧
              IEEE.to_Z x = Some du ∧
              IEEE.to_Z (IEEE.add x (IEEE.distance (of_edge e))) = Some (du + distance e).
Proof.
  intros Hnn Hes Hc v u Hp.
  destruct (constructs_exact _ _ _ Hes Hc) as (g0 & Hc0 & -> & Hb).
  destruct (exact_predecessor_link s es g0 Hnn Hc0 v u Hp)
    as (e & du & He & Hf & Ht & Hu & Hv).
  pose proof (total_weight_elem _ _ He) as Hw. unfold exact_sums in Hes.
  pose proof (Hb _ _ Hu). pose proof (Hb _ _ Hv).
  exists e, (IEEE.of_Z du), du. rewrite !of_graph_shortestPathTo, Hu, Hv.
  cbn [IEEE.distance of_edge]. rewrite ieee_add_exact by lia.
  split_and!; [done..| |]; apply ieee_to_Z_of_Z; lia.
Qed.

(** X13: on a non-empty list of edges with integer weights whose absolute
    values sum up to less than 2^52 and that mentions the source, the
    constructor on numbers returns a graph, for every queue that meets the
    contract; when no weight is negative it does so within one iteration of
    the [while] loop per edge plus one. *)
Theorem construction_returns_on_exact_input (s : Vertex) (es : list Edge) :
  es ≠ [] → exact_sums es → name s ∈ endpoints es →
  (∃ fuel g, ∀ fuel', (fuel ≤ fuel')%nat →
     IEEE.new_Graph fuel' s (of_edge <$> es) = Ret g) ∧
  (nonneg es →
     ∃ g, ∀ fuel, (S (length es) ≤ fuel)%nat →
       IEEE.new_Graph fuel s (of_edge <$> es) = Ret g).
Proof.
  intros Hne Hes Hs. split.
  - destruct (new_Graph_total (PQ := exact_queue (PQ64 := PQ64)) s es Hne Hs)
      as (fuel & g & Hg).
    exists fuel, (of_graph g). intros fuel' Hle.
    by rewrite (proj1 (exact_run s es fuel' Hes)), Hg.
  - intros Hnn.
    destruct (new_Graph_bound (PQ := exact_queue (PQ64 := PQ64)) s es Hne Hnn Hs)
      as [g Hg].
    exists (of_graph g). intros fuel Hle.
    rewrite (proj1 (exact_run s es fuel Hes)).
    rewrite new_Graph_unfold in *. rewrite decide_False, decide_True in * by done.
    by rewrite (loop_fuel_mono _ _ _ _ Hg Hle).
Qed.

End ExactSums.

(** * The predecessor map, for every weight and every queue *)

(** A property preserved by the body of a [for] loop holds when the loop
    returns. *)
Lemma for_of_invariant {A S} (body : S → A → outcome S) (J : S → Prop) xs :
  (∀ acc x acc', x ∈ xs → J acc → body acc x = Ret acc' → J acc') →
  ∀ acc acc', J acc → for_of body xs acc = Ret acc' → J acc'.
Proof.
  induction xs as [|x xs IH]; intros Hbody acc acc' HJ; simpl.
  - by intros [= <-].
  - destruct (body acc x) as [acc1| | |] eqn:Hb; try done. cbn [mbind outcome_bind].
    apply IH.
    + intros a y a' Hy. apply Hbody. by right.
    + eapply Hbody; [left|done..].
Qed.

Lemma ieee_lt_below x y : IEEE.lt x y = true → IEEE.lt x IEEE.Infinity = true.
Proof. destruct x as [|[]| |[]], y as [|[]| |[]]; done. Qed.

Section Predecessors.
Context `{PQ : IEEE.PriorityQueue (Vertex * IEEE.number)}.

(** What the loop keeps of the tables: the adjacency index lists input
    edges under the name of their [from] vertex, and a name other than that
    of the source has a predecessor exactly when its distance has been
    lowered. *)
Record pred_inv (s : Vertex) (es : list IEEE.Edge) (g : IEEE.Graph) : Prop := {
  pi_start : IEEE.startV g = s;
  pi_nbs : ∀ n ns e, IEEE.neighbours g !! n = Some ns → e ∈ ns →
             e ∈ es ∧ name (IEEE.from e) = n;
  pi_none : ∀ v, v ≠ name s → IEEE.prevVertex g !! v = None →
              IEEE.bestDistances g !! v = None ∨
              IEEE.bestDistances g !! v = Some IEEE.Infinity;
  pi_some : ∀ v u, IEEE.prevVertex g !! v = Some u →
              (∃ e, e ∈ es ∧ IEEE.from e = u ∧ name (IEEE.to e) = v) ∧
              ∃ x, IEEE.bestDistances g !! v = Some x ∧ IEEE.lt x IEEE.Infinity = true;
}.

Lemma ieee_relax_pred_inv s es u d vis g q e g' q' :
  e ∈ es → name (IEEE.from e) = name u →
  pred_inv s es g → IEEE.relax u d vis (g, q) e = Ret (g', q') → pred_inv s es g'.
Proof.
  intros He Hf HP. unfold IEEE.relax. case_bool_decide; [by intros [= <- <-]|].
  destruct (IEEE.bestDistances g !! name (IEEE.to e)) as [b|] eqn:Hb; [|done].
  cbn [nonnull mbind outcome_bind].
  destruct (IEEE.lt (IEEE.add d (IEEE.distance e)) b) eqn:Hlt; intros [= <- <-]; [|done].
  destruct HP as [H1 H2 H3 H4]. split; cbn [IEEE.startV IEEE.neighbours
    IEEE.prevVertex IEEE.bestDistances]; [done|done| |].
  - intros v Hv. destruct (decide (name (IEEE.to e) = v)) as [<-|Hne].
    + by rewrite lookup_insert_eq.
    + rewrite !lookup_insert_ne by done. by apply H3.
  - intros v u'. destruct (decide (name (IEEE.to e) = v)) as [<-|Hne].
    + rewrite !lookup_insert_eq. intros [= <-]. split.
      * exists e. split_and!; [done|by apply vertex_eq|done].
      * eexists. split; [done|]. by eapply ieee_lt_below.
    + rewrite !lookup_insert_ne by done. apply H4.
Qed.

Lemma ieee_iteration_pred_inv s es st st' :
  pred_inv s es (IEEE.graph st) → IEEE.iteration st = Ret st' →
  pred_inv s es (IEEE.graph st').
Proof.
  intros HP. unfold IEEE.iteration.
  destruct (IEEE.pq_deq (IEEE.queue st)) as [[[u d] q0]|]; [|done].
  destruct (IEEE.neighbours (IEEE.graph st) !! name u) as [ns|] eqn:Hns;
    [|by intros [= <-]].
  cbn [nonnull mbind outcome_bind].
  destruct (for_of _ ns _) as [[g' q']| | |] eqn:Hfor; try done.
  cbn [mbind outcome_bind]. intros [= <-]. cbn [IEEE.graph].
  apply (for_of_invariant _ (λ acc, pred_inv s es acc.1) ns) in Hfor; [done| |done].
  intros [g1 q1] e [g2 q2] He HJ Hr. cbn [fst] in *.
  destruct (pi_nbs _ _ _ HP _ _ _ Hns He) as [Hin Hf].
  by eapply ieee_relax_pred_inv.
Qed.

Lemma ieee_loop_pred_inv s es fuel st g :
  pred_inv s es (IEEE.graph st) → IEEE.loop fuel st = Ret g → pred_inv s es g.
Proof.
  revert st. induction fuel as [|fuel IH]; intros st HP; simpl.
  - destruct (IEEE.pq_isEmpty (IEEE.queue st)); [|done]. by intros [= <-].
  - destruct (IEEE.pq_isEmpty (IEEE.queue st)); [by intros [= <-]|].
    destruct (IEEE.iteration st) as [st'| | |] eqn:Hit; try done.
    cbn [mbind outcome_bind]. apply IH. by eapply ieee_iteration_pred_inv.
Qed.

Lemma ieee_register_edges_sound (es0 es : list IEEE.Edge) acc :
  (∀ n ns e, acc.1 !! n = Some ns → e ∈ ns → e ∈ es0 ∧ name (IEEE.from e) = n) →
  (∀ e, e ∈ es → e ∈ es0) →
  ∀ n ns e, (foldl IEEE.register_edge acc es).1 !! n = Some ns → e ∈ ns →
    e ∈ es0 ∧ name (IEEE.from e) = n.
Proof.
  revert acc. induction es as [|e0 es IH]; intros [nbs X] Hacc Hsub; [done|].
  cbn [foldl]. apply IH; [|intros e He; apply Hsub; by right].
  assert (e0 ∈ es0) as He0 by (apply Hsub; left).
  unfold IEEE.register_edge. cbn [fst] in *. intros n ns e.
  destruct (nbs !! name (IEEE.from e0)) as [l|] eqn:Hl;
    (destruct (decide (name (IEEE.from e0) = n)) as [<-|Hne];
     [rewrite lookup_insert_eq; intros [= <-]|rewrite lookup_insert_ne by done; apply Hacc]).
  - intros [Hin|Hin]%elem_of_app; [by eapply Hacc|].
    apply list_elem_of_singleton in Hin. by subst e.
  - intros Hin. apply list_elem_of_singleton in Hin. by subst e.
Qed.

Lemma ieee_init_distances_lookup (X : gset string) v :
  IEEE.init_distances X !! v = if decide (v ∈ X) then Some IEEE.Infinity else None.
Proof.
  assert (IEEE.init_distances X = gset_to_gmap IEEE.Infinity X) as ->.
  { unfold IEEE.init_distances.
    apply (set_fold_ind_L (λ m Y, m = gset_to_gmap IEEE.Infinity Y)).
    - by rewrite gset_to_gmap_empty.
    - intros x Y m _ ->. by rewrite gset_to_gmap_union_singleton. }
  rewrite lookup_gset_to_gmap. unfold guard. by destruct (decide (v ∈ X)).
Qed.

Lemma ieee_constructs_pred_inv s es g : IEEE.constructs s es g → pred_inv s es g.
Proof.
  intros [fuel Hc]. unfold IEEE.new_Graph in Hc.
  destruct (IEEE.validateInput s es); try done. cbn [mbind outcome_bind] in Hc.
  pose proof (ieee_register_edges_sound es es (∅, ∅)) as Hreg.
  destruct (foldl IEEE.register_edge (∅, ∅) es) as [nbs allV].
  unfold IEEE.dijkstraShortPathAlgo in Hc.
  eapply ieee_loop_pred_inv; [|exact Hc]. cbn [IEEE.graph].
  split; cbn [IEEE.startV IEEE.neighbours IEEE.prevVertex IEEE.bestDistances].
  - done.
  - apply Hreg; [|done]. intros n ns e. cbn [fst]. by rewrite lookup_empty.
  - intros v Hv _. rewrite lookup_insert_ne by done.
    rewrite ieee_init_distances_lookup. destruct (decide (v ∈ allV)); auto.
  - intros v u. by rewrite lookup_empty.
Qed.


(** X5: for every edge list, whatever numbers its weights are, and every
    queue, a predecessor entry comes from an input edge: the predecessor of
    [v] is the [from] vertex of an edge into [v], and the distance of [v] is
    below [Infinity]. *)
Theorem predecessor_is_input_edge (s : Vertex) (es : list IEEE.Edge) (g : IEEE.Graph) :
  IEEE.constructs s es g →
  ∀ (v u : Vertex), IEEE.prevVertex g !! name v = Some u →
    (∃ e, e ∈ es ∧ IEEE.from e = u ∧ IEEE.to e = v) ∧
    ∃ x, IEEE.shortestPathTo g v = Some x ∧ IEEE.lt x IEEE.Infinity = true.
Proof.
  intros Hc v u Hp. destruct (ieee_constructs_pred_inv _ _ _ Hc) as [H1 H2 H3 H4].
  destruct (H4 _ _ Hp) as ((e & He & Hf & Ht) & Hx). split; [|done].
  exists e. split_and!; [done..|]. by apply vertex_eq.
Qed.

End Predecessors.

(** * Concrete instances *)

(** What the module prints for its demo input, computed with the list
    queue. *)
Example demo_output :
  match new_Graph (PQ := list_queue) 7 vA demo_edges with
  | Ret g =>
      map (shortestPathTo g) [vA; vB; vC; vD; vE]
      = [Some (Num 0); Some (Num 1); Some (Num 2); Some (Num 7); Some (Num 10)] ∧
      map (printPathTo 7 g) [vA; vB; vC; vD; vE]
      = [Ret (Some "Vertex(A) is a source");
         Ret (Some "Vertex(A) -> Vertex(B) - total 1 away from source");
         Ret (Some "Vertex(A) -> Vertex(B) -> Vertex(C) - total 2 away from source");
         Ret (Some "Vertex(A) -> Vertex(B) -> Vertex(C) -> Vertex(D) - total 7 away from source");
         Ret (Some "Vertex(A) -> Vertex(E) - total 10 away from source")]
  | _ => False
  end.
Proof. vm_compute. split; reflexivity. Qed.

Lemma island_constructs : constructs (PQ := list_queue) vA island_edges island_graph.
Proof. exists 5%nat. vm_compute. reflexivity. Qed.

Lemma island_nonneg : nonneg island_edges.
Proof. repeat constructor; vm_compute; discriminate. Qed.

Lemma island_reachable : reachable island_edges (name vA) (name vC).
Proof. exists [mkEdge vA vC 3]. simpl. repeat split. right; left. Qed.

Lemma island_unreachable : ¬ reachable island_edges (name vA) (name vD).
Proof.
  intros [p Hp].
  assert (name vD ∈ ({["A"; "B"; "C"]} : gset string)) as HD; [|set_solver].
  eapply reachable_closed; [|exact Hp|set_solver].
  intros e He. repeat (apply elem_of_cons in He as [->|He]); simpl; try set_solver.
Qed.

Lemma island_registered : name vD ∈ endpoints island_edges.
Proof.
  apply elem_of_endpoints. exists (mkEdge vD vA 2). split; [|by left].
  right; right; right; left.
Qed.

(** [negative_edges] is accepted, and the distance returned for C is not the
    minimum. *)
Lemma negative_weight_not_rejected :
  (∃ e, e ∈ negative_edges ∧ distance e < 0) ∧
  ∃ g, new_Graph (PQ := list_queue) 5 vA negative_edges = Ret g ∧
       shortestPathTo g vC = Some (Num 2) ∧
       is_path negative_edges "A" [mkEdge vA vB 3; mkEdge vB vC (-2)] "C" ∧
       weight [mkEdge vA vB 3; mkEdge vB vC (-2)] = 1.
Proof.
  split.
  - exists (mkEdge vB vC (-2)). split; [set_solver|done].
  - eexists. split; [vm_compute; reflexivity|]. split; [by vm_compute|].
    split; [|done]. simpl. repeat split; set_solver.
Qed.

(** C3 on [negative_edges]. *)
Lemma negative_weight_accepted_witness :
  (∃ e, e ∈ negative_edges ∧ distance e < 0) ∧ name vA ∈ endpoints negative_edges ∧
  (∃ g, constructs (PQ := list_queue) vA negative_edges g) ∧
  ∀ fuel msg, new_Graph (PQ := list_queue) fuel vA negative_edges ≠ Throw msg.
Proof.
  assert (∃ e, e ∈ negative_edges ∧ distance e < 0) as H1.
  { exists (mkEdge vB vC (-2)). split; [|reflexivity].
    right; right; left. }
  assert (name vA ∈ endpoints negative_edges) as H2.
  { apply elem_of_endpoints. exists (mkEdge vA vC 2). split; [left|by left]. }
  split; [exact H1|]. split; [exact H2|].
  apply (negative_weight_accepted vA negative_edges H1 H2).
Defined.

(** C4 on [island_edges]: the unknown vertex Z and the unreachable vertex D. *)
Lemma unknown_and_unreachable_vertices_witness :
  constructs (PQ := list_queue) vA island_edges island_graph ∧
  ((name (mkVertex "Z") ∉ endpoints island_edges) ∧
   shortestPathTo island_graph (mkVertex "Z") = None) ∧
  (name vD ∈ endpoints island_edges ∧ ¬ reachable island_edges (name vA) (name vD) ∧
   shortestPathTo island_graph vD = Some Infinity ∧
   ∀ fuel, pathTo fuel island_graph vD = Ret None ∧
           printPathTo fuel island_graph vD = Ret None).
Proof.
  assert (constructs (PQ := list_queue) vA island_edges island_graph) as Hc.
  { exists 5%nat. vm_compute. reflexivity. }
  assert (name (mkVertex "Z") ∉ endpoints island_edges) as HZ.
  { intros (e & He & Hor)%elem_of_endpoints.
    repeat (apply elem_of_cons in He as [->|He]); simpl in Hor;
      [destruct Hor; discriminate..|by apply elem_of_nil in He]. }
  assert (name vD ∈ endpoints island_edges) as HD.
  { apply elem_of_endpoints. exists (mkEdge vD vA 2). split; [|by left].
    right; right; right; left. }
  split; [exact Hc|]. split.
  - split; [exact HZ|].
    apply (unknown_and_unreachable_vertices vA island_edges island_graph Hc
             (mkVertex "Z")), HZ.
  - split; [exact HD|]. split; [exact island_unreachable|].
    apply (unknown_and_unreachable_vertices vA island_edges island_graph Hc vD);
      [exact HD|exact island_unreachable].
Defined.

(** The empty edge list mentions no vertex, yet the error is the one for an
    empty graph. *)
Lemma empty_list_is_not_disconnected :
  (∀ e : Edge, e ∈ [] → name (from e) ≠ name vA ∧ name (to e) ≠ name vA) ∧
  (∀ fuel, new_Graph (PQ := list_queue) fuel vA [] = Throw EmptyGraphError) ∧
  EmptyGraphError ≠ DisconnectedSourceError.
Proof.
  split; [|split].
  - intros e He. by apply elem_of_nil in He.
  - done.
  - discriminate.
Qed.

(** C7 on a single edge from A to B: C occurs in no edge, B only as a [to]
    endpoint. *)
Lemma disconnected_source_rejected_witness :
  [mkEdge vA vB 1] ≠ [] ∧
  (∀ fuel, new_Graph (PQ := list_queue) fuel vC [mkEdge vA vB 1]
           = Throw DisconnectedSourceError) ∧
  (∃ g, constructs (PQ := list_queue) vB [mkEdge vA vB 1] g).
Proof.
  assert ([mkEdge vA vB 1] ≠ []) as Hne by discriminate.
  split; [exact Hne|]. split.
  - intros fuel.
    apply (proj1 (disconnected_source_rejected vC [mkEdge vA vB 1] Hne) fuel).
    intros e He. apply list_elem_of_singleton in He. subst e.
    split; discriminate.
  - apply (proj2 (disconnected_source_rejected vB [mkEdge vA vB 1] Hne)).
    exists (mkEdge vA vB 1). split; [left|by right].
Defined.


(** C10 on [island_edges]. *)
Lemma asserted_lookups_are_defined_witness :
  constructs (PQ := list_queue) vA island_edges island_graph ∧
  targets_registered island_graph ∧
  (∀ fuel, new_Graph (PQ := list_queue) fuel vA island_edges ≠ Undefined_deref) ∧
  ∀ st, reaches (init_state vA island_edges) st →
    targets_registered (graph st) ∧ iteration st ≠ Undefined_deref.
Proof.
  assert (constructs (PQ := list_queue) vA island_edges island_graph) as Hc.
  { exists 5%nat. vm_compute. reflexivity. }
  split; [exact Hc|].
  apply (asserted_lookups_are_defined vA island_edges island_graph Hc).
Defined.

(** On [self_loop_edges] the source gets itself as predecessor, so that the
    walk from B never leaves A: no budget suffices. *)
Lemma negative_self_loop_breaks_walk :
  ∃ g, new_Graph (PQ := list_queue) 5 vA self_loop_edges = Ret g ∧
       reachable self_loop_edges (name vA) (name vB) ∧ name vB ≠ name vA ∧
       prevVertex g !! name vA = Some vA ∧
       ∀ fuel, pathTo fuel g vB = Diverge.
Proof.
  eexists. split; [vm_compute; reflexivity|].
  split; [exists [mkEdge vA vB 5]; simpl; repeat split; set_solver|].
  split; [done|]. split; [by vm_compute|].
  intros fuel. unfold pathTo.
  rewrite bool_decide_eq_false_2 by done.
  match goal with |- context [prevVertex ?g !! name vB] =>
    replace (prevVertex g !! name vB) with (Some vA) by (by vm_compute);
    assert (∀ n acc, walk n g (Some vA) acc = Diverge) as Hw
  end.
  { induction n as [|n IH]; intros acc; [done|].
    cbn [walk].
    match goal with |- context [prevVertex ?g !! name vA] =>
      replace (prevVertex g !! name vA) with (Some vA) by (by vm_compute) end.
    apply IH. }
  by rewrite Hw.
Qed.

(** ** The further properties on [island_edges] *)

Lemma adjacency_index_groups_edges_witness :
  constructs (PQ := list_queue) vA island_edges island_graph ∧
  startV island_graph = vA ∧ edges island_graph = island_edges ∧
  ∀ n, neighbours island_graph !! n =
       if decide (out_edges island_edges n = []) then None
       else Some (out_edges island_edges n).
Proof.
  assert (constructs (PQ := list_queue) vA island_edges island_graph) as Hc
    by (exists 5%nat; vm_compute; reflexivity).
  split; [exact Hc|].
  apply (adjacency_index_groups_edges vA island_edges island_graph Hc).
Defined.

Lemma distance_defined_iff_registered_witness :
  constructs (PQ := list_queue) vA island_edges island_graph ∧
  ∀ v : Vertex,
    is_Some (shortestPathTo island_graph v) ↔
    ∃ e, e ∈ island_edges ∧ (name (from e) = name v ∨ name (to e) = name v).
Proof.
  assert (constructs (PQ := list_queue) vA island_edges island_graph) as Hc
    by (exists 5%nat; vm_compute; reflexivity).
  split; [exact Hc|].
  apply (distance_defined_iff_registered vA island_edges island_graph Hc).
Defined.




Lemma iteration_never_increases_distance_witness :
  name vA ∈ endpoints island_edges ∧
  reaches (PQ := list_queue) (init_state vA island_edges) island_state1 ∧
  ∃ st', iteration island_state1 = Ret st' ∧
    ∀ v b, bestDistances (graph island_state1) !! v = Some b →
      ∃ b', bestDistances (graph st') !! v = Some b' ∧ number_le b' b.
Proof.
  assert (name vA ∈ endpoints island_edges) as H1.
  { apply elem_of_endpoints. exists (mkEdge vA vB 1). split; [left|by left]. }
  assert (reaches (PQ := list_queue) (init_state vA island_edges) island_state1) as H2
    by (apply rtc_once; vm_compute; reflexivity).
  assert (∃ st', iteration island_state1 = Ret st')
    as [st' H3] by (eexists; vm_compute; reflexivity).
  split; [exact H1|]. split; [exact H2|]. exists st'. split; [exact H3|].
  apply (iteration_never_increases_distance vA island_edges _ st' H1 H2 H3).
Defined.

Lemma iteration_keeps_visited_entries_witness :
  name vA ∈ endpoints island_edges ∧
  reaches (PQ := list_queue) (init_state vA island_edges) island_state1 ∧
  ∃ st', iteration island_state1 = Ret st' ∧
    visited island_state1 ⊆ visited st' ∧
    ∀ v, v ∈ visited island_state1 →
      bestDistances (graph st') !! v = bestDistances (graph island_state1) !! v ∧
      prevVertex (graph st') !! v = prevVertex (graph island_state1) !! v.
Proof.
  assert (name vA ∈ endpoints island_edges) as H1.
  { apply elem_of_endpoints. exists (mkEdge vA vB 1). split; [left|by left]. }
  assert (reaches (PQ := list_queue) (init_state vA island_edges) island_state1) as H2
    by (apply rtc_once; vm_compute; reflexivity).
  assert (∃ st', iteration island_state1 = Ret st')
    as [st' H3] by (eexists; vm_compute; reflexivity).
  split; [exact H1|]. split; [exact H2|]. exists st'. split; [exact H3|].
  apply (iteration_keeps_visited_entries vA island_edges _ st' H1 H2 H3).
Defined.

(** ** The properties of sums on [island_edges], with the list queue of
    numbers *)

Lemma island_exact_sums : exact_sums island_edges.
Proof. by vm_compute. Qed.

Lemma island_constructs64 :
  IEEE.constructs (PQ := IEEE.list_queue) vA (of_edge <$> island_edges) island_graph64.
Proof. exists 5%nat. vm_compute. reflexivity. Qed.

(** C1 on [island_edges]: the source, the reachable vertex C and the
    unreachable vertex D. *)
Lemma shortest_distance_is_minimum_witness :
  nonneg island_edges ∧ exact_sums island_edges ∧
  IEEE.constructs (PQ := IEEE.list_queue) vA (of_edge <$> island_edges) island_graph64 ∧
  IEEE.shortestPathTo island_graph64 vA = Some IEEE.zero ∧
  (reachable island_edges (name vA) (name vC) ∧
   ∃ x d, IEEE.shortestPathTo island_graph64 vC = Some x ∧ IEEE.to_Z x = Some d ∧
          is_shortest island_edges (name vA) (name vC) d) ∧
  (name vD ∈ endpoints island_edges ∧ ¬ reachable island_edges (name vA) (name vD) ∧
   IEEE.shortestPathTo island_graph64 vD = Some IEEE.Infinity).
Proof.
  assert (nonneg island_edges) as H1
    by (repeat constructor; vm_compute; discriminate).
  assert (exact_sums island_edges) as H2 by (by vm_compute).
  assert (IEEE.constructs (PQ := IEEE.list_queue) vA (of_edge <$> island_edges)
            island_graph64) as H3
    by (exists 5%nat; vm_compute; reflexivity).
  destruct (shortest_distance_is_minimum (PQL64 := ieee_list_queue_laws IEEE.comparator)
              vA island_edges island_graph64 H1 H2 H3) as [H0 Hv].
  split; [exact H1|]. split; [exact H2|]. split; [exact H3|]. split; [exact H0|]. split.
  - split; [exact island_reachable|]. exact (proj1 (Hv vC) island_reachable).
  - split; [exact island_registered|]. split; [exact island_unreachable|].
    exact (proj2 (Hv vD) island_registered island_unreachable).
Defined.

(** On [rounding_edges] the distance returned for C is 2^53, and the minimum
    of the summed weights is 2^53 + 1. *)
Lemma rounded_sum_is_not_minimum :
  nonneg rounding_edges ∧ reachable rounding_edges (name vA) (name vC) ∧
  ∃ g, IEEE.new_Graph (PQ := IEEE.list_queue) 3 vA (of_edge <$> rounding_edges) = Ret g ∧
    ∃ x, IEEE.shortestPathTo g vC = Some x ∧ IEEE.to_Z x = Some (2 ^ 53) ∧
         is_shortest rounding_edges (name vA) (name vC) (2 ^ 53 + 1) ∧
         ¬ is_shortest rounding_edges (name vA) (name vC) (2 ^ 53).
Proof.
  assert (is_shortest rounding_edges (name vA) (name vC) (2 ^ 53 + 1)) as Hmin.
  { apply (is_shortest_certificate rounding_edges
             (λ v, if decide (v = "B") then 2 ^ 53
                   else if decide (v = "C") then 2 ^ 53 + 1 else 0)
             "A" "C" [mkEdge vA vB (2 ^ 53); mkEdge vB vC 1]).
    - repeat constructor; vm_compute; discriminate.
    - simpl. repeat split; set_solver.
    - by vm_compute. }
  split; [repeat constructor; vm_compute; discriminate|].
  split; [destruct Hmin as [(p & Hp & _) _]; by exists p|].
  eexists. split; [vm_compute; reflexivity|].
  eexists. split; [vm_compute; reflexivity|]. split; [by vm_compute|].
  split; [exact Hmin|].
  intros [(p & Hp & Hw) _]. destruct Hmin as [_ Hle]. specialize (Hle p Hp). lia.
Qed.

(** C2 on [island_edges]: the source and the reachable vertex C. *)
Lemma path_to_reachable_vertex_witness :
  nonneg island_edges ∧ exact_sums island_edges ∧
  IEEE.constructs (PQ := IEEE.list_queue) vA (of_edge <$> island_edges) island_graph64 ∧
  (∀ toString fuel,
     IEEE.pathTo fuel island_graph64 vA = Ret (Some [vA]) ∧
     IEEE.printPathTo toString fuel island_graph64 vA
     = Ret (Some (IEEE.render toString island_graph64 vA [vA]))) ∧
  reachable island_edges (name vA) (name vC) ∧
  ∃ p, (∀ toString fuel, (length p ≤ fuel)%nat →
          IEEE.pathTo fuel island_graph64 vC = Ret (Some (vertices_of vA p)) ∧
          IEEE.printPathTo toString fuel island_graph64 vC
          = Ret (Some (IEEE.render toString island_graph64 vC (vertices_of vA p)))) ∧
       head (vertices_of vA p) = Some vA ∧
       last (vertices_of vA p) = Some vC ∧
       consecutive island_edges (vertices_of vA p) ∧
       is_path island_edges (name vA) p (name vC) ∧
       ∃ x, IEEE.shortestPathTo island_graph64 vC = Some x ∧
            IEEE.to_Z x = Some (weight p).
Proof.
  assert (nonneg island_edges) as H1
    by (repeat constructor; vm_compute; discriminate).
  assert (exact_sums island_edges) as H2 by (by vm_compute).
  assert (IEEE.constructs (PQ := IEEE.list_queue) vA (of_edge <$> island_edges)
            island_graph64) as H3
    by (exists 5%nat; vm_compute; reflexivity).
  destruct (path_to_reachable_vertex (PQL64 := ieee_list_queue_laws IEEE.comparator)
              vA island_edges island_graph64 H1 H2 H3) as [H0 Hv].
  split; [exact H1|]. split; [exact H2|]. split; [exact H3|]. split; [exact H0|].
  split; [exact island_reachable|]. exact (Hv vC island_reachable).
Defined.

(** On [overflow_edges] the vertex C is reachable, its distance stays
    [Infinity] and [pathTo] returns [undefined]. *)
Lemma overflow_loses_the_path :
  nonneg overflow_edges ∧ reachable overflow_edges (name vA) (name vC) ∧
  ∃ g, IEEE.new_Graph (PQ := IEEE.list_queue) 3 vA (of_edge <$> overflow_edges) = Ret g ∧
    IEEE.shortestPathTo g vC = Some IEEE.Infinity ∧
    ∀ toString fuel,
      IEEE.pathTo fuel g vC = Ret None ∧ IEEE.printPathTo toString fuel g vC = Ret None.
Proof.
  split; [repeat constructor; vm_compute; discriminate|].
  split.
  { exists [mkEdge vA vB (2 ^ 1023); mkEdge vB vC (2 ^ 1023)].
    simpl. repeat split; set_solver. }
  eexists. split; [vm_compute; reflexivity|]. split; [by vm_compute|].
  intros toString fuel.
  assert (∀ g : IEEE.Graph, IEEE.startV g = vA → IEEE.prevVertex g !! name vC = None →
    IEEE.pathTo fuel g vC = Ret None ∧ IEEE.printPathTo toString fuel g vC = Ret None) as H.
  { intros g Hs Hp. unfold IEEE.pathTo, IEEE.printPathTo. rewrite Hs, Hp.
    by rewrite bool_decide_eq_false_2. }
  apply H; by vm_compute.
Qed.

(** C5 on [island_edges]: the source and the reachable vertex C. *)
Lemma predecessor_walk_reaches_source_witness :
  nonneg island_edges ∧ exact_sums island_edges ∧
  IEEE.constructs (PQ := IEEE.list_queue) vA (of_edge <$> island_edges) island_graph64 ∧
  IEEE.prevVertex island_graph64 !! name vA = None ∧
  reachable island_edges (name vA) (name vC) ∧ name vC ≠ name vA ∧
  is_Some (IEEE.prevVertex island_graph64 !! name vC) ∧
  ∃ p x, IEEE.pred_path island_graph64 vC (of_edge <$> p) ∧
         IEEE.bestDistances island_graph64 !! name vC = Some x ∧
         IEEE.to_Z x = Some (weight p).
Proof.
  assert (nonneg island_edges) as H1
    by (repeat constructor; vm_compute; discriminate).
  assert (exact_sums island_edges) as H2 by (by vm_compute).
  assert (IEEE.constructs (PQ := IEEE.list_queue) vA (of_edge <$> island_edges)
            island_graph64) as H3
    by (exists 5%nat; vm_compute; reflexivity).
  assert (name vC ≠ name vA) as H4 by discriminate.
  destruct (predecessor_walk_reaches_source
              (PQL64 := ieee_list_queue_laws IEEE.comparator)
              vA island_edges island_graph64 H1 H2 H3) as [H0 Hv].
  split; [exact H1|]. split; [exact H2|]. split; [exact H3|]. split; [exact H0|].
  split; [exact island_reachable|]. split; [exact H4|].
  exact (Hv vC island_reachable H4).
Defined.

Lemma finite_distance_has_path_witness :
  exact_sums island_edges ∧
  IEEE.constructs (PQ := IEEE.list_queue) vA (of_edge <$> island_edges) island_graph64 ∧
  IEEE.shortestPathTo island_graph64 vC = Some (IEEE.of_Z 2) ∧
  IEEE.of_Z 2 ≠ IEEE.Infinity ∧
  ∃ p, is_path island_edges (name vA) p (name vC) ∧
       IEEE.to_Z (IEEE.of_Z 2) = Some (weight p).
Proof.
  assert (exact_sums island_edges) as H1 by (by vm_compute).
  assert (IEEE.constructs (PQ := IEEE.list_queue) vA (of_edge <$> island_edges)
            island_graph64) as H2
    by (exists 5%nat; vm_compute; reflexivity).
  assert (IEEE.shortestPathTo island_graph64 vC = Some (IEEE.of_Z 2)) as H3
    by (vm_compute; reflexivity).
  assert (IEEE.of_Z 2 ≠ IEEE.Infinity) as H4 by (vm_compute; discriminate).
  split; [exact H1|]. split; [exact H2|]. split; [exact H3|]. split; [exact H4|].
  apply (finite_distance_has_path (PQL64 := ieee_list_queue_laws IEEE.comparator)
           vA island_edges island_graph64 H1 H2 vC (IEEE.of_Z 2) H3 H4).
Defined.


Lemma predecessor_is_input_edge_witness :
  IEEE.constructs (PQ := IEEE.list_queue) vA (of_edge <$> island_edges) island_graph64 ∧
  IEEE.prevVertex island_graph64 !! name vC = Some vB ∧
  (∃ e, e ∈ of_edge <$> island_edges ∧ IEEE.from e = vB ∧ IEEE.to e = vC) ∧
  ∃ x, IEEE.shortestPathTo island_graph64 vC = Some x ∧ IEEE.lt x IEEE.Infinity = true.
Proof.
  assert (IEEE.constructs (PQ := IEEE.list_queue) vA (of_edge <$> island_edges)
            island_graph64) as Hc
    by (exists 5%nat; vm_compute; reflexivity).
  assert (IEEE.prevVertex island_graph64 !! name vC = Some vB) as Hp by reflexivity.
  split; [exact Hc|]. split; [exact Hp|].
  apply (predecessor_is_input_edge vA (of_edge <$> island_edges) island_graph64 Hc
           vC vB Hp).
Defined.

Lemma no_edge_is_tense_witness :
  nonneg island_edges ∧ exact_sums island_edges ∧
  IEEE.constructs (PQ := IEEE.list_queue) vA (of_edge <$> island_edges) island_graph64 ∧
  mkEdge vB vC 1 ∈ island_edges ∧
  ∃ x y, IEEE.shortestPathTo island_graph64 (from (mkEdge vB vC 1)) = Some x ∧
         IEEE.shortestPathTo island_graph64 (to (mkEdge vB vC 1)) = Some y ∧
         IEEE.lt (IEEE.add x (IEEE.distance (of_edge (mkEdge vB vC 1)))) y = false ∧
         (x ≠ IEEE.Infinity →
            ∃ d d', IEEE.to_Z x = Some d ∧ IEEE.to_Z y = Some d' ∧
                    d' ≤ d + distance (mkEdge vB vC 1)).
Proof.
  assert (nonneg island_edges) as H1
    by (repeat constructor; vm_compute; discriminate).
  assert (exact_sums island_edges) as H2 by (by vm_compute).
  assert (IEEE.constructs (PQ := IEEE.list_queue) vA (of_edge <$> island_edges)
            island_graph64) as H3
    by (exists 5%nat; vm_compute; reflexivity).
  assert (mkEdge vB vC 1 ∈ island_edges) as H4 by (right; right; left).
  split; [exact H1|]. split; [exact H2|]. split; [exact H3|]. split; [exact H4|].
  apply (no_edge_is_tense (PQL64 := ieee_list_queue_laws IEEE.comparator)
           vA island_edges island_graph64 H1 H2 H3 _ H4).
Defined.

Lemma predecessor_link_is_tight_witness :
  nonneg island_edges ∧ exact_sums island_edges ∧
  IEEE.constructs (PQ := IEEE.list_queue) vA (of_edge <$> island_edges) island_graph64 ∧
  IEEE.prevVertex island_graph64 !! name vC = Some vB ∧
  ∃ e x du, e ∈ island_edges ∧ from e = vB ∧ to e = vC ∧
            IEEE.shortestPathTo island_graph64 vB = Some x ∧
            IEEE.shortestPathTo island_graph64 vC
            = Some (IEEE.add x (IEEE.distance (of_edge e))) ∧
            IEEE.to_Z x = Some du ∧
            IEEE.to_Z (IEEE.add x (IEEE.distance (of_edge e))) = Some (du + distance e).
Proof.
  assert (nonneg island_edges) as H1
    by (repeat constructor; vm_compute; discriminate).
  assert (exact_sums island_edges) as H2 by (by vm_compute).
  assert (IEEE.constructs (PQ := IEEE.list_queue) vA (of_edge <$> island_edges)
            island_graph64) as H3
    by (exists 5%nat; vm_compute; reflexivity).
  assert (IEEE.prevVertex island_graph64 !! name vC = Some vB) as H4 by reflexivity.
  split; [exact H1|]. split; [exact H2|]. split; [exact H3|]. split; [exact H4|].
  apply (predecessor_link_is_tight (PQL64 := ieee_list_queue_laws IEEE.comparator)
           vA island_edges island_graph64 H1 H2 H3 vC vB H4).
Defined.

Lemma construction_returns_on_exact_input_witness :
  island_edges ≠ [] ∧ exact_sums island_edges ∧ name vA ∈ endpoints island_edges ∧
  (∃ fuel g, ∀ fuel', (fuel ≤ fuel')%nat →
     IEEE.new_Graph (PQ := IEEE.list_queue) fuel' vA (of_edge <$> island_edges) = Ret g) ∧
  (nonneg island_edges →
     ∃ g, ∀ fuel, (S (length island_edges) ≤ fuel)%nat →
       IEEE.new_Graph (PQ := IEEE.list_queue) fuel vA (of_edge <$> island_edges) = Ret g).
Proof.
  assert (island_edges ≠ []) as H1 by discriminate.
  assert (exact_sums island_edges) as H2 by (by vm_compute).
  assert (name vA ∈ endpoints island_edges) as H3.
  { apply elem_of_endpoints. exists (mkEdge vA vB 1). split; [left|by left]. }
  split; [exact H1|]. split; [exact H2|]. split; [exact H3|].
  apply (construction_returns_on_exact_input
           (PQL64 := ieee_list_queue_laws IEEE.comparator) vA island_edges H1 H2 H3).
Defined.
